(** * Rendezvous (highest random weight) hashing: package hrw

    A shallow embedding of hrw.go (and of the two permutation appliers
    sortByRuleDirect / sortByRuleInverse of its sibling revision) together
    with the properties its specification states about them.

    Conventions of the embedding:
    - a [uint64] is an [N] below [2^64]; every arithmetic operation that can
      leave that range is followed by its wrap-around ([wrap64]);
    - a Go slice is a [list]; an index expression [s[i]] is a lookup that
      panics when [i] is out of range;
    - a call that can panic returns an [outcome];
    - a function that mutates a slice it was handed returns the new contents
      of that slice. *)

From Stdlib Require Import ZArith NArith Lia Permutation Sorted.
From Stdlib Require Import Strings.Byte DecimalString.
From stdpp Require Import base numbers list strings option sorting.

Local Open Scope N_scope.

(** ** uint64 arithmetic *)

Abbreviation uint64 := N (only parsing).

Definition wrap64 (x : N) : uint64 := x mod 2 ^ 64.

(** ** weight (hrw.go, lines 27-37) *)

Definition weight (x y : uint64) : uint64 :=
  let acc := N.lxor x y in
  let acc := N.lxor acc (N.shiftr acc 33) in
  let acc := wrap64 (acc * 0xff51afd7ed558ccd) in
  let acc := N.lxor acc (N.shiftr acc 33) in
  let acc := wrap64 (acc * 0xc4ceb9fe1a85ec53) in
  let acc := N.lxor acc (N.shiftr acc 33) in
  acc.

(** ** Panics

    [Panic] is a Go run-time panic (index out of range, nil dereference, a
    reflect call on the wrong kind).  [OutOfFuel] is produced only by the
    loop bound the embedding puts on the inner [for] loops of the
    permutation appliers. *)

Inductive outcome (A : Type) : Type :=
  | Ok (a : A)
  | Panic
  | OutOfFuel.
Arguments Ok {A} a.
Arguments Panic {A}.
Arguments OutOfFuel {A}.

#[global] Instance outcome_ret : MRet outcome := fun A a => Ok a.
#[global] Instance outcome_bind : MBind outcome := fun A B f m =>
  match m with
  | Ok a => f a
  | Panic => Panic
  | OutOfFuel => OutOfFuel
  end.

(** [s[i]] *)
Definition index {A} (s : list A) (i : nat) : outcome A :=
  match s !! i with
  | Some x => Ok x
  | None => Panic
  end.

(** [s[i] = x] *)
Definition store {A} (s : list A) (i : nat) (x : A) : outcome (list A) :=
  if decide (i < length s)%nat then Ok (<[i:=x]> s) else Panic.

(** [s[i], s[j] = s[j], s[i]] *)
Definition exchange {A} (s : list A) (i j : nat) : outcome (list A) :=
  a ← index s i;
  b ← index s j;
  Ok (<[i:=b]> (<[j:=a]> s)).

(** [for i := 0; i < length; i++ { out = append(out, f(s[i])) }] *)
Fixpoint for_each {A B} (f : A → outcome B) (s : list A) : outcome (list B) :=
  match s with
  | [] => Ok []
  | x :: s' => y ← f x; out ← for_each f s'; Ok (y :: out)
  end.

(** ** The hashed struct and its sort.Interface methods (hrw.go, lines 20-24
    and 39-41) *)

Record hashed : Type := mk_hashed {
  hashed_length : nat;
  hashed_sorted : list uint64;
  hashed_weight : list uint64
}.

Class sort_Interface (T : Type) : Type := {
  Len : T → nat;
  Less : T → nat → nat → outcome bool;
  Swap : T → nat → nat → outcome T
}.

Definition hashed_Len (h : hashed) : nat := hashed_length h.

Definition hashed_Less (h : hashed) (i j : nat) : outcome bool :=
  si ← index (hashed_sorted h) i;
  wi ← index (hashed_weight h) (N.to_nat si);
  sj ← index (hashed_sorted h) j;
  wj ← index (hashed_weight h) (N.to_nat sj);
  Ok (wi <? wj).

Definition hashed_Swap (h : hashed) (i j : nat) : outcome hashed :=
  sorted ← exchange (hashed_sorted h) i j;
  Ok (mk_hashed (hashed_length h) sorted (hashed_weight h)).

#[global] Instance hashed_Interface : sort_Interface hashed :=
  {| Len := hashed_Len; Less := hashed_Less; Swap := hashed_Swap |}.

(** ** sort.Sort on short inputs

    sort.Sort belongs to Go's standard library.  The ranking code is verified
    against its documented contract ([sort_Sort_contract] below: the data is
    rearranged through [Swap] into ascending order as determined by [Less];
    stability is not promised).  The functions here are one implementation of
    that contract, the path quickSort takes on at most 12 elements in the Go
    releases that sort with quickSort (up to 1.18): one pass of compare and
    exchange with gap 6, then insertionSort.  They serve as the concrete
    sorter wherever a ranking is evaluated. *)

Section sort.
Context {T : Type} `{sort_Interface T}.

(** [for j := i; j > a && data.Less(j, j-1); j-- { data.Swap(j, j-1) }] *)
Fixpoint insertionSort_inner (data : T) (a j : nat) : outcome T :=
  match j with
  | O => Ok data
  | S j' =>
      if decide (a < j)%nat then
        lt ← Less data j j';
        if lt : bool then
          data ← Swap data j j';
          insertionSort_inner data a j'
        else Ok data
      else Ok data
  end.

(** [for i := ...; i < b; i++ { ... }], with [count] iterations left *)
Fixpoint insertionSort_outer (data : T) (a i count : nat) : outcome T :=
  match count with
  | O => Ok data
  | S count =>
      data ← insertionSort_inner data a i;
      insertionSort_outer data a (S i) count
  end.

Definition insertionSort (data : T) (a b : nat) : outcome T :=
  insertionSort_outer data a (a + 1) (b - (a + 1)).

(** [for i := a + 6; i < b; i++ { if data.Less(i, i-6) { data.Swap(i, i-6) } }] *)
Fixpoint gap6_pass (data : T) (i count : nat) : outcome T :=
  match count with
  | O => Ok data
  | S count =>
      lt ← Less data i (i - 6);
      data ← (if lt : bool then Swap data i (i - 6) else Ok data);
      gap6_pass data (S i) count
  end.

Definition short_Sort (data : T) : outcome T :=
  let n := Len data in
  if decide (1 < n)%nat then
    data ← gap6_pass data 6 (n - 6);
    insertionSort data 0 n
  else Ok data.
End sort.

(** ** SortByWeight (hrw.go, lines 53-70) *)

(** The [range] loop: [i] is the index of the head of [nodes]. *)
Fixpoint SortByWeight_fill (hash : uint64) (i : nat) (nodes : list uint64)
    (h : hashed) : hashed :=
  match nodes with
  | [] => h
  | node :: nodes =>
      SortByWeight_fill hash (S i) nodes
        (mk_hashed (hashed_length h)
           (hashed_sorted h ++ [N.of_nat i])
           (hashed_weight h ++ [weight node hash]))
  end.

Definition SortByWeight (sort_Sort : hashed → outcome hashed)
    (nodes : list uint64) (hash : uint64) : outcome (list uint64) :=
  let l := length nodes in
  let h := mk_hashed l [] [] in
  let h := SortByWeight_fill hash 0 nodes h in
  h ← sort_Sort h;
  Ok (hashed_sorted h).

(** ** The permutation appliers

    [swapper mem] is Go's [func(i, j int)] closed over a store of type [mem]:
    it returns the store after the exchange, or panics.  The indices handed
    to it are the loop's uint64 values converted with [int(...)]; below
    [2^63] that conversion is the identity, and no slice is longer.

    The inner loops run on a bound of [length + 2] iterations.  An inner
    loop marks a fresh position in every iteration after its first, so the
    bound is not reached: on every permutation the three appliers are proved
    to return [Ok]. *)

Definition swapper (mem : Type) : Type := nat → nat → mem → outcome mem.

Section applier.
Context {mem : Type}.

(** sortByRule (hrw.go, lines 132-146):
    [for j := rule[i]; !done[rule[j]]; j = rule[j] { swap(i, j); done[j] = true }].
    The test and the step of an iteration read the same [rule[j]]; [rj] holds
    it. *)
Fixpoint sortByRule_inner (fuel : nat) (swap : swapper mem) (rule : list uint64)
    (i j : uint64) (done : list bool) (m : mem) : outcome (list bool * mem) :=
  match fuel with
  | O => OutOfFuel
  | S fuel =>
      rj ← index rule (N.to_nat j);
      d ← index done (N.to_nat rj);
      if d : bool then Ok (done, m)
      else
        m ← swap (N.to_nat i) (N.to_nat j) m;
        done ← store done (N.to_nat j) true;
        sortByRule_inner fuel swap rule i rj done m
  end.

Fixpoint sortByRule_outer (count : nat) (swap : swapper mem) (rule : list uint64)
    (i : uint64) (done : list bool) (m : mem) : outcome (list bool * mem) :=
  match count with
  | O => Ok (done, m)
  | S count =>
      d ← index done (N.to_nat i);
      if d : bool then sortByRule_outer count swap rule (i + 1) done m
      else
        done ← store done (N.to_nat i) true;
        j ← index rule (N.to_nat i);
        '(done, m) ← sortByRule_inner (length done + 2) swap rule i j done m;
        sortByRule_outer count swap rule (i + 1) done m
  end.

Definition sortByRule (swap : swapper mem) (length : uint64) (rule : list uint64)
    (m : mem) : outcome mem :=
  let done := replicate (N.to_nat length) false in
  '(_, m) ← sortByRule_outer (N.to_nat length) swap rule 0 done m;
  Ok m.

(** sortByRuleDirect (sibling revision of hrw.go, lines 260-271): as
    sortByRule, without [done[i] = true] before the inner loop. *)
Definition sortByRuleDirect_inner := sortByRule_inner.

Fixpoint sortByRuleDirect_outer (count : nat) (swap : swapper mem)
    (rule : list uint64) (i : uint64) (done : list bool) (m : mem)
    : outcome (list bool * mem) :=
  match count with
  | O => Ok (done, m)
  | S count =>
      d ← index done (N.to_nat i);
      if d : bool then sortByRuleDirect_outer count swap rule (i + 1) done m
      else
        j ← index rule (N.to_nat i);
        '(done, m) ← sortByRuleDirect_inner (length done + 2) swap rule i j done m;
        sortByRuleDirect_outer count swap rule (i + 1) done m
  end.

Definition sortByRuleDirect (swap : swapper mem) (length : uint64)
    (rule : list uint64) (m : mem) : outcome mem :=
  let done := replicate (N.to_nat length) false in
  '(_, m) ← sortByRuleDirect_outer (N.to_nat length) swap rule 0 done m;
  Ok m.

(** sortByRuleInverse (sibling revision of hrw.go, lines 273-285):
    [for j := i; !done[rule[j]]; j = rule[j] { swap(j, rule[j]); done[j] = true }] *)
Fixpoint sortByRuleInverse_inner (fuel : nat) (swap : swapper mem)
    (rule : list uint64) (j : uint64) (done : list bool) (m : mem)
    : outcome (list bool * mem) :=
  match fuel with
  | O => OutOfFuel
  | S fuel =>
      rj ← index rule (N.to_nat j);
      d ← index done (N.to_nat rj);
      if d : bool then Ok (done, m)
      else
        m ← swap (N.to_nat j) (N.to_nat rj) m;
        done ← store done (N.to_nat j) true;
        sortByRuleInverse_inner fuel swap rule rj done m
  end.

Fixpoint sortByRuleInverse_outer (count : nat) (swap : swapper mem)
    (rule : list uint64) (i : uint64) (done : list bool) (m : mem)
    : outcome (list bool * mem) :=
  match count with
  | O => Ok (done, m)
  | S count =>
      d ← index done (N.to_nat i);
      if d : bool then sortByRuleInverse_outer count swap rule (i + 1) done m
      else
        '(done, m) ← sortByRuleInverse_inner (length done + 2) swap rule i done m;
        sortByRuleInverse_outer count swap rule (i + 1) done m
  end.

Definition sortByRuleInverse (swap : swapper mem) (length : uint64)
    (rule : list uint64) (m : mem) : outcome mem :=
  let done := replicate (N.to_nat length) false in
  '(_, m) ← sortByRuleInverse_outer (N.to_nat length) swap rule 0 done m;
  Ok m.
End applier.

(** The swapper of the tests: [func(i, j int) { s[i], s[j] = s[j], s[i] }]. *)
Definition slice_swapper {A} : swapper (list A) := fun i j s => exchange s i j.

(** ** Values of type [interface{}] and the reflect calls made on them

    Only what the code observes of its argument is kept.  An [object] is an
    element of a slice whose type is neither [[]int] nor [[]string]:
    [object_Hash] is [Some h] when its dynamic type implements [Hasher] and
    [Hash()] returns [h], and [None] when it does not. *)

Module reflect.
Inductive Kind : Set :=
  | Invalid | Bool | Int | Int8 | Int16 | Int32 | Int64
  | Uint | Uint8 | Uint16 | Uint32 | Uint64 | Uintptr
  | Float32 | Float64 | Complex64 | Complex128
  | Array | Chan | Func | Interface | Map | Pointer
  | Slice | String | Struct | UnsafePointer.

#[global] Instance Kind_eq_dec : EqDecision Kind.
Proof. solve_decision. Defined.
End reflect.

Record object : Type := mk_object {
  object_data : N;
  object_Hash : option uint64
}.

Inductive value : Type :=
  | untyped_nil
      (* the nil interface value *)
  | non_slice (k : reflect.Kind) (len : option nat)
      (* a value whose kind [k] is not Slice; [len] is what Len() returns on
         it, for the kinds that have a length *)
  | slice_int (s : list Z)
      (* []int *)
  | slice_string (s : list string)
      (* []string *)
  | slice_other (s : list object).
      (* a slice of any other type *)

(** [reflect.TypeOf(v).Kind()]: TypeOf gives the nil Type for the nil
    interface, and the method call on it is a nil dereference. *)
Definition reflect_TypeOf_Kind (v : value) : outcome reflect.Kind :=
  match v with
  | untyped_nil => Panic
  | non_slice k _ => Ok k
  | slice_int _ | slice_string _ | slice_other _ => Ok reflect.Slice
  end.

(** [reflect.ValueOf(v).Len()]: panics on a kind without a length, the zero
    Value of the nil interface included. *)
Definition reflect_ValueOf_Len (v : value) : outcome nat :=
  match v with
  | untyped_nil => Panic
  | non_slice _ (Some n) => Ok n
  | non_slice _ None => Panic
  | slice_int s => Ok (length s)
  | slice_string s => Ok (length s)
  | slice_other s => Ok (length s)
  end.

(** The closure [reflect.Swapper] returns, acting on the slice it was made
    for; it panics when an index is out of range. *)
Definition value_swap : swapper value := fun i j v =>
  match v with
  | slice_int s => s ← exchange s i j; Ok (slice_int s)
  | slice_string s => s ← exchange s i j; Ok (slice_string s)
  | slice_other s => s ← exchange s i j; Ok (slice_other s)
  | _ => Panic
  end.

(** [reflect.Swapper(v)]: panics unless [v] is a slice. *)
Definition reflect_Swapper (v : value) : outcome (swapper value) :=
  match v with
  | slice_int _ | slice_string _ | slice_other _ => Ok value_swap
  | _ => Panic
  end.

(** [errors.New(msg)] *)
Inductive error : Type := errors_New (msg : string).

(** [strconv.Itoa] *)
Definition strconv_Itoa (x : Z) : string := NilZero.string_of_int (Z.to_int x).

(** The assertion [x.(Hasher)] followed by the call of [Hash()]. *)
Definition assert_Hasher (x : object) : outcome uint64 :=
  match object_Hash x with
  | Some h => Ok h
  | None => Panic
  end.

Section public.
(** [sort.Sort], taken up to its contract. *)
Variable sort_Sort : hashed → outcome hashed.

(** [mmh3.New128()], [Write(key)], [Sum(nil)]: the 16 bytes of the digest,
    given as the two big-endian words [binary.BigEndian.Uint64(data[:8])]
    and [binary.BigEndian.Uint64(data[8:])]. *)
Variable mmh3_Sum128 : list byte → uint64 * uint64.

(** Hash (hrw.go, lines 43-51) *)
Definition Hash (key : list byte) : uint64 :=
  let data := mmh3_Sum128 key in
  weight data.1 data.2.

(** The type switch of SortSliceByValue (hrw.go, lines 89-111): the rule,
    or [None] where the code returns its "unknown type" error. *)
Definition SortSliceByValue_rule (slice : value) (hash : uint64)
    : outcome (option (list uint64)) :=
  match slice with
  | slice_int s =>
      Ok (Some ((λ x, weight hash (Hash (String.list_byte_of_string (strconv_Itoa x)))) <$> s))
  | slice_string s =>
      Ok (Some ((λ x, weight hash (Hash (String.list_byte_of_string x))) <$> s))
  | slice_other s =>
      first ← index s 0;
      match object_Hash first with
      | None => Ok None
      | Some _ =>
          rule ← for_each (λ x, h ← assert_Hasher x; Ok (weight hash h)) s;
          Ok (Some rule)
      end
  | _ => Panic
  end.

(** SortSliceByValue (hrw.go, lines 72-117).  The result is the returned
    error ([None] for nil) and the argument as the call leaves it. *)
Definition SortSliceByValue (slice : value) (hash : uint64)
    : outcome (option error * value) :=
  k ← reflect_TypeOf_Kind slice;
  if decide (k ≠ reflect.Slice) then Ok (Some (errors_New "must be slice"), slice)
  else
    swap ← reflect_Swapper slice;
    length ← reflect_ValueOf_Len slice;
    if decide (length = 0%nat) then Ok (None, slice)
    else
      rule ← SortSliceByValue_rule slice hash;
      match rule with
      | None => Ok (Some (errors_New "unknown type"), slice)
      | Some rule =>
          rule ← SortByWeight sort_Sort rule hash;
          slice ← sortByRule swap (N.of_nat length) rule slice;
          Ok (None, slice)
      end.

(** SortSliceByIndex (hrw.go, lines 119-130).  The result is the argument
    as the call leaves it. *)
Definition SortSliceByIndex (slice : value) (hash : uint64) : outcome value :=
  n ← reflect_ValueOf_Len slice;
  let length := N.of_nat n in
  swap ← reflect_Swapper slice;
  let rule := N.of_nat <$> seq 0 (N.to_nat length) in
  rule ← SortByWeight sort_Sort rule hash;
  sortByRule swap length rule slice.
End public.

(** ** The contract of sort.Sort

    On a [hashed] whose index expressions are all in range, sort.Sort
    returns; it has moved the entries of [sorted] only (through [Swap]), and
    afterwards no later position is [Less] than an earlier one. *)

Definition hashed_wf (h : hashed) : Prop :=
  hashed_length h = length (hashed_sorted h) ∧
  Forall (λ x, (N.to_nat x < length (hashed_weight h))%nat) (hashed_sorted h).

Definition sort_Sort_contract (sort_Sort : hashed → outcome hashed) : Prop :=
  ∀ h, hashed_wf h →
    ∃ h', sort_Sort h = Ok h' ∧
      hashed_length h' = hashed_length h ∧
      hashed_weight h' = hashed_weight h ∧
      hashed_sorted h' ≡ₚ hashed_sorted h ∧
      ∀ i j, (i < j < Len h')%nat → Less h' j i = Ok false.

(** [ranking nodes hash r]: [r] lists every index of [nodes] once, by
    ascending weight. *)
Definition ranking (nodes : list uint64) (hash : uint64) (r : list uint64) : Prop :=
  r ≡ₚ N.of_nat <$> seq 0 (length nodes) ∧
  ∀ a b i j ni nj, (a < b)%nat →
    r !! a = Some i → r !! b = Some j →
    nodes !! N.to_nat i = Some ni → nodes !! N.to_nat j = Some nj →
    weight ni hash ≤ weight nj hash.

(** ** Notions used by the proofs *)

(** The three mixing rounds of [weight], on the already combined input
    (the 64-bit finalizer of MurmurHash3 that the source names). *)
Definition fmix64 (acc : uint64) : uint64 :=
  let acc := N.lxor acc (N.shiftr acc 33) in
  let acc := wrap64 (acc * 0xff51afd7ed558ccd) in
  let acc := N.lxor acc (N.shiftr acc 33) in
  let acc := wrap64 (acc * 0xc4ceb9fe1a85ec53) in
  let acc := N.lxor acc (N.shiftr acc 33) in
  acc.

(** The weight found at position [p] of [h.sorted] (0 out of range). *)
Definition key_at (h : hashed) (p : nat) : N :=
  default 0 (hashed_sorted h !! p ≫= λ x, hashed_weight h !! N.to_nat x).

(** [h'] holds the data of [h], its [sorted] entries rearranged. *)
Definition rearranged (h h' : hashed) : Prop :=
  hashed_wf h' ∧
  hashed_length h' = hashed_length h ∧
  hashed_weight h' = hashed_weight h ∧
  hashed_sorted h' ≡ₚ hashed_sorted h.

(** Positions below [m] are in ascending order of weight. *)
Definition ascending_to (h : hashed) (m : nat) : Prop :=
  ∀ p q, (p < q < m)%nat → key_at h p ≤ key_at h q.

(** [rule] is a permutation of [[0,n)]. *)
Definition is_permutation (n : nat) (rule : list uint64) : Prop :=
  rule ≡ₚ N.of_nat <$> seq 0 n.

(** [rule[x]] as a position (0 out of range). *)
Definition rule_at (rule : list uint64) (x : nat) : nat :=
  N.to_nat (default 0 (rule !! x)).

(** [done[x]] ([false] out of range). *)
Definition is_done (done : list bool) (x : nat) : bool :=
  default false (done !! x).

(** The number of positions not yet marked. *)
Definition pending (done : list bool) : nat :=
  foldr (λ (b : bool) k, if b then k else S k) 0%nat done.

(** A position is settled once it or its successor under [rule] is marked:
    the appliers leave one position of every finished cycle unmarked. *)
Definition settled (rule : list uint64) (done : list bool) (x : nat) : Prop :=
  is_done done x = true ∨ is_done done (rule_at rule x) = true.

(** Marked in [done] and not in [done0]: marked by the walk in progress. *)
Definition newly (done0 done : list bool) (x : nat) : Prop :=
  is_done done x = true ∧ is_done done0 x = false.

(** Invariant of the outer loop of sortByRuleInverse before index [i]:
    settled positions form whole cycles and hold their final element,
    [new[x] = old[rule[x]]]; the others are untouched. *)
Definition inverse_outer_inv {A} (n : nat) (rule : list uint64) (old : list A)
    (i : nat) (done : list bool) (m : list A) : Prop :=
  length done = n ∧ length m = n ∧
  (∀ x, (x < i)%nat → (x < n)%nat → settled rule done x) ∧
  (∀ x, (x < n)%nat → settled rule done x ↔ settled rule done (rule_at rule x)) ∧
  (∀ x, (x < n)%nat → settled rule done x → m !! x = old !! rule_at rule x) ∧
  (∀ x, (x < n)%nat → ¬ settled rule done x → m !! x = old !! x).

(** Invariant of its inner loop at the head of an iteration, walking from
    [i] with [j] the current position; [done0], [m0] are the marks and the
    slice when the walk began. *)
Definition inverse_inner_inv {A} (n : nat) (rule : list uint64) (old : list A)
    (i : nat) (done0 : list bool) (m0 : list A)
    (j : nat) (done : list bool) (m : list A) : Prop :=
  length done = n ∧ length m = n ∧ (j < n)%nat ∧
  (∀ x, is_done done0 x = true → is_done done x = true) ∧
  ¬ settled rule done0 j ∧ is_done done j = false ∧
  (∀ x, (x < n)%nat → newly done0 done x →
     m !! x = old !! rule_at rule x ∧
     (rule_at rule x = j ∨ is_done done (rule_at rule x) = true)) ∧
  m !! j = old !! i ∧
  (∀ x, (x < n)%nat → x ≠ j →
     is_done done0 x = true ∨ is_done done x = false → m !! x = m0 !! x) ∧
  (j = i ∧ done = done0 ∨ is_done done i = true ∧ j ≠ i) ∧
  (j = i ∨ ∃ p, (p < n)%nat ∧ newly done0 done p ∧ rule_at rule p = j) ∧
  (∀ x, (x < n)%nat → newly done0 done x →
     x = i ∨ ∃ p, (p < n)%nat ∧ newly done0 done p ∧ rule_at rule p = x).

(** Invariant of the outer loop of sortByRuleDirect before index [i]:
    settled positions form whole cycles and hold their final element,
    [new[rule[x]] = old[x]]; the unmarked position of a finished cycle is the
    index the cycle was entered at, which lies below [i]. *)
Definition direct_outer_inv {A} (n : nat) (rule : list uint64) (old : list A)
    (i : nat) (done : list bool) (m : list A) : Prop :=
  length done = n ∧ length m = n ∧
  (∀ x, (x < i)%nat → (x < n)%nat → settled rule done x) ∧
  (∀ x, (x < n)%nat → settled rule done x ↔ settled rule done (rule_at rule x)) ∧
  (∀ x, (x < n)%nat → settled rule done x → m !! rule_at rule x = old !! x) ∧
  (∀ x, (x < n)%nat → ¬ settled rule done x → m !! x = old !! x) ∧
  (∀ x, (i ≤ x)%nat → (x < n)%nat → settled rule done x → is_done done x = true).

(** Invariant of its inner loop at the head of an iteration: position [i]
    holds the element that belongs at [j]. *)
Definition direct_inner_inv {A} (n : nat) (rule : list uint64) (old : list A)
    (i : nat) (done0 : list bool) (m0 : list A)
    (j : nat) (done : list bool) (m : list A) : Prop :=
  length done = n ∧ length m = n ∧ (j < n)%nat ∧
  (∀ x, is_done done0 x = true → is_done done x = true) ∧
  is_done done i = false ∧
  ¬ settled rule done0 j ∧
  is_done done j = false ∧
  (∀ x, (x < n)%nat → newly done0 done x →
     ∃ p, (p < n)%nat ∧ rule_at rule p = x ∧ m !! x = old !! p ∧
          (p = i ∨ newly done0 done p)) ∧
  (∃ p, (p < n)%nat ∧ rule_at rule p = j ∧ m !! i = old !! p ∧
        (p = i ∨ newly done0 done p)) ∧
  (∀ x, (x < n)%nat → x ≠ i →
     is_done done0 x = true ∨ is_done done x = false → m !! x = m0 !! x) ∧
  (∀ x, (x < n)%nat → newly done0 done x →
     rule_at rule x = j ∨ is_done done (rule_at rule x) = true) ∧
  (∀ x, (x < n)%nat → newly done0 done x → ¬ settled rule done0 x) ∧
  (is_done done (rule_at rule i) = true ∨ j = rule_at rule i).

(** ** Reordering through a new array, in the words of the specification

    "Build a new array new[i] = old[rule[i]] (direct) / new[rule[i]] = old[i]
    (inverse), then copy it back."  The new array of the inverse form starts
    as a copy of [old]; a permutation overwrites every slot of it. *)

Definition rebuild_direct {A} (old : list A) (rule : list uint64)
    : outcome (list A) :=
  for_each (λ ri, index old (N.to_nat ri)) rule.

Fixpoint rebuild_inverse_from {A} (old : list A) (rule : list uint64)
    (i : nat) (new : list A) : outcome (list A) :=
  match rule with
  | [] => Ok new
  | ri :: rule =>
      x ← index old i;
      new ← store new (N.to_nat ri) x;
      rebuild_inverse_from old rule (S i) new
  end.

Definition rebuild_inverse {A} (old : list A) (rule : list uint64)
    : outcome (list A) :=
  rebuild_inverse_from old rule 0 old.

(** Two runs end the same way, with results related by [R]. *)
Definition outcome_rel {A B} (R : A → B → Prop)
    (o1 : outcome A) (o2 : outcome B) : Prop :=
  match o1, o2 with
  | Ok a, Ok b => R a b
  | Panic, Panic => True
  | OutOfFuel, OutOfFuel => True
  | _, _ => False
  end.

(** ** Slices as values *)

(** The length of a slice, [None] for a value that is not a slice. *)
Definition slice_length (v : value) : option nat :=
  match v with
  | slice_int s => Some (length s)
  | slice_string s => Some (length s)
  | slice_other s => Some (length s)
  | _ => None
  end.

(** [rebuild_direct] on the elements of a slice: [new[i] = old[pos[i]]]. *)
Definition value_rebuild (v : value) (pos : list uint64) : outcome value :=
  match v with
  | slice_int s => s ← rebuild_direct s pos; Ok (slice_int s)
  | slice_string s => s ← rebuild_direct s pos; Ok (slice_string s)
  | slice_other s => s ← rebuild_direct s pos; Ok (slice_other s)
  | _ => Panic
  end.

(** The positions sortByRule moves the elements of an [n]-element slice to:
    its run on the slice [[0, 1, ..., n-1]]. *)
Definition sortByRule_positions (n : nat) (rule : list uint64)
    : outcome (list uint64) :=
  sortByRule slice_swapper (N.of_nat n) rule (N.of_nat <$> seq 0 n).

(** A stand-in for the digest where a ranking is evaluated on elements that
    bring their own hash. *)
Definition zero_Sum128 (key : list byte) : uint64 * uint64 := (0, 0).

(** A slice of elements that implement [Hasher], each returning its own
    number. *)
Definition hashers (ids : list uint64) : value :=
  slice_other ((λ x, mk_object x (Some x)) <$> ids).

(** ** Further notions *)

(** The node identifiers in the order SortByWeight ranks them: what a caller
    gets from [nodes[r[0]]], [nodes[r[1]]], ... *)
Definition ranked (sort_Sort : hashed → outcome hashed)
    (nodes : list uint64) (hash : uint64) : outcome (list uint64) :=
  r ← SortByWeight sort_Sort nodes hash;
  rebuild_direct nodes r.

(** Ascending weight for a key seed. *)
Definition by_weight (hash : uint64) (a b : uint64) : Prop :=
  weight a hash ≤ weight b hash.

(** sort.Sort as the Go releases from 1.19 on run it on at most 12 elements:
    insertionSort alone. *)
Definition insertion_Sort (data : hashed) : outcome hashed :=
  insertionSort data 0 (Len data).

(** A slice SortSliceByValue can hash: [[]int], [[]string], or a slice all
    of whose elements implement [Hasher]. *)
Definition hashable (v : value) : Prop :=
  match v with
  | slice_int _ | slice_string _ => True
  | slice_other s => Forall (λ x, is_Some (object_Hash x)) s
  | _ => False
  end.

(** [v'] is a slice of the type of [v] holding the elements of [v] in some
    order. *)
Definition same_elements (v v' : value) : Prop :=
  match v, v' with
  | slice_int s, slice_int s' => s' ≡ₚ s
  | slice_string s, slice_string s' => s' ≡ₚ s
  | slice_other s, slice_other s' => s' ≡ₚ s
  | _, _ => False
  end.

(** ** Library calls of the other revisions

    [hash/fnv]: [fnv.New64()] is the 64-bit FNV-1 hash; [Write] multiplies
    by the prime and then xors the byte in, for every byte in turn, and
    [Sum64] returns the state. *)

Definition fnv_offset64 : uint64 := 14695981039346656037.
Definition fnv_prime64 : uint64 := 1099511628211.

Definition fnv_Sum64 (data : list byte) : uint64 :=
  fold_left (λ h c, N.lxor (wrap64 (h * fnv_prime64)) (Byte.to_N c))
    data fnv_offset64.

(** [[]byte(s)] *)
Definition bytes_of (s : string) : list byte := String.list_byte_of_string s.

(** The eight bytes of [v], most significant first. *)
Definition BigEndian_bytes (v : uint64) : list byte :=
  (λ k, default "000"%byte (Byte.of_N (N.shiftr v (8 * (7 - N.of_nat k)) mod 256)))
    <$> seq 0 8.

(** [binary.BigEndian.PutUint64(b, v)]: panics on fewer than eight bytes. *)
Definition BigEndian_PutUint64 (b : list byte) (v : uint64) : outcome (list byte) :=
  if decide (8 ≤ length b)%nat then Ok (BigEndian_bytes v ++ drop 8 b) else Panic.

(** [uint64(x)] for an [int] *)
Definition uint64_of_int (x : Z) : uint64 := Z.to_N (x mod 2 ^ 64).

(** ** The revision with the modulus [m64] and FNV hashing

    The first file of src/unnamed/part_001 (its lines 1-138) with the helpers
    of its test file (src/unnamed/part_000, lines 426-438).  hashed, its
    methods and sortByRule are those of hrw.go, line for line. *)

Module fnv_revision.
Definition m64 : uint64 := 18446744073709551615.

Definition weight (x y : uint64) : uint64 :=
  let acc := N.lxor x y in
  let acc := N.lxor acc (N.shiftr acc 33) in
  let acc := wrap64 (acc * 0xff51afd7ed558ccd) mod m64 in
  let acc := N.lxor acc (N.shiftr acc 33) in
  let acc := wrap64 (acc * 0xc4ceb9fe1a85ec53) mod m64 in
  let acc := N.lxor acc (N.shiftr acc 33) in
  acc.

Fixpoint SortByWeight_fill (hash : uint64) (i : nat) (nodes : list uint64)
    (h : hashed) : hashed :=
  match nodes with
  | [] => h
  | node :: nodes =>
      SortByWeight_fill hash (S i) nodes
        (mk_hashed (hashed_length h)
           (hashed_sorted h ++ [N.of_nat i])
           (hashed_weight h ++ [weight node hash]))
  end.

Definition SortByWeight (sort_Sort : hashed → outcome hashed)
    (nodes : list uint64) (hash : uint64) : outcome (list uint64) :=
  let l := length nodes in
  let h := mk_hashed l [] [] in
  let h := SortByWeight_fill hash 0 nodes h in
  h ← sort_Sort h;
  Ok (hashed_sorted h).

(** [func hash(key []byte) uint64] of the tests *)
Definition hash (key : list byte) : uint64 :=
  N.lxor (N.shiftr (fnv_Sum64 key) 1) m64.

(** [func (h hashString) Hash() uint64] of the tests *)
Definition hashString_Hash (h : string) : uint64 :=
  N.shiftr (fnv_Sum64 (bytes_of h)) 1 mod m64.

Definition SortSliceByValue_rule (slice : value) (hash : uint64)
    : outcome (option (list uint64)) :=
  match slice with
  | slice_int s =>
      Ok (Some ((λ x, weight hash (fnv_Sum64 (bytes_of (strconv_Itoa x)))) <$> s))
  | slice_string s =>
      Ok (Some ((λ x, weight hash (fnv_Sum64 (bytes_of x))) <$> s))
  | slice_other s =>
      first ← index s 0;
      match object_Hash first with
      | None => Ok None
      | Some _ =>
          rule ← for_each (λ x, h ← assert_Hasher x; Ok (weight hash h)) s;
          Ok (Some rule)
      end
  | _ => Panic
  end.

Definition SortSliceByValue (sort_Sort : hashed → outcome hashed)
    (slice : value) (hash : uint64) : outcome (option error * value) :=
  k ← reflect_TypeOf_Kind slice;
  if decide (k ≠ reflect.Slice) then Ok (Some (errors_New "must be slice"), slice)
  else
    swap ← reflect_Swapper slice;
    length ← reflect_ValueOf_Len slice;
    if decide (length = 0%nat) then Ok (None, slice)
    else
      rule ← SortSliceByValue_rule slice hash;
      match rule with
      | None => Ok (Some (errors_New "unknown type"), slice)
      | Some rule =>
          rule ← SortByWeight sort_Sort rule hash;
          slice ← sortByRule swap (N.of_nat length) rule slice;
          Ok (None, slice)
      end.

Definition SortSliceByIndex (sort_Sort : hashed → outcome hashed)
    (slice : value) (hash : uint64) : outcome value :=
  n ← reflect_ValueOf_Len slice;
  let length := N.of_nat n in
  swap ← reflect_Swapper slice;
  let rule := N.of_nat <$> seq 0 (N.to_nat length) in
  rule ← SortByWeight sort_Sort rule hash;
  sortByRule swap length rule slice.

(** A [[]hashString]: elements that implement [Hasher] through
    [hashString_Hash]; the element is kept as the number of its bytes read
    in base 256. *)
Definition hashStrings (l : list string) : value :=
  slice_other
    ((λ s, mk_object (fold_left (λ a c, a * 256 + Byte.to_N c) (bytes_of s) 0)
                     (Some (hashString_Hash s))) <$> l).

(** [var testKey] of the tests *)
Definition testKey : list byte := bytes_of "Golang simple HRW implementation".
End fnv_revision.

(** ** The revision that reorders with sortByRuleInverse

    The second file of src/unnamed/part_001 (its lines 139-285).  weight,
    hashed, its methods and SortByWeight are those of hrw.go, line for line;
    SortSliceByValue returns nothing, so the result is the argument as the
    call leaves it. *)

Module inverse_revision.
Section public.
Variable sort_Sort : hashed → outcome hashed.

(** [murmur3.Sum64] *)
Variable murmur3_Sum64 : list byte → uint64.

(** Hash (lines 180-182) *)
Definition Hash (key : list byte) : uint64 := murmur3_Sum64 key.

(** The [[]int] case of the type switch (lines 221-228): [key] is
    allocated once and overwritten for every element; [h.Sum64()-1] wraps
    around at zero. *)
Fixpoint SortSliceByValue_ints (hash : uint64) (key : list byte) (slice : list Z)
    (rule : list uint64) : outcome (list uint64) :=
  match slice with
  | [] => Ok rule
  | x :: slice =>
      key ← BigEndian_PutUint64 key (uint64_of_int x);
      let h := fnv_Sum64 key in
      SortSliceByValue_ints hash key slice
        (rule ++ [weight (wrap64 (h + (2 ^ 64 - 1))) hash])
  end.

(** The type switch (lines 220-243): the rule, or [None] where the code
    returns. *)
Definition SortSliceByValue_rule (slice : value) (hash : uint64)
    : outcome (option (list uint64)) :=
  match slice with
  | slice_int s =>
      let key := replicate 16 "000"%byte in
      rule ← SortSliceByValue_ints hash key s [];
      Ok (Some rule)
  | slice_string s =>
      Ok (Some ((λ x, weight hash (Hash (bytes_of x))) <$> s))
  | slice_other s =>
      first ← index s 0;
      match object_Hash first with
      | None => Ok None
      | Some _ =>
          rule ← for_each (λ x, h ← assert_Hasher x; Ok (weight hash h)) s;
          Ok (Some rule)
      end
  | _ => Panic
  end.

(** SortSliceByValue (lines 203-247) *)
Definition SortSliceByValue (slice : value) (hash : uint64) : outcome value :=
  k ← reflect_TypeOf_Kind slice;
  if decide (k ≠ reflect.Slice) then Ok slice
  else
    swap ← reflect_Swapper slice;
    length ← reflect_ValueOf_Len slice;
    if decide (length = 0%nat) then Ok slice
    else
      rule ← SortSliceByValue_rule slice hash;
      match rule with
      | None => Ok slice
      | Some rule =>
          rule ← SortByWeight sort_Sort rule hash;
          sortByRuleInverse swap (N.of_nat length) rule slice
      end.

(** SortSliceByIndex (lines 249-258) *)
Definition SortSliceByIndex (slice : value) (hash : uint64) : outcome value :=
  n ← reflect_ValueOf_Len slice;
  let length := N.of_nat n in
  swap ← reflect_Swapper slice;
  let rule := N.of_nat <$> seq 0 (N.to_nat length) in
  rule ← SortByWeight sort_Sort rule hash;
  sortByRuleInverse swap length rule slice.
End public.
End inverse_revision.

(** The weight that the type switch of the revision gives an element. *)
Definition int_weight (hash : uint64) (x : Z) : uint64 :=
  let key := BigEndian_bytes (uint64_of_int x) ++ replicate 8 "000"%byte in
  weight (wrap64 (fnv_Sum64 key + (2 ^ 64 - 1))) hash.

(** Arguments SortSliceByValue has no rule for: a value that is not a slice,
    and a slice of some other element type whose first element does not
    implement [Hasher]. *)
Definition unsupported (v : value) : Prop :=
  match v with
  | non_slice k _ => k ≠ reflect.Slice
  | slice_other (first :: _) => object_Hash first = None
  | _ => False
  end.

(** * Properties *)

(** ** The weight function *)

Lemma weight_fmix64 x y : weight x y = fmix64 (N.lxor x y).
Proof. reflexivity. Qed.

Lemma wrap64_lt x : wrap64 x < 2 ^ 64.
Proof. unfold wrap64. apply N.mod_lt. discriminate. Qed.

Lemma wrap64_small x : x < 2 ^ 64 → wrap64 x = x.
Proof. intros Hx. unfold wrap64. by apply N.mod_small. Qed.

Lemma lxor_lt_pow2 a b n : a < 2 ^ n → b < 2 ^ n → N.lxor a b < 2 ^ n.
Proof.
  intros Ha Hb.
  destruct (N.eq_dec (N.lxor a b) 0) as [->|Hne].
  { apply N.neq_0_lt_0, N.pow_nonzero. discriminate. }
  apply N.log2_lt_pow2; [lia|].
  eapply N.le_lt_trans; [apply N.log2_lxor|].
  destruct (N.eq_dec a 0) as [->|Ha0], (N.eq_dec b 0) as [->|Hb0].
  - by rewrite N.lxor_0_l in Hne.
  - simpl. rewrite N.max_r by lia. apply N.log2_lt_pow2; lia.
  - rewrite N.max_l by (simpl; lia). apply N.log2_lt_pow2; lia.
  - apply N.max_lub_lt; apply N.log2_lt_pow2; lia.
Qed.

Lemma shiftr_lt_pow2 a k n : a < 2 ^ n → N.shiftr a k < 2 ^ n.
Proof.
  intros Ha. rewrite N.shiftr_div_pow2.
  eapply N.le_lt_trans; [|exact Ha].
  apply N.Div0.div_le_upper_bound.
  assert (0 < 2 ^ k) by (apply N.neq_0_lt_0, N.pow_nonzero; discriminate).
  nia.
Qed.

Lemma xorshift_lt a : a < 2 ^ 64 → N.lxor a (N.shiftr a 33) < 2 ^ 64.
Proof. intros Ha. apply lxor_lt_pow2; [done|by apply shiftr_lt_pow2]. Qed.

Lemma xorshift_zero a : N.lxor a (N.shiftr a 33) = 0 → a = 0.
Proof.
  intros Hx. apply N.lxor_eq in Hx.
  rewrite N.shiftr_div_pow2 in Hx.
  destruct (N.eq_dec a 0) as [|Hne]; [done|].
  assert (a `div` 2 ^ 33 < a) by (apply N.div_lt; [lia|done]).
  lia.
Qed.

Lemma wrap64_mul_odd_zero a c :
  a < 2 ^ 64 → N.gcd (2 ^ 64) c = 1 → wrap64 (a * c) = 0 → a = 0.
Proof.
  intros Ha Hc Hz. unfold wrap64 in Hz.
  apply N.Lcm0.mod_divide in Hz.
  rewrite N.mul_comm in Hz.
  apply N.gauss in Hz; [|done].
  destruct Hz as [k ->].
  destruct k; [done|]. lia.
Qed.

(** The mixing rounds send only 0 to 0. *)
Lemma fmix64_zero x : x < 2 ^ 64 → fmix64 x = 0 → x = 0.
Proof.
  intros Hx Hz. unfold fmix64 in Hz.
  apply xorshift_zero in Hz.
  apply wrap64_mul_odd_zero in Hz; [|apply xorshift_lt, wrap64_lt|by vm_compute].
  apply xorshift_zero in Hz.
  apply wrap64_mul_odd_zero in Hz; [|by apply xorshift_lt|by vm_compute].
  by apply xorshift_zero in Hz.
Qed.

Lemma weight_lt x y : weight x y < 2 ^ 64.
Proof. rewrite weight_fmix64. unfold fmix64. apply xorshift_lt, wrap64_lt. Qed.

Lemma weight_zero_iff x y :
  x < 2 ^ 64 → y < 2 ^ 64 → weight x y = 0 ↔ x = y.
Proof.
  intros Hx Hy. rewrite weight_fmix64. split.
  - intros Hz. apply fmix64_zero in Hz; [|by apply lxor_lt_pow2].
    by apply N.lxor_eq.
  - intros ->. by rewrite N.lxor_nilpotent.
Qed.

(** C6. The weight function is commutative in its two arguments:
    [weight x y = weight y x] for every pair of 64-bit unsigned integers. *)
Theorem weight_comm (x y : uint64) : weight x y = weight y x.
Proof. unfold weight. by rewrite (N.lxor_comm x y). Qed.

(** ** The outcome monad *)

Lemma bind_Ok {A B} (f : A → outcome B) (m : outcome A) (b : B) :
  m ≫= f = Ok b ↔ ∃ a, m = Ok a ∧ f a = Ok b.
Proof.
  destruct m as [a| |]; simpl; split; try done.
  - eauto.
  - by intros (a' & [= <-] & ?).
  - by intros (a' & ? & ?).
  - by intros (a' & ? & ?).
Qed.

Lemma bind_Ok_l {A B} (f : A → outcome B) (a : A) : Ok a ≫= f = f a.
Proof. reflexivity. Qed.

Lemma index_Ok {A} (s : list A) i x : index s i = Ok x ↔ s !! i = Some x.
Proof. unfold index. destruct (s !! i); naive_solver. Qed.

Lemma index_lookup {A} (s : list A) i x : s !! i = Some x → index s i = Ok x.
Proof. by intros ?%index_Ok. Qed.

Lemma store_Ok {A} (s : list A) i x :
  (i < length s)%nat → store s i x = Ok (<[i:=x]> s).
Proof. intros Hi. unfold store. by rewrite decide_True. Qed.

Lemma exchange_Ok {A} (s : list A) i j a b :
  s !! i = Some a → s !! j = Some b →
  exchange s i j = Ok (<[i:=b]> (<[j:=a]> s)).
Proof.
  intros Hi Hj. unfold exchange.
  by rewrite (index_lookup _ _ _ Hi), (index_lookup _ _ _ Hj).
Qed.

(** ** SortByWeight *)

Lemma hashed_Less_Ok h i j si sj wi wj :
  hashed_sorted h !! i = Some si → hashed_weight h !! N.to_nat si = Some wi →
  hashed_sorted h !! j = Some sj → hashed_weight h !! N.to_nat sj = Some wj →
  hashed_Less h i j = Ok (wi <? wj).
Proof.
  intros H1 H2 H3 H4. unfold hashed_Less.
  rewrite (index_lookup _ _ _ H1). simpl.
  rewrite (index_lookup _ _ _ H2). simpl.
  rewrite (index_lookup _ _ _ H3). simpl.
  by rewrite (index_lookup _ _ _ H4).
Qed.

Lemma SortByWeight_fill_eq hash i nodes h :
  SortByWeight_fill hash i nodes h =
  mk_hashed (hashed_length h)
    (hashed_sorted h ++ (N.of_nat <$> seq i (length nodes)))
    (hashed_weight h ++ ((λ node, weight node hash) <$> nodes)).
Proof.
  revert i h. induction nodes as [|node nodes IH]; intros i h; simpl.
  - rewrite !app_nil_r. by destruct h.
  - rewrite IH. simpl. by rewrite <- !app_assoc.
Qed.

Lemma SortByWeight_fill_wf hash nodes :
  hashed_wf (SortByWeight_fill hash 0 nodes (mk_hashed (length nodes) [] [])).
Proof.
  rewrite SortByWeight_fill_eq. split; simpl.
  - by rewrite length_fmap, length_seq.
  - rewrite length_fmap. apply Forall_fmap, list.Forall_forall.
    intros k Hk%elem_of_seq. simpl. lia.
Qed.

Lemma SortByWeight_ranking sort_Sort nodes hash :
  sort_Sort_contract sort_Sort →
  ∃ r, SortByWeight sort_Sort nodes hash = Ok r ∧ ranking nodes hash r.
Proof.
  intros Hsort. unfold SortByWeight.
  destruct (Hsort _ (SortByWeight_fill_wf hash nodes))
    as (h' & -> & Hlen & Hw & Hperm & Hless).
  rewrite SortByWeight_fill_eq in Hlen, Hw, Hperm. simpl in Hlen, Hw, Hperm.
  exists (hashed_sorted h'). split; [done|]. split; [done|].
  intros a b i j ni nj Hab Ha Hb Hi Hj.
  assert (b < Len h')%nat as Hblt.
  { simpl. unfold hashed_Len. rewrite Hlen.
    apply lookup_lt_Some in Hb. apply Permutation_length in Hperm.
    rewrite length_fmap, length_seq in Hperm. lia. }
  specialize (Hless a b (conj Hab Hblt)). simpl in Hless.
  erewrite (hashed_Less_Ok h' b a j i) in Hless; try done.
  - injection Hless as Hless. by apply N.ltb_ge in Hless.
  - rewrite Hw, list_lookup_fmap, Hj. done.
  - rewrite Hw, list_lookup_fmap, Hi. done.
Qed.

(** ** The short-input sorter meets the contract of sort.Sort *)

Lemma rearranged_refl h : hashed_wf h → rearranged h h.
Proof. by intros ?. Qed.

Lemma rearranged_trans h1 h2 h3 :
  rearranged h1 h2 → rearranged h2 h3 → rearranged h1 h3.
Proof.
  intros (_ & Hl & Hw & Hp) (Hwf & Hl' & Hw' & Hp').
  split; [done|]. split; [congruence|]. split; [congruence|].
  by rewrite Hp'.
Qed.

Lemma hashed_wf_lookup h p :
  hashed_wf h → (p < hashed_length h)%nat →
  ∃ x v, hashed_sorted h !! p = Some x ∧ hashed_weight h !! N.to_nat x = Some v
         ∧ key_at h p = v.
Proof.
  intros [Hlen Hall] Hp. rewrite Hlen in Hp.
  destruct (lookup_lt_is_Some_2 _ _ Hp) as [x Hx].
  rewrite Forall_lookup in Hall. specialize (Hall _ _ Hx).
  destruct (lookup_lt_is_Some_2 _ _ Hall) as [v Hv].
  exists x, v. unfold key_at. rewrite Hx. simpl. by rewrite Hv.
Qed.

Lemma Less_key_at (h : hashed) i j :
  hashed_wf h → (i < Len h)%nat → (j < Len h)%nat →
  Less h i j = Ok (key_at h i <? key_at h j).
Proof.
  intros Hwf Hi Hj.
  destruct (hashed_wf_lookup h i Hwf Hi) as (si & wi & ? & ? & ->).
  destruct (hashed_wf_lookup h j Hwf Hj) as (sj & wj & ? & ? & ->).
  by apply hashed_Less_Ok with si sj.
Qed.

Lemma Swap_key_at (h : hashed) i j :
  hashed_wf h → (i < Len h)%nat → (j < Len h)%nat →
  ∃ h', Swap h i j = Ok h' ∧ rearranged h h' ∧
    ∀ p, key_at h' p =
         if decide (p = i) then key_at h j
         else if decide (p = j) then key_at h i
         else key_at h p.
Proof.
  intros Hwf Hi Hj.
  destruct (hashed_wf_lookup h i Hwf Hi) as (si & wi & Hsi & Hwi & Hki).
  destruct (hashed_wf_lookup h j Hwf Hj) as (sj & wj & Hsj & Hwj & Hkj).
  destruct Hwf as [Hlen Hall]. simpl in Hi, Hj. unfold hashed_Len in Hi, Hj.
  simpl. unfold hashed_Swap. rewrite (exchange_Ok _ _ _ _ _ Hsi Hsj). simpl.
  eexists. split; [done|]. split.
  - split; [|split; [done|split; [done|]]].
    + split; simpl; [by rewrite !length_insert|].
      apply Forall_insert; [apply Forall_insert|]; [done| |].
      * rewrite Forall_lookup in Hall. by apply (Hall _ _ Hsi).
      * rewrite Forall_lookup in Hall. by apply (Hall _ _ Hsj).
    + simpl. apply Permutation_inj. split; [by rewrite !length_insert|].
      exists (λ p, if decide (p = i) then j else if decide (p = j) then i else p).
      split.
      * intros p q. repeat case_decide; lia.
      * intros p. destruct (decide (p = i)) as [->|Hpi].
        { rewrite list_lookup_insert_eq by (rewrite length_insert; lia). done. }
        rewrite list_lookup_insert_ne by done.
        destruct (decide (p = j)) as [->|Hpj].
        { rewrite list_lookup_insert_eq by lia. done. }
        by rewrite list_lookup_insert_ne.
  - intros p. unfold key_at at 1. simpl.
    destruct (decide (p = i)) as [->|Hpi].
    { rewrite list_lookup_insert_eq by (rewrite length_insert; lia). simpl.
      by rewrite Hwj. }
    rewrite list_lookup_insert_ne by done.
    destruct (decide (p = j)) as [->|Hpj].
    { rewrite list_lookup_insert_eq by lia. simpl. by rewrite Hwi. }
    by rewrite list_lookup_insert_ne.
Qed.

Lemma insertionSort_inner_spec (h : hashed) i j : ∀ h1,
  rearranged h h1 → (j ≤ i < Len h)%nat →
  (∀ p q, (p < q ≤ i)%nat → p ≠ j → q ≠ j → key_at h1 p ≤ key_at h1 q) →
  (∀ q, (j < q ≤ i)%nat → key_at h1 j < key_at h1 q) →
  ∃ h2, insertionSort_inner h1 0 j = Ok h2 ∧ rearranged h h2 ∧
        ascending_to h2 (S i).
Proof.
  induction j as [|j IH]; intros h1 Hre Hji Hother Hsunk;
    cbn [insertionSort_inner].
  - exists h1. split; [done|]. split; [done|].
    intros p q Hpq. destruct (decide (p = 0%nat)) as [->|Hp].
    + apply N.lt_le_incl, Hsunk. lia.
    + apply Hother; lia.
  - assert (Len h1 = Len h) as Hlen by (simpl; unfold hashed_Len; apply Hre).
    assert (hashed_wf h1) as Hwf1 by apply Hre.
    rewrite decide_True by lia.
    rewrite (Less_key_at h1 (S j) j) by (done || lia). simpl.
    destruct (key_at h1 (S j) <? key_at h1 j) eqn:Hlt.
    + apply N.ltb_lt in Hlt.
      destruct (Swap_key_at h1 (S j) j) as (h1' & Hsw & Hre' & Hkey);
        [done|lia|lia|].
      simpl in Hsw. rewrite Hsw. simpl.
      apply IH.
      * by eapply rearranged_trans.
      * lia.
      * intros p q Hpq Hp Hq. rewrite !Hkey.
        repeat case_decide; subst; try lia; try (apply Hother; lia).
      * intros q Hq. rewrite !Hkey.
        repeat case_decide; subst; try lia. apply Hsunk. lia.
    + apply N.ltb_ge in Hlt.
      exists h1. split; [done|]. split; [done|].
      intros p q Hpq.
      destruct (decide (p = S j)) as [->|Hp].
      { apply N.lt_le_incl, Hsunk. lia. }
      destruct (decide (q = S j)) as [->|Hq]; [|apply Hother; lia].
      destruct (decide (p = j)) as [->|Hpj]; [done|].
      etrans; [|exact Hlt]. apply Hother; lia.
Qed.

Lemma insertionSort_outer_spec (h : hashed) count : ∀ i h1,
  rearranged h h1 → (i + count = Len h)%nat → (0 < i)%nat →
  ascending_to h1 i →
  ∃ h2, insertionSort_outer h1 0 i count = Ok h2 ∧ rearranged h h2 ∧
        ascending_to h2 (Len h).
Proof.
  induction count as [|count IH]; intros i h1 Hre Hcount Hi Hasc;
    cbn [insertionSort_outer].
  - exists h1. split; [done|]. split; [done|].
    by replace (Len h) with i by lia.
  - destruct (insertionSort_inner_spec h i i h1) as (h2 & -> & Hre2 & Hasc2);
      [done|lia| |intros; lia|].
    { intros p q Hpq Hp Hq. apply Hasc. lia. }
    simpl. apply IH; [done|lia|lia|done].
Qed.

Lemma gap6_pass_spec (h : hashed) count : ∀ i h1,
  rearranged h h1 → ((0 < count)%nat → (i + count ≤ Len h)%nat) →
  ∃ h2, gap6_pass h1 i count = Ok h2 ∧ rearranged h h2.
Proof.
  induction count as [|count IH]; intros i h1 Hre Hcount; cbn [gap6_pass].
  - by exists h1.
  - assert (Len h1 = Len h) as Hlen by (simpl; unfold hashed_Len; apply Hre).
    assert (hashed_wf h1) as Hwf1 by apply Hre.
    specialize (Hcount ltac:(lia)).
    rewrite (Less_key_at h1 i (i - 6)) by (done || lia). simpl.
    destruct (key_at h1 i <? key_at h1 (i - 6)).
    + destruct (Swap_key_at h1 i (i - 6)) as (h1' & Hsw & Hre' & _);
        [done|lia|lia|].
      simpl in Hsw. rewrite Hsw. simpl. apply IH; [|lia].
      by eapply rearranged_trans.
    + simpl. apply IH; [done|lia].
Qed.

Lemma insertionSort_spec (h h1 : hashed) :
  rearranged h h1 → (0 < Len h)%nat →
  ∃ h2, insertionSort h1 0 (Len h) = Ok h2 ∧ rearranged h h2 ∧
        ascending_to h2 (Len h).
Proof.
  intros Hre Hn. unfold insertionSort.
  apply insertionSort_outer_spec; [done|lia|lia|].
  intros p q Hpq. lia.
Qed.

Lemma ascending_to_Less (h : hashed) :
  hashed_wf h → ascending_to h (Len h) →
  ∀ i j, (i < j < Len h)%nat → Less h j i = Ok false.
Proof.
  intros Hwf Hasc i j Hij.
  rewrite Less_key_at by (done || lia). f_equal.
  apply N.ltb_ge, Hasc. lia.
Qed.

Lemma short_Sort_contract : sort_Sort_contract short_Sort.
Proof.
  intros h Hwf. unfold short_Sort.
  assert (∀ h2, rearranged h h2 → ascending_to h2 (Len h) →
    ∃ h', Ok h2 = Ok h' ∧ hashed_length h' = hashed_length h ∧
      hashed_weight h' = hashed_weight h ∧
      hashed_sorted h' ≡ₚ hashed_sorted h ∧
      ∀ i j, (i < j < Len h')%nat → Less h' j i = Ok false) as Hfin.
  { intros h2 (Hwf2 & Hl & Hw & Hp) Hasc. exists h2.
    split; [done|]. split; [done|]. split; [done|]. split; [done|].
    apply ascending_to_Less; [done|].
    by replace (Len h2) with (Len h) by (simpl; unfold hashed_Len; lia). }
  case_decide as Hn.
  - destruct (gap6_pass_spec h (Len h - 6) 6 h) as (h1 & -> & Hre1);
      [by apply rearranged_refl| |].
    { simpl in *. unfold hashed_Len in *. lia. }
    rewrite bind_Ok_l.
    destruct (insertionSort_spec h h1) as (h2 & -> & Hre2 & Hasc2);
      [done|lia|by apply Hfin].
  - apply Hfin; [by apply rearranged_refl|].
    intros p q Hpq. lia.
Qed.

(** ** Marks, exchanges and permutations *)

Lemma index_is_done done x :
  (x < length done)%nat → index done x = Ok (is_done done x).
Proof.
  intros Hx. destruct (lookup_lt_is_Some_2 _ _ Hx) as [b Hb].
  unfold is_done. rewrite (index_lookup _ _ _ Hb). by rewrite Hb.
Qed.

Lemma is_done_insert done j x :
  (j < length done)%nat →
  is_done (<[j:=true]> done) x = if decide (x = j) then true else is_done done x.
Proof.
  intros Hj. unfold is_done. case_decide as Hx.
  - subst. by rewrite list_lookup_insert_eq.
  - by rewrite list_lookup_insert_ne.
Qed.

Lemma is_done_replicate n x : is_done (replicate n false) x = false.
Proof.
  unfold is_done. destruct (replicate n false !! x) as [b|] eqn:Hb; [|done].
  by apply lookup_replicate in Hb as [-> _].
Qed.

Lemma pending_le done : (pending done ≤ length done)%nat.
Proof. induction done as [|[] done IH]; simpl; lia. Qed.

Lemma pending_insert done j :
  (j < length done)%nat → is_done done j = false →
  (pending (<[j:=true]> done) < pending done)%nat.
Proof.
  unfold pending, is_done. revert j.
  induction done as [|b done IH]; intros j Hj Hb; simpl in *; [lia|].
  destruct j as [|j]; simpl in *.
  - subst b. lia.
  - specialize (IH j ltac:(lia) Hb). destruct b; lia.
Qed.

Lemma exchange_lookup {A} (m : list A) i j :
  (i < length m)%nat → (j < length m)%nat →
  ∃ m', exchange m i j = Ok m' ∧ length m' = length m ∧
    ∀ x, m' !! x = if decide (x = i) then m !! j
                   else if decide (x = j) then m !! i
                   else m !! x.
Proof.
  intros Hi Hj.
  destruct (lookup_lt_is_Some_2 _ _ Hi) as [a Ha].
  destruct (lookup_lt_is_Some_2 _ _ Hj) as [b Hb].
  rewrite (exchange_Ok _ _ _ _ _ Ha Hb). eexists. split; [done|].
  split; [by rewrite !length_insert|].
  intros x. case_decide as Hxi.
  - subst. rewrite list_lookup_insert_eq by (rewrite length_insert; lia). done.
  - rewrite list_lookup_insert_ne by done. case_decide as Hxj.
    + subst. by rewrite list_lookup_insert_eq.
    + by rewrite list_lookup_insert_ne.
Qed.

Lemma exchange_same {A} (m : list A) i :
  (i < length m)%nat → exchange m i i = Ok m.
Proof.
  intros Hi. destruct (lookup_lt_is_Some_2 _ _ Hi) as [a Ha].
  rewrite (exchange_Ok _ _ _ _ _ Ha Ha).
  by rewrite list_insert_insert_eq, list_insert_id.
Qed.

Section permutation.
Variables (n : nat) (rule : list N).
Hypothesis Hrule : is_permutation n rule.

Lemma is_permutation_length : length rule = n.
Proof.
  unfold is_permutation in Hrule. apply Permutation_length in Hrule.
  by rewrite length_fmap, length_seq in Hrule.
Qed.

Lemma is_permutation_lookup x :
  (x < n)%nat →
  rule !! x = Some (N.of_nat (rule_at rule x)) ∧ (rule_at rule x < n)%nat.
Proof.
  intros Hx. rewrite <- is_permutation_length in Hx.
  destruct (lookup_lt_is_Some_2 _ _ Hx) as [v Hv].
  unfold rule_at. rewrite Hv. simpl.
  assert (v ∈ rule) as Hin by (by eapply list_elem_of_lookup_2).
  rewrite Hrule in Hin. apply list_elem_of_fmap in Hin as (k & -> & Hk).
  apply elem_of_seq in Hk. rewrite !Nat2N.id. split; [done|lia].
Qed.

Lemma is_permutation_inj x y :
  (x < n)%nat → (y < n)%nat → rule_at rule x = rule_at rule y → x = y.
Proof.
  intros Hx Hy Heq.
  destruct (is_permutation_lookup x Hx) as [Hlx _].
  destruct (is_permutation_lookup y Hy) as [Hly _].
  rewrite Heq in Hlx.
  assert (NoDup rule) as Hnd.
  { rewrite Hrule. apply NoDup_fmap_2; [|apply NoDup_seq].
    intros a b. lia. }
  by eapply NoDup_lookup.
Qed.

Lemma is_permutation_surj y :
  (y < n)%nat → ∃ x, (x < n)%nat ∧ rule_at rule x = y.
Proof.
  intros Hy.
  assert (N.of_nat y ∈ rule) as Hin.
  { rewrite Hrule. apply list_elem_of_fmap. exists y. split; [done|].
    apply elem_of_seq. lia. }
  apply list_elem_of_lookup in Hin as [x Hx]. exists x.
  assert (x < n)%nat as Hxn.
  { rewrite <- is_permutation_length. by eapply lookup_lt_Some. }
  split; [done|]. unfold rule_at. rewrite Hx. simpl. by rewrite Nat2N.id.
Qed.
End permutation.

(** ** sortByRuleInverse applies [new[x] = old[rule[x]]] *)

Section inverse.
Context {A : Type}.
Variables (n : nat) (rule : list N) (old : list A).
Hypothesis Hrule : is_permutation n rule.

Local Abbreviation r := (rule_at rule).

Local Lemma r_lt x : (x < n)%nat → (r x < n)%nat.
Proof. intros Hx. by apply is_permutation_lookup. Qed.

Local Lemma r_inj x y : (x < n)%nat → (y < n)%nat → r x = r y → x = y.
Proof. by apply is_permutation_inj. Qed.

Lemma inverse_exit i done0 m0 j done m :
  inverse_outer_inv n rule old i done0 m0 →
  ¬ settled rule done0 i →
  inverse_inner_inv n rule old i done0 m0 j done m →
  is_done done (r j) = true →
  inverse_outer_inv n rule old (S i) done m.
Proof.
  intros (_ & _ & O3 & O4 & O5 & O6) Hi
    (Hld & Hlm & Hj & I2 & I3 & I3' & I4 & I5 & I6 & I7 & I8 & I9) Hexit.
  assert (∀ x, settled rule done0 x → settled rule done x) as Hmono.
  { intros x [?|?]; [left|right]; by apply I2. }
  assert (is_done done0 (r j) = false) as HA.
  { destruct (is_done done0 (r j)) eqn:Hd; [|done].
    destruct I3. apply (proj2 (O4 j Hj)). by left. }
  assert (r j = i) as HB.
  { destruct (I9 (r j)) as [?|(p & Hp & [Hp1 _] & Hrp)]; [by apply r_lt|done|done|].
    apply r_inj in Hrp; [|done..]. subst p. congruence. }
  split; [done|]. split; [done|]. split; [|split; [|split]].
  - intros x Hx Hxn. destruct (decide (x = i)) as [->|Hne].
    + destruct I7 as [[-> ->]|[? _]]; [|by left].
      destruct Hi. by right.
    + apply Hmono, O3; [lia|done].
  - intros x Hx. split.
    + intros [Hdx|Hdr]; [|by left].
      destruct (is_done done0 x) eqn:Hd0.
      * apply Hmono, (proj1 (O4 x Hx)). by left.
      * destruct (I4 x Hx (conj Hdx Hd0)) as [_ [Hrx|Hrx]]; [|by left].
        rewrite Hrx. by right.
    + intros [Hdx|Hdr]; [by right|].
      destruct (is_done done0 (r (r x))) eqn:Hd0.
      * apply Hmono, (proj2 (O4 x Hx)), (proj2 (O4 (r x) (r_lt x Hx))).
        by left.
      * destruct (I9 (r (r x))) as [Hrr|(p & Hp & [Hp1 _] & Hrp)];
          [by apply r_lt, r_lt|done| |].
        -- rewrite <- HB in Hrr. apply r_inj in Hrr; [|by apply r_lt|done].
           destruct I8 as [Hji|(p & Hp & [Hp1 _] & Hrp)].
           ++ assert (r x = r j) as Hxj by congruence.
              apply r_inj in Hxj; [|done..]. subst x. by right.
           ++ rewrite <- Hrr in Hrp. apply r_inj in Hrp; [|done..].
              subst p. by left.
        -- apply r_inj in Hrp; [|done|by apply r_lt]. subst p. by right.
  - intros x Hx Hs.
    destruct (is_done done x) eqn:Hdx.
    + destruct (is_done done0 x) eqn:Hd0.
      * rewrite I6; [|done|congruence|by left].
        apply O5; [done|by left].
      * by apply I4.
    + destruct Hs as [?|Hdr]; [congruence|].
      destruct (decide (x = j)) as [->|Hne]; [by rewrite HB|].
      destruct (is_done done0 (r x)) eqn:Hd0.
      * rewrite I6; [|done|done|by right]. apply O5; [done|by right].
      * destruct (I9 (r x)) as [Hrr|(p & Hp & [Hp1 _] & Hrp)];
          [by apply r_lt|done| |].
        -- rewrite <- HB in Hrr. apply r_inj in Hrr; done.
        -- apply r_inj in Hrp; [|done..]. subst p. congruence.
  - intros x Hx Hs.
    assert (is_done done x = false) as Hdx.
    { destruct (is_done done x) eqn:?; [|done]. destruct Hs. by left. }
    assert (x ≠ j) as Hne.
    { intros ->. destruct Hs. by right. }
    rewrite I6; [|done|done|by right].
    apply O6; [done|]. intros Hs0. by apply Hs, Hmono.
Qed.

Lemma inverse_step i done0 m0 j done m m' :
  inverse_outer_inv n rule old i done0 m0 →
  r i ≠ i →
  inverse_inner_inv n rule old i done0 m0 j done m →
  is_done done (r j) = false →
  length m' = length m →
  (∀ x, m' !! x = if decide (x = j) then m !! r j
                  else if decide (x = r j) then m !! j
                  else m !! x) →
  inverse_inner_inv n rule old i done0 m0 (r j) (<[j:=true]> done) m'.
Proof.
  intros (_ & _ & O3 & O4 & O5 & O6) Hfix
    (Hld & Hlm & Hj & I2 & I3 & I3' & I4 & I5 & I6 & I7 & I8 & I9)
    Hcheck Hlm' Hm'.
  assert (∀ x, is_done (<[j:=true]> done) x =
               if decide (x = j) then true else is_done done x) as Hd'.
  { intros x. apply is_done_insert. lia. }
  assert (r j ≠ j) as Hrj.
  { intros Heq. destruct I8 as [->|(p & Hp & [Hp1 _] & Hrp)]; [done|].
    rewrite <- Heq in Hrp. apply r_inj in Hrp; [|done..]. congruence. }
  assert (is_done done0 j = false) as Hj0.
  { destruct (is_done done0 j) eqn:?; [|done]. destruct I3. by left. }
  assert (¬ settled rule done0 (r j)) as Hrj0.
  { intros Hs. by apply I3, (proj2 (O4 j Hj)). }
  assert (∀ x, newly done0 done x → newly done0 (<[j:=true]> done) x) as Hnew.
  { intros x [H1 H2]. split; [|done]. rewrite Hd'. by case_decide. }
  assert (newly done0 (<[j:=true]> done) j) as Hnewj.
  { split; [|done]. rewrite Hd'. by rewrite decide_True. }
  split; [by rewrite length_insert|]. split; [lia|].
  split; [by apply r_lt|]. split; [|split; [done|split; [|split; [|split;
    [|split; [|split; [|split]]]]]]].
  - intros x Hx. rewrite Hd'. case_decide; [done|by apply I2].
  - rewrite Hd'. by rewrite decide_False.
  - intros x Hx [Hx1 Hx2]. rewrite Hd' in Hx1. rewrite Hm'.
    destruct (decide (x = j)) as [->|Hne].
    + split; [|by left].
      rewrite I6; [|by apply r_lt|done|by right].
      apply O6; [by apply r_lt|done].
    + assert (x ≠ r j) as Hne' by congruence.
      rewrite decide_False by done.
      destruct (I4 x Hx (conj Hx1 Hx2)) as [Hmx Hsucc].
      split; [done|]. right. rewrite Hd'. case_decide; [done|].
      by destruct Hsucc.
  - rewrite Hm'. rewrite decide_False by done. by rewrite decide_True.
  - intros x Hx Hne Hcase. rewrite Hm'. rewrite Hd' in Hcase.
    destruct (decide (x = j)) as [->|Hnej].
    + destruct Hcase; congruence.
    + rewrite decide_False by done. by apply I6.
  - right. rewrite Hd'. destruct I7 as [[-> ->]|[Hdi Hji]].
    + by rewrite decide_True.
    + split; [by case_decide|]. congruence.
  - right. exists j. done.
  - intros x Hx [Hx1 Hx2]. rewrite Hd' in Hx1.
    destruct (decide (x = j)) as [->|Hne].
    + destruct I8 as [->|(p & Hp & Hpn & Hrp)]; [by left|].
      right. exists p. auto.
    + destruct (I9 x Hx (conj Hx1 Hx2)) as [->|(p & Hp & Hpn & Hrp)];
        [by left|].
      right. exists p. auto.
Qed.

Lemma inverse_inner_init i done0 m0 :
  inverse_outer_inv n rule old i done0 m0 →
  (i < n)%nat → ¬ settled rule done0 i →
  inverse_inner_inv n rule old i done0 m0 i done0 m0.
Proof.
  intros (Hld & Hlm & O3 & O4 & O5 & O6) Hi Hs.
  assert (is_done done0 i = false) as Hi0.
  { destruct (is_done done0 i) eqn:?; [|done]. destruct Hs. by left. }
  split; [done|]. split; [done|]. split; [done|]. split; [done|].
  split; [done|]. split; [done|].
  split; [|split; [|split; [|split; [|split]]]].
  - intros x Hx [? ?]. congruence.
  - by apply O6.
  - done.
  - by left.
  - by left.
  - intros x Hx [? ?]. congruence.
Qed.

Lemma sortByRuleInverse_inner_spec i done0 m0 fuel : ∀ j done m,
  inverse_outer_inv n rule old i done0 m0 →
  r i ≠ i →
  ¬ settled rule done0 i →
  inverse_inner_inv n rule old i done0 m0 j done m →
  (pending done < fuel)%nat →
  ∃ done' m',
    sortByRuleInverse_inner fuel slice_swapper rule (N.of_nat j) done m
      = Ok (done', m') ∧
    inverse_outer_inv n rule old (S i) done' m'.
Proof.
  induction fuel as [|fuel IH]; intros j done m Hout Hfix Hi Hin Hfuel; [lia|].
  pose proof Hin as (Hld & Hlm & Hj & _ & _ & Hdj & _).
  cbn [sortByRuleInverse_inner]. rewrite Nat2N.id.
  destruct (is_permutation_lookup n rule Hrule j Hj) as [Hlj Hrj].
  rewrite (index_lookup _ _ _ Hlj), bind_Ok_l, Nat2N.id.
  rewrite index_is_done by lia. rewrite bind_Ok_l.
  destruct (is_done done (r j)) eqn:Hcheck.
  - exists done, m. split; [done|]. by eapply inverse_exit.
  - unfold slice_swapper.
    destruct (exchange_lookup m j (r j)) as (m' & -> & Hlm' & Hm'); [lia..|].
    rewrite bind_Ok_l, store_Ok by lia. rewrite bind_Ok_l.
    apply IH; [done..| |].
    + by eapply inverse_step.
    + pose proof (pending_insert done j ltac:(lia) Hdj). lia.
Qed.

Lemma sortByRuleInverse_inner_fixed i done0 m0 fuel :
  inverse_outer_inv n rule old i done0 m0 →
  (i < n)%nat → r i = i → is_done done0 i = false →
  ∃ done' m',
    sortByRuleInverse_inner (S (S fuel)) slice_swapper rule (N.of_nat i) done0 m0
      = Ok (done', m') ∧
    inverse_outer_inv n rule old (S i) done' m'.
Proof.
  intros (Hld & Hlm & O3 & O4 & O5 & O6) Hi Hfix Hi0.
  destruct (is_permutation_lookup n rule Hrule i Hi) as [Hli _].
  rewrite Hfix in Hli.
  assert (∀ x, is_done (<[i:=true]> done0) x =
               if decide (x = i) then true else is_done done0 x) as Hd'.
  { intros x. apply is_done_insert. lia. }
  assert (∀ x, (x < n)%nat →
    settled rule (<[i:=true]> done0) x ↔ x = i ∨ settled rule done0 x) as Hs'.
  { intros x Hx. unfold settled. rewrite !Hd'.
    destruct (decide (x = i)) as [->|Hne]; [split; intros _; by left|].
    destruct (decide (r x = i)) as [Heq|Hne'].
    - rewrite <- Hfix in Heq. apply r_inj in Heq; done.
    - split; [intros ?; by right|]. intros [?|?]; done. }
  cbn [sortByRuleInverse_inner]. rewrite Nat2N.id.
  rewrite (index_lookup _ _ _ Hli), bind_Ok_l, Nat2N.id.
  rewrite index_is_done by lia. rewrite bind_Ok_l, Hi0.
  unfold slice_swapper. rewrite exchange_same by lia.
  rewrite bind_Ok_l, store_Ok by lia. rewrite bind_Ok_l.
  rewrite (index_lookup _ _ _ Hli), bind_Ok_l, Nat2N.id.
  rewrite index_is_done by (rewrite length_insert; lia).
  rewrite bind_Ok_l, Hd', decide_True by done.
  eexists _, _. split; [done|].
  split; [by rewrite length_insert|]. split; [done|].
  split; [|split; [|split]].
  - intros x Hx Hxn. apply Hs'; [done|].
    destruct (decide (x = i)); [by left|]. right. apply O3; [lia|done].
  - intros x Hx. rewrite !Hs' by (done || by apply r_lt).
    split; intros [Heq|Hs].
    + left. congruence.
    + right. by apply (proj1 (O4 x Hx)).
    + left. rewrite <- Hfix in Heq. apply r_inj in Heq; done.
    + right. by apply (proj2 (O4 x Hx)).
  - intros x Hx [->|Hs]%Hs'; [|by apply O5|done].
    rewrite Hfix. apply O6; [done|]. intros [?|Hs]; [congruence|].
    rewrite Hfix in Hs. congruence.
  - intros x Hx Hs. apply O6; [done|]. intros Hs0. apply Hs, Hs'; auto.
Qed.

Lemma sortByRuleInverse_outer_spec count : ∀ i done m,
  inverse_outer_inv n rule old i done m →
  (i + count = n)%nat →
  ∃ done' m',
    sortByRuleInverse_outer count slice_swapper rule (N.of_nat i) done m
      = Ok (done', m') ∧
    inverse_outer_inv n rule old n done' m'.
Proof.
  induction count as [|count IH]; intros i done m Hout Hcount;
    cbn [sortByRuleInverse_outer].
  - exists done, m. split; [done|]. by replace i with n in Hout by lia.
  - pose proof Hout as (Hld & Hlm & O3 & O4 & O5 & O6).
    assert (i < n)%nat as Hi by lia.
    rewrite Nat2N.id, index_is_done by lia. rewrite bind_Ok_l.
    replace (N.of_nat i + 1) with (N.of_nat (S i)) by lia.
    assert (settled rule done i →
            inverse_outer_inv n rule old (S i) done m) as Hskip.
    { intros Hs. split; [done|]. split; [done|]. split; [|done].
      intros x Hx Hxn. destruct (decide (x = i)) as [->|]; [done|].
      apply O3; [lia|done]. }
    destruct (is_done done i) eqn:Hdi.
    { apply IH; [|lia]. apply Hskip. by left. }
    destruct (decide (is_done done (r i) = true)) as [Hdr|Hdr].
    { destruct (is_permutation_lookup n rule Hrule i Hi) as [Hli Hri].
      replace (length done + 2)%nat with (S (S (length done))) by lia.
      cbn [sortByRuleInverse_inner]. rewrite Nat2N.id.
      rewrite (index_lookup _ _ _ Hli), bind_Ok_l, Nat2N.id.
      rewrite index_is_done by lia. rewrite bind_Ok_l, Hdr, bind_Ok_l.
      apply IH; [|lia]. apply Hskip. by right. }
    assert (¬ settled rule done i) as Hns.
    { intros [?|?]; [congruence|done]. }
    destruct (decide (r i = i)) as [Hfix|Hfix].
    + replace (length done + 2)%nat with (S (S (length done))) by lia.
      destruct (sortByRuleInverse_inner_fixed i done m (length done))
        as (done' & m' & -> & Hout'); [done..|].
      rewrite bind_Ok_l. apply IH; [done|lia].
    + destruct (sortByRuleInverse_inner_spec i done m (length done + 2) i done m)
        as (done' & m' & -> & Hout'); [done..|by apply inverse_inner_init| |].
      { pose proof (pending_le done). lia. }
      rewrite bind_Ok_l. apply IH; [done|lia].
Qed.

Lemma sortByRuleInverse_spec :
  length old = n →
  ∃ new, sortByRuleInverse slice_swapper (N.of_nat n) rule old = Ok new ∧
    length new = n ∧
    ∀ x, (x < n)%nat → new !! x = old !! rule_at rule x.
Proof.
  intros Hlen. unfold sortByRuleInverse. rewrite Nat2N.id.
  destruct (sortByRuleInverse_outer_spec n 0 (replicate n false) old)
    as (done' & new & Heq & Hout); [|lia|].
  { split; [by rewrite length_replicate|]. split; [done|].
    assert (∀ x, ¬ settled rule (replicate n false) x) as Hno.
    { intros x [Hs|Hs]; by rewrite is_done_replicate in Hs. }
    split; [intros; lia|]. split; [|split].
    - intros x Hx. split; intros Hs; by apply Hno in Hs.
    - intros x Hx Hs. by apply Hno in Hs.
    - done. }
  change (N.of_nat 0) with 0 in Heq. rewrite Heq, bind_Ok_l.
  exists new. split; [done|].
  destruct Hout as (_ & Hlm & O3 & _ & O5 & _). split; [done|].
  intros x Hx. apply O5; [done|]. by apply O3.
Qed.
End inverse.

(** ** sortByRuleDirect applies [new[rule[x]] = old[x]] *)

Section direct.
Context {A : Type}.
Variables (n : nat) (rule : list N) (old : list A).
Hypothesis Hrule : is_permutation n rule.

Local Abbreviation r := (rule_at rule).

Local Lemma r_lt' x : (x < n)%nat → (r x < n)%nat.
Proof. intros Hx. by apply is_permutation_lookup. Qed.

Local Lemma r_inj' x y : (x < n)%nat → (y < n)%nat → r x = r y → x = y.
Proof. by apply is_permutation_inj. Qed.

Lemma direct_exit i done0 m0 j done m :
  direct_outer_inv n rule old i done0 m0 →
  (i < n)%nat → ¬ settled rule done0 i → r i ≠ i →
  direct_inner_inv n rule old i done0 m0 j done m →
  is_done done (r j) = true →
  direct_outer_inv n rule old (S i) done m.
Proof.
  intros (_ & _ & O3 & O4 & O5 & O6 & O7) Hi Hns Hfix
    (Hld & Hlm & Hj & D1 & D2 & D3 & D4 & D5 & D6 & D7 & D8 & D9 & D10) Hexit.
  assert (∀ x, settled rule done0 x → settled rule done x) as Hmono.
  { intros x [?|?]; [left|right]; by apply D1. }
  assert (is_done done0 (r j) = false) as HA.
  { destruct (is_done done0 (r j)) eqn:Hd; [|done].
    destruct D3. apply (proj2 (O4 j Hj)). by left. }
  assert (j = i) as HB.
  { destruct (D5 (r j)) as (p & Hp & Hrp & _ & [->|[Hp1 _]]);
      [by apply r_lt'|done| |].
    - symmetry. by apply r_inj' in Hrp.
    - apply r_inj' in Hrp; [|done..]. congruence. }
  subst j.
  destruct D6 as (p0 & Hp0 & Hrp0 & Hmi & [->|[Hp0d Hp0n]]); [done|].
  assert (is_done done (r i) = true) as Hdri.
  { destruct D10 as [?|?]; [done|]. by destruct Hfix. }
  clear D10 Hexit.
  split; [done|]. split; [done|]. split; [|split; [|split; [|split]]].
  - intros x Hx Hxn. destruct (decide (x = i)) as [->|Hne]; [by right|].
    apply Hmono, O3; [lia|done].
  - intros x Hx. split.
    + intros [Hdx|Hdr]; [|by left].
      destruct (is_done done0 x) eqn:Hd0.
      * apply Hmono, (proj1 (O4 x Hx)). by left.
      * destruct (D8 x Hx (conj Hdx Hd0)) as [Hrx|Hrx]; [|by left].
        rewrite Hrx. by right.
    + intros [Hdx|Hdr]; [by right|].
      destruct (is_done done0 (r (r x))) eqn:Hd0.
      * apply Hmono, (proj2 (O4 x Hx)), (proj2 (O4 (r x) (r_lt' x Hx))).
        by left.
      * destruct (D5 (r (r x))) as (p & Hp & Hrp & _ & [->|[Hp1 _]]);
          [by apply r_lt', r_lt'|done| |].
        -- apply r_inj' in Hrp; [|done|by apply r_lt'].
           rewrite Hrp in Hrp0. apply r_inj' in Hrp0; [|done..].
           subst p0. by left.
        -- apply r_inj' in Hrp; [|done|by apply r_lt']. subst p. by right.
  - intros x Hx Hs.
    destruct (decide (settled rule done0 x)) as [Hs0|Hs0].
    + rewrite D7; [by apply O5|by apply r_lt'| |].
      * intros Heq. apply Hns. rewrite <- Heq. by apply (proj1 (O4 x Hx)).
      * destruct (is_done done (r x)) eqn:Hdrx; [|by right].
        destruct (is_done done0 (r x)) eqn:Hd0; [by left|].
        destruct (D9 (r x) (r_lt' x Hx) (conj Hdrx Hd0)).
        by apply (proj1 (O4 x Hx)).
    + assert (is_done done0 x = false) as Hx0.
      { destruct (is_done done0 x) eqn:?; [|done]. destruct Hs0. by left. }
      assert (is_done done0 (r x) = false) as Hrx0.
      { destruct (is_done done0 (r x)) eqn:?; [|done]. destruct Hs0. by right. }
      destruct (is_done done (r x)) eqn:Hdrx.
      * destruct (D5 (r x)) as (p & Hp & Hrp & Hmp & _); [by apply r_lt'|done|].
        apply r_inj' in Hrp; [|done..]. by subst p.
      * destruct Hs as [Hdx|?]; [|congruence].
        destruct (D8 x Hx (conj Hdx Hx0)) as [Hrx|?]; [|congruence].
        rewrite Hrx, Hmi. rewrite <- Hrx in Hrp0.
        apply r_inj' in Hrp0; [|done..]. by subst p0.
  - intros x Hx Hs.
    assert (is_done done x = false) as Hdx.
    { destruct (is_done done x) eqn:?; [|done]. destruct Hs. by left. }
    assert (x ≠ i) as Hne.
    { intros ->. destruct Hs. by right. }
    rewrite D7; [|done|done|by right].
    apply O6; [done|]. intros Hs0. by apply Hs, Hmono.
  - intros x Hix Hx [Hdx|Hdr]; [done|].
    destruct (is_done done0 (r x)) eqn:Hd0.
    + apply D1, O7; [lia|done|by right].
    + destruct (D5 (r x)) as (p & Hp & Hrp & _ & [->|[Hp1 _]]);
        [by apply r_lt'|done| |].
      * apply r_inj' in Hrp; [|done..]. lia.
      * apply r_inj' in Hrp; [|done..]. by subst p.
Qed.

Lemma direct_step i done0 m0 j done m m' :
  direct_outer_inv n rule old i done0 m0 →
  (i < n)%nat → r i ≠ i →
  direct_inner_inv n rule old i done0 m0 j done m →
  is_done done (r j) = false →
  length m' = length m →
  (∀ x, m' !! x = if decide (x = i) then m !! j
                  else if decide (x = j) then m !! i
                  else m !! x) →
  direct_inner_inv n rule old i done0 m0 (r j) (<[j:=true]> done) m'.
Proof.
  intros (_ & _ & O3 & O4 & O5 & O6 & O7) Hi Hfix
    (Hld & Hlm & Hj & D1 & D2 & D3 & D4 & D5 & D6 & D7 & D8 & D9 & D10)
    Hcheck Hlm' Hm'.
  assert (∀ x, is_done (<[j:=true]> done) x =
               if decide (x = j) then true else is_done done x) as Hd'.
  { intros x. apply is_done_insert. lia. }
  assert (j ≠ i) as Hji.
  { intros ->. destruct D10 as [?|?]; [congruence|]. by destruct Hfix. }
  assert (r j ≠ j) as Hrj.
  { intros Heq. destruct D6 as (p & Hp & Hrp & _ & [->|[Hp1 _]]).
    - rewrite <- Heq in Hrp. apply r_inj' in Hrp; done.
    - rewrite <- Heq in Hrp. apply r_inj' in Hrp; [|done..]. congruence. }
  assert (is_done done0 j = false) as Hj0.
  { destruct (is_done done0 j) eqn:?; [|done]. destruct D3. by left. }
  assert (∀ x, newly done0 done x → newly done0 (<[j:=true]> done) x) as Hnew.
  { intros x [H1 H2]. split; [|done]. rewrite Hd'. by case_decide. }
  assert (newly done0 (<[j:=true]> done) j) as Hnewj.
  { split; [|done]. rewrite Hd'. by rewrite decide_True. }
  split; [by rewrite length_insert|]. split; [lia|].
  split; [by apply r_lt'|].
  split; [|split; [|split; [|split; [|split; [|split; [|split;
    [|split; [|split]]]]]]]].
  - intros x Hx. rewrite Hd'. case_decide; [done|by apply D1].
  - rewrite Hd'. by rewrite decide_False.
  - intros Hs. by apply D3, (proj2 (O4 j Hj)).
  - rewrite Hd'. by rewrite decide_False.
  - intros x Hx [Hx1 Hx2]. rewrite Hd' in Hx1. rewrite Hm'.
    destruct (decide (x = j)) as [->|Hne].
    + rewrite decide_False by done.
      destruct D6 as (p & Hp & Hrp & Hmp & Hcase).
      exists p. split; [done|]. split; [done|]. split; [done|].
      destruct Hcase; auto.
    + assert (x ≠ i) as Hne' by congruence.
      rewrite decide_False by done.
      destruct (D5 x Hx (conj Hx1 Hx2)) as (p & Hp & Hrp & Hmp & Hcase).
      exists p. split; [done|]. split; [done|]. split; [done|].
      destruct Hcase; auto.
  - exists j. split; [done|]. split; [done|]. split; [|by right].
    rewrite Hm'. rewrite decide_True by done.
    rewrite D7; [|done|done|by right]. by apply O6.
  - intros x Hx Hne Hcase. rewrite Hm'. rewrite Hd' in Hcase.
    rewrite decide_False by done.
    destruct (decide (x = j)) as [->|Hnej].
    + destruct Hcase; congruence.
    + by apply D7.
  - intros x Hx [Hx1 Hx2]. rewrite Hd' in Hx1.
    destruct (decide (x = j)) as [->|Hne]; [by left|].
    right. rewrite Hd'. case_decide; [done|].
    destruct (D8 x Hx (conj Hx1 Hx2)); done.
  - intros x Hx [Hx1 Hx2]. rewrite Hd' in Hx1.
    destruct (decide (x = j)) as [->|Hne]; [done|]. by apply D9.
  - rewrite Hd'. destruct D10 as [?| ->].
    + left. by case_decide.
    + left. by rewrite decide_True.
Qed.

Lemma direct_inner_init i done0 m0 :
  direct_outer_inv n rule old i done0 m0 →
  (i < n)%nat → ¬ settled rule done0 i →
  direct_inner_inv n rule old i done0 m0 (r i) done0 m0.
Proof.
  intros (Hld & Hlm & O3 & O4 & O5 & O6 & O7) Hi Hs.
  assert (is_done done0 i = false) as Hi0.
  { destruct (is_done done0 i) eqn:?; [|done]. destruct Hs. by left. }
  assert (is_done done0 (r i) = false) as Hri0.
  { destruct (is_done done0 (r i)) eqn:?; [|done]. destruct Hs. by right. }
  split; [done|]. split; [done|]. split; [by apply r_lt'|]. split; [done|].
  split; [done|].
  split; [|split; [done|split; [|split; [|split; [|split; [|split]]]]]].
  - intros Hs'. by apply Hs, (proj2 (O4 i Hi)).
  - intros x Hx [? ?]. congruence.
  - exists i. split; [done|]. split; [done|]. split; [by apply O6|by left].
  - done.
  - intros x Hx [? ?]. congruence.
  - intros x Hx [? ?]. congruence.
  - by right.
Qed.

Lemma sortByRuleDirect_inner_spec i done0 m0 fuel : ∀ j done m,
  direct_outer_inv n rule old i done0 m0 →
  (i < n)%nat → r i ≠ i →
  ¬ settled rule done0 i →
  direct_inner_inv n rule old i done0 m0 j done m →
  (pending done < fuel)%nat →
  ∃ done' m',
    sortByRuleDirect_inner fuel slice_swapper rule (N.of_nat i) (N.of_nat j)
      done m = Ok (done', m') ∧
    direct_outer_inv n rule old (S i) done' m'.
Proof.
  unfold sortByRuleDirect_inner.
  induction fuel as [|fuel IH]; intros j done m Hout Hi Hfix Hns Hin Hfuel;
    [lia|].
  pose proof Hin as (Hld & Hlm & Hj & _ & _ & _ & Hdj & _).
  cbn [sortByRule_inner]. rewrite !Nat2N.id.
  destruct (is_permutation_lookup n rule Hrule j Hj) as [Hlj Hrj].
  rewrite (index_lookup _ _ _ Hlj), bind_Ok_l, Nat2N.id.
  rewrite index_is_done by lia. rewrite bind_Ok_l.
  destruct (is_done done (r j)) eqn:Hcheck.
  - exists done, m. split; [done|]. by eapply direct_exit.
  - unfold slice_swapper.
    destruct (exchange_lookup m i j) as (m' & -> & Hlm' & Hm'); [lia..|].
    rewrite bind_Ok_l, store_Ok by lia. rewrite bind_Ok_l.
    apply IH; [done..| |].
    + by eapply direct_step.
    + pose proof (pending_insert done j ltac:(lia) Hdj). lia.
Qed.

Lemma sortByRuleDirect_inner_fixed i done0 m0 fuel :
  direct_outer_inv n rule old i done0 m0 →
  (i < n)%nat → r i = i → is_done done0 i = false →
  ∃ done' m',
    sortByRuleDirect_inner (S (S fuel)) slice_swapper rule (N.of_nat i)
      (N.of_nat i) done0 m0 = Ok (done', m') ∧
    direct_outer_inv n rule old (S i) done' m'.
Proof.
  unfold sortByRuleDirect_inner.
  intros (Hld & Hlm & O3 & O4 & O5 & O6 & O7) Hi Hfix Hi0.
  destruct (is_permutation_lookup n rule Hrule i Hi) as [Hli _].
  rewrite Hfix in Hli.
  assert (∀ x, is_done (<[i:=true]> done0) x =
               if decide (x = i) then true else is_done done0 x) as Hd'.
  { intros x. apply is_done_insert. lia. }
  assert (∀ x, (x < n)%nat →
    settled rule (<[i:=true]> done0) x ↔ x = i ∨ settled rule done0 x) as Hs'.
  { intros x Hx. unfold settled. rewrite !Hd'.
    destruct (decide (x = i)) as [->|Hne]; [split; intros _; by left|].
    destruct (decide (r x = i)) as [Heq|Hne'].
    - rewrite <- Hfix in Heq. apply r_inj' in Heq; done.
    - split; [intros ?; by right|]. intros [?|?]; done. }
  assert (¬ settled rule done0 i) as Hns.
  { intros [?|Hs]; [congruence|]. rewrite Hfix in Hs.
    congruence. }
  cbn [sortByRule_inner]. rewrite Nat2N.id.
  rewrite (index_lookup _ _ _ Hli), bind_Ok_l, Nat2N.id.
  rewrite index_is_done by lia. rewrite bind_Ok_l, Hi0.
  unfold slice_swapper. rewrite exchange_same by lia.
  rewrite bind_Ok_l, store_Ok by lia. rewrite bind_Ok_l.
  rewrite (index_lookup _ _ _ Hli), bind_Ok_l, Nat2N.id.
  rewrite index_is_done by (rewrite length_insert; lia).
  rewrite bind_Ok_l, Hd', decide_True by done.
  eexists _, _. split; [done|].
  split; [by rewrite length_insert|]. split; [done|].
  split; [|split; [|split; [|split]]].
  - intros x Hx Hxn. apply Hs'; [done|].
    destruct (decide (x = i)); [by left|]. right. apply O3; [lia|done].
  - intros x Hx. rewrite !Hs' by (done || by apply r_lt').
    split; intros [Heq|Hs].
    + left. congruence.
    + right. by apply (proj1 (O4 x Hx)).
    + left. rewrite <- Hfix in Heq. apply r_inj' in Heq; done.
    + right. by apply (proj2 (O4 x Hx)).
  - intros x Hx [->|Hs]%Hs'; [|by apply O5|done].
    rewrite Hfix. by apply O6.
  - intros x Hx Hs. apply O6; [done|]. intros Hs0. apply Hs, Hs'; auto.
  - intros x Hix Hx [->|Hs]%Hs'; [lia| |done].
    rewrite Hd'. case_decide; [done|]. apply O7; [lia|done..].
Qed.

Lemma sortByRuleDirect_outer_spec count : ∀ i done m,
  direct_outer_inv n rule old i done m →
  (i + count = n)%nat →
  ∃ done' m',
    sortByRuleDirect_outer count slice_swapper rule (N.of_nat i) done m
      = Ok (done', m') ∧
    direct_outer_inv n rule old n done' m'.
Proof.
  induction count as [|count IH]; intros i done m Hout Hcount;
    cbn [sortByRuleDirect_outer].
  - exists done, m. split; [done|]. by replace i with n in Hout by lia.
  - pose proof Hout as (Hld & Hlm & O3 & O4 & O5 & O6 & O7).
    assert (i < n)%nat as Hi by lia.
    rewrite Nat2N.id, index_is_done by lia. rewrite bind_Ok_l.
    replace (N.of_nat i + 1) with (N.of_nat (S i)) by lia.
    destruct (is_done done i) eqn:Hdi.
    { apply IH; [|lia]. split; [done|]. split; [done|].
      split; [|split; [done|split; [done|split; [done|]]]].
      - intros x Hx Hxn. destruct (decide (x = i)) as [->|]; [by left|].
        apply O3; [lia|done].
      - intros x Hx Hxn. apply O7; [lia|done]. }
    assert (¬ settled rule done i) as Hns.
    { intros Hs. apply O7 in Hs; [congruence|lia|done]. }
    destruct (is_permutation_lookup n rule Hrule i Hi) as [Hli Hri].
    rewrite (index_lookup _ _ _ Hli), bind_Ok_l.
    destruct (decide (r i = i)) as [Hfix|Hfix].
    + replace (length done + 2)%nat with (S (S (length done))) by lia.
      rewrite Hfix.
      destruct (sortByRuleDirect_inner_fixed i done m (length done))
        as (done' & m' & -> & Hout'); [done..|].
      rewrite bind_Ok_l. apply IH; [done|lia].
    + destruct (sortByRuleDirect_inner_spec i done m (length done + 2)
                  (r i) done m)
        as (done' & m' & -> & Hout'); [done..|by apply direct_inner_init| |].
      { pose proof (pending_le done). lia. }
      rewrite bind_Ok_l. apply IH; [done|lia].
Qed.

Lemma sortByRuleDirect_spec :
  length old = n →
  ∃ new, sortByRuleDirect slice_swapper (N.of_nat n) rule old = Ok new ∧
    length new = n ∧
    ∀ x, (x < n)%nat → new !! rule_at rule x = old !! x.
Proof.
  intros Hlen. unfold sortByRuleDirect. rewrite Nat2N.id.
  destruct (sortByRuleDirect_outer_spec n 0 (replicate n false) old)
    as (done' & new & Heq & Hout); [|lia|].
  { split; [by rewrite length_replicate|]. split; [done|].
    assert (∀ x, ¬ settled rule (replicate n false) x) as Hno.
    { intros x [Hs|Hs]; by rewrite is_done_replicate in Hs. }
    split; [intros; lia|]. split; [|split; [|split]].
    - intros x Hx. split; intros Hs; by apply Hno in Hs.
    - intros x Hx Hs. by apply Hno in Hs.
    - done.
    - intros x _ Hx Hs. by apply Hno in Hs. }
  change (N.of_nat 0) with 0 in Heq. rewrite Heq, bind_Ok_l.
  exists new. split; [done|].
  destruct Hout as (_ & Hlm & O3 & _ & O5 & _). split; [done|].
  intros x Hx. apply O5; [done|]. by apply O3.
Qed.
End direct.

(** ** The two reorderings through a new array *)

Lemma for_each_Ok {A B} (f : A → outcome B) (s : list A) (out : list B) :
  for_each f s = Ok out ↔ Forall2 (λ x y, f x = Ok y) s out.
Proof.
  revert out. induction s as [|x s IH]; intros out; simpl.
  - split; [intros [= <-]; constructor|]. by intros ->%Forall2_nil_inv_l.
  - rewrite bind_Ok. split.
    + intros (y & Hy & (out' & Hout & [= <-])%bind_Ok).
      constructor; [done|]. by apply IH.
    + intros (y & out' & Hy & Hout & ->)%Forall2_cons_inv_l.
      exists y. split; [done|]. apply IH in Hout. by rewrite Hout.
Qed.

Section rebuild.
Context {A : Type}.
Variables (n : nat) (rule : list N) (old : list A).
Hypothesis Hrule : is_permutation n rule.
Hypothesis Hold : length old = n.

Lemma rebuild_direct_unique (new : list A) :
  length new = n →
  (∀ x, (x < n)%nat → new !! x = old !! rule_at rule x) →
  rebuild_direct old rule = Ok new.
Proof.
  intros Hlen Hnew. apply for_each_Ok.
  apply Forall2_same_length_lookup_2.
  { by rewrite Hlen, (is_permutation_length n rule). }
  intros x ri y Hri Hy. apply index_lookup.
  assert (x < n)%nat as Hx by (rewrite <- Hlen; by eapply lookup_lt_Some).
  destruct (is_permutation_lookup n rule Hrule x Hx) as [Hlx _].
  rewrite Hlx in Hri. injection Hri as <-. rewrite Nat2N.id.
  by rewrite <- Hnew, Hy.
Qed.

Lemma rebuild_inverse_from_spec suffix : ∀ i new,
  drop i rule = suffix → length new = n →
  (∀ x, (x < i)%nat → (x < n)%nat → new !! rule_at rule x = old !! x) →
  ∃ new', rebuild_inverse_from old suffix i new = Ok new' ∧ length new' = n ∧
    ∀ x, (x < n)%nat → new' !! rule_at rule x = old !! x.
Proof.
  induction suffix as [|ri suffix IH]; intros i new Hdrop Hlen Hnew; simpl.
  - exists new. split; [done|]. split; [done|]. intros x Hx.
    apply Hnew; [|done].
    apply drop_nil_inv in Hdrop.
    rewrite (is_permutation_length n rule Hrule) in Hdrop. lia.
  - assert (rule !! i = Some ri) as Hi.
    { rewrite <- (Nat.add_0_r i), <- lookup_drop, Hdrop. done. }
    assert (i < n)%nat as Hin.
    { rewrite <- (is_permutation_length n rule Hrule).
      by eapply lookup_lt_Some. }
    destruct (is_permutation_lookup n rule Hrule i Hin) as [Hli Hri].
    rewrite Hli in Hi. injection Hi as <-.
    destruct (lookup_lt_is_Some_2 old i ltac:(lia)) as [v Hv].
    rewrite (index_lookup _ _ _ Hv), bind_Ok_l, Nat2N.id.
    rewrite store_Ok by lia. rewrite bind_Ok_l.
    apply IH.
    + erewrite drop_S in Hdrop by exact Hli. by injection Hdrop.
    + by rewrite length_insert.
    + intros x Hx Hxn. destruct (decide (x = i)) as [->|Hne].
      * rewrite list_lookup_insert_eq by lia. done.
      * rewrite list_lookup_insert_ne; [apply Hnew; [lia|done]|].
        intros Heq. by apply (is_permutation_inj n rule Hrule) in Heq.
Qed.

Lemma rebuild_inverse_unique (new : list A) :
  length new = n →
  (∀ x, (x < n)%nat → new !! rule_at rule x = old !! x) →
  rebuild_inverse old rule = Ok new.
Proof.
  intros Hlen Hnew. unfold rebuild_inverse.
  destruct (rebuild_inverse_from_spec rule 0 old) as (new' & -> & Hlen' & Hnew');
    [done|done|intros; lia|].
  f_equal. apply list_eq_same_length with n; [done..|].
  intros y a b Hy Ha Hb.
  destruct (is_permutation_surj n rule Hrule y Hy) as (x & Hx & <-).
  rewrite Hnew' in Ha by done. rewrite Hnew in Hb by done. congruence.
Qed.
End rebuild.

(** C1 (as amended). For every length [n], every rule that is a permutation
    of [[0,n)] and every sequence of length [n], the cycle walks return and
    agree with a reordering through a new array, with the two formulas the
    other way round: sortByRuleDirect yields [new[rule[i]] = old[i]] for
    every position [i], and sortByRuleInverse yields [new[i] = old[rule[i]]]
    for every position [i]. *)
Theorem cycle_appliers_rebuild {A} (n : nat) (rule : list uint64) (old : list A) :
  is_permutation n rule → length old = n →
  ∃ new_direct new_inverse,
    sortByRuleDirect slice_swapper (N.of_nat n) rule old = Ok new_direct ∧
    rebuild_inverse old rule = Ok new_direct ∧
    (∀ i, (i < n)%nat → new_direct !! rule_at rule i = old !! i) ∧
    sortByRuleInverse slice_swapper (N.of_nat n) rule old = Ok new_inverse ∧
    rebuild_direct old rule = Ok new_inverse ∧
    (∀ i, (i < n)%nat → new_inverse !! i = old !! rule_at rule i).
Proof.
  intros Hrule Hold.
  destruct (sortByRuleDirect_spec n rule old Hrule Hold) as (nd & Hd & Hld & Hnd).
  destruct (sortByRuleInverse_spec n rule old Hrule Hold) as (ni & Hi & Hli & Hni).
  exists nd, ni. split; [done|]. split; [by eapply rebuild_inverse_unique|].
  split; [done|]. split; [done|]. split; [by eapply rebuild_direct_unique|done].
Qed.

Lemma cycle_appliers_rebuild_witness :
  let rule := [4; 2; 0; 5; 3; 1] in
  let old := ["a"; "b"; "c"; "d"; "e"; "f"]%string in
  is_permutation 6 rule ∧ length old = 6%nat ∧
  ∃ new_direct new_inverse,
    sortByRuleDirect slice_swapper (N.of_nat 6) rule old = Ok new_direct ∧
    rebuild_inverse old rule = Ok new_direct ∧
    (∀ i, (i < 6)%nat → new_direct !! rule_at rule i = old !! i) ∧
    sortByRuleInverse slice_swapper (N.of_nat 6) rule old = Ok new_inverse ∧
    rebuild_direct old rule = Ok new_inverse ∧
    (∀ i, (i < 6)%nat → new_inverse !! i = old !! rule_at rule i).
Proof.
  assert (is_permutation 6 [4; 2; 0; 5; 3; 1]) as Hrule.
  { unfold is_permutation. simpl. solve_Permutation. }
  split; [exact Hrule|]. split; [reflexivity|].
  apply (cycle_appliers_rebuild 6 [4; 2; 0; 5; 3; 1]); [exact Hrule|reflexivity].
Defined.

(** C1 as stated fails on the rule and the sequence of the repository's own
    TestSortByRule: there the walk of sortByRuleDirect (and of sortByRule) is
    not [new[i] = old[rule[i]]], and the walk of sortByRuleInverse is not
    [new[rule[i]] = old[i]]. *)
Lemma cycle_appliers_as_stated_counterexample :
  let rule := [4; 2; 0; 5; 3; 1] in
  let old := ["a"; "b"; "c"; "d"; "e"; "f"]%string in
  is_permutation 6 rule ∧ length old = 6%nat ∧
  rebuild_direct old rule = Ok ["e"; "c"; "a"; "f"; "d"; "b"]%string ∧
  rebuild_inverse old rule = Ok ["c"; "f"; "b"; "e"; "a"; "d"]%string ∧
  sortByRuleDirect slice_swapper 6 rule old ≠ rebuild_direct old rule ∧
  sortByRule slice_swapper 6 rule old ≠ rebuild_direct old rule ∧
  sortByRuleInverse slice_swapper 6 rule old ≠ rebuild_inverse old rule.
Proof.
  split; [unfold is_permutation; simpl; solve_Permutation|].
  split; [reflexivity|]. split; [reflexivity|]. split; [reflexivity|].
  split; [|split]; vm_compute; discriminate.
Qed.

(** What the three walks leave on that input. *)
Example TestSortByRule_direct :
  sortByRuleDirect slice_swapper 6 [4; 2; 0; 5; 3; 1]
    ["a"; "b"; "c"; "d"; "e"; "f"]%string
  = Ok ["c"; "f"; "b"; "e"; "a"; "d"]%string.
Proof. reflexivity. Qed.

Example TestSortByRule_inverse :
  sortByRuleInverse slice_swapper 6 [4; 2; 0; 5; 3; 1]
    ["a"; "b"; "c"; "d"; "e"; "f"]%string
  = Ok ["e"; "c"; "a"; "f"; "d"; "b"]%string.
Proof. reflexivity. Qed.

(** sortByRule marks [i] before it walks, which ends every walk one exchange
    early: a cycle of two is left in place, and on a longer cycle the result
    is neither of the two reorderings. *)
Example sortByRule_stops_early :
  sortByRule slice_swapper 6 [4; 2; 0; 5; 3; 1]
    ["a"; "b"; "c"; "d"; "e"; "f"]%string
  = Ok ["b"; "f"; "c"; "e"; "a"; "d"]%string ∧
  sortByRule slice_swapper 2 [1; 0] ["a"; "b"]%string = Ok ["a"; "b"]%string.
Proof. split; reflexivity. Qed.

(** ** Rankings *)

Lemma ranking_length nodes hash r : ranking nodes hash r → length r = length nodes.
Proof.
  intros [Hperm _]. apply Permutation_length in Hperm.
  by rewrite length_fmap, length_seq in Hperm.
Qed.

Lemma ranking_is_permutation nodes hash r :
  ranking nodes hash r → is_permutation (length nodes) r.
Proof. by intros [Hperm _]. Qed.

Lemma ranking_lookup nodes hash r a i :
  ranking nodes hash r → r !! a = Some i →
  (N.to_nat i < length nodes)%nat ∧ i = N.of_nat (N.to_nat i) ∧
  ∃ ni, nodes !! N.to_nat i = Some ni.
Proof.
  intros [Hperm _] Ha.
  assert (i ∈ r) as Hin by (by eapply list_elem_of_lookup_2).
  rewrite Hperm in Hin. apply list_elem_of_fmap in Hin as (k & -> & Hk).
  apply elem_of_seq in Hk. rewrite !Nat2N.id.
  split; [lia|]. split; [done|]. apply lookup_lt_is_Some_2. lia.
Qed.

Lemma ranking_once nodes hash r k :
  ranking nodes hash r → (k < length nodes)%nat →
  ∃ a, r !! a = Some (N.of_nat k) ∧ ∀ b, r !! b = Some (N.of_nat k) → b = a.
Proof.
  intros [Hperm _] Hk.
  assert (N.of_nat k ∈ r) as Hin.
  { rewrite Hperm. apply list_elem_of_fmap. exists k. split; [done|].
    apply elem_of_seq. lia. }
  apply list_elem_of_lookup in Hin as [a Ha]. exists a. split; [done|].
  intros b Hb.
  assert (NoDup r) as Hnd.
  { rewrite Hperm. apply NoDup_fmap_2; [|apply NoDup_seq]. intros x y. lia. }
  by eapply NoDup_lookup.
Qed.

(** C3. For every list of node identifiers of length [N] and every key seed,
    SortByWeight returns a sequence of length [N] that contains each integer
    of [[0,N)] exactly once and nothing else, ordered so that the weights
    [weight(nodes[i], hash)] ascend, smallest first.  The list [nodes] is
    only read: the embedding passes it by value and builds the result from
    fresh slices, as the source does. *)
Theorem SortByWeight_ascending_permutation sort_Sort nodes hash :
  sort_Sort_contract sort_Sort →
  ∃ r, SortByWeight sort_Sort nodes hash = Ok r ∧
    length r = length nodes ∧
    r ≡ₚ N.of_nat <$> seq 0 (length nodes) ∧
    (∀ k, (k < length nodes)%nat →
       ∃ a, r !! a = Some (N.of_nat k) ∧ ∀ b, r !! b = Some (N.of_nat k) → b = a) ∧
    (∀ a i, r !! a = Some i → (N.to_nat i < length nodes)%nat) ∧
    (∀ a b i j, (a < b)%nat → r !! a = Some i → r !! b = Some j →
       ∃ ni nj, nodes !! N.to_nat i = Some ni ∧ nodes !! N.to_nat j = Some nj ∧
                weight ni hash ≤ weight nj hash).
Proof.
  intros Hsort.
  destruct (SortByWeight_ranking sort_Sort nodes hash Hsort) as (r & Hr & Hrank).
  exists r. split; [done|]. split; [by eapply ranking_length|].
  split; [apply Hrank|]. split; [|split].
  - intros k Hk. by eapply ranking_once.
  - intros a i Ha. by eapply ranking_lookup.
  - intros a b i j Hab Ha Hb.
    destruct (ranking_lookup _ _ _ _ _ Hrank Ha) as (_ & _ & ni & Hni).
    destruct (ranking_lookup _ _ _ _ _ Hrank Hb) as (_ & _ & nj & Hnj).
    exists ni, nj. split; [done|]. split; [done|].
    destruct Hrank as [_ Hasc]. by eapply Hasc.
Qed.

Lemma SortByWeight_ascending_permutation_witness :
  sort_Sort_contract short_Sort ∧
  ∃ r, SortByWeight short_Sort [1; 2; 3; 4; 5] 77 = Ok r ∧
    length r = 5%nat ∧
    r ≡ₚ N.of_nat <$> seq 0 5 ∧
    (∀ k, (k < 5)%nat →
       ∃ a, r !! a = Some (N.of_nat k) ∧ ∀ b, r !! b = Some (N.of_nat k) → b = a) ∧
    (∀ a i, r !! a = Some i → (N.to_nat i < 5)%nat) ∧
    (∀ a b i j, (a < b)%nat → r !! a = Some i → r !! b = Some j →
       ∃ ni nj, [1; 2; 3; 4; 5] !! N.to_nat i = Some ni ∧
                [1; 2; 3; 4; 5] !! N.to_nat j = Some nj ∧
                weight ni 77 ≤ weight nj 77).
Proof.
  split; [exact short_Sort_contract|].
  exact (SortByWeight_ascending_permutation short_Sort [1; 2; 3; 4; 5] 77
           short_Sort_contract).
Defined.

Example SortByWeight_five :
  SortByWeight short_Sort [1; 2; 3; 4; 5] 77 = Ok [3; 1; 4; 0; 2].
Proof. vm_compute. reflexivity. Qed.

(** C4 as stated fails: [Less] compares weights only and sort.Sort is not
    stable.  The sorter of the Go releases up to 1.18, on seven nodes of which
    the first six are equal, moves index 0 behind indices 1 to 5 of the same
    weight. *)
Lemma SortByWeight_ties_counterexample :
  ¬ (∀ sort_Sort nodes hash r a b i j ni nj,
       sort_Sort_contract sort_Sort →
       SortByWeight sort_Sort nodes hash = Ok r →
       (a < b)%nat → r !! a = Some i → r !! b = Some j →
       nodes !! N.to_nat i = Some ni → nodes !! N.to_nat j = Some nj →
       weight ni hash = weight nj hash → i < j).
Proof.
  intros Hclaim.
  specialize (Hclaim short_Sort [1; 1; 1; 1; 1; 1; 0] 0 [6; 1; 2; 3; 4; 5; 0]
                1%nat 6%nat 1 0 1 1 short_Sort_contract).
  assert (1 < 0) as Habs; [|lia].
  apply Hclaim; try reflexivity. lia.
Qed.

Example SortByWeight_ties :
  SortByWeight short_Sort [1; 1; 1; 1; 1; 1; 0] 0 = Ok [6; 1; 2; 3; 4; 5; 0].
Proof. vm_compute. reflexivity. Qed.

(** C4 (as amended). For every list of node identifiers and key seed,
    SortByWeight returns a ranking in which the indices of equal weight stand
    next to each other: every index ranked between two indices of one weight
    has that weight too.  Their order within the block is the one sort.Sort
    leaves. *)
Theorem SortByWeight_ties_adjacent sort_Sort nodes hash :
  sort_Sort_contract sort_Sort →
  ∃ r, SortByWeight sort_Sort nodes hash = Ok r ∧
    ∀ a c b i k j ni nk nj, (a < c < b)%nat →
      r !! a = Some i → r !! c = Some k → r !! b = Some j →
      nodes !! N.to_nat i = Some ni → nodes !! N.to_nat k = Some nk →
      nodes !! N.to_nat j = Some nj →
      weight ni hash = weight nj hash →
      weight nk hash = weight ni hash.
Proof.
  intros Hsort.
  destruct (SortByWeight_ranking sort_Sort nodes hash Hsort)
    as (r & Hr & _ & Hasc).
  exists r. split; [done|].
  intros a c b i k j ni nk nj Hacb Ha Hc Hb Hi Hk Hj Heq.
  pose proof (Hasc a c i k ni nk ltac:(lia) Ha Hc Hi Hk).
  pose proof (Hasc c b k j nk nj ltac:(lia) Hc Hb Hk Hj).
  lia.
Qed.

Lemma SortByWeight_ties_adjacent_witness :
  sort_Sort_contract short_Sort ∧
  ∃ r, SortByWeight short_Sort [1; 1; 1; 1; 1; 1; 0] 0 = Ok r ∧
    ∀ a c b i k j ni nk nj, (a < c < b)%nat →
      r !! a = Some i → r !! c = Some k → r !! b = Some j →
      [1; 1; 1; 1; 1; 1; 0] !! N.to_nat i = Some ni →
      [1; 1; 1; 1; 1; 1; 0] !! N.to_nat k = Some nk →
      [1; 1; 1; 1; 1; 1; 0] !! N.to_nat j = Some nj →
      weight ni 0 = weight nj 0 →
      weight nk 0 = weight ni 0.
Proof.
  split; [exact short_Sort_contract|].
  exact (SortByWeight_ties_adjacent short_Sort [1; 1; 1; 1; 1; 1; 0] 0
           short_Sort_contract).
Defined.

Lemma weight_self x : weight x x = 0.
Proof. rewrite weight_fmix64. by rewrite N.lxor_nilpotent. Qed.

(** C10. For every 64-bit unsigned integer [x], [weight x x = 0]; and a node
    identifier equal to the key seed has the smallest weight there is and
    ranks first in SortByWeight among distinct identifiers. *)
Theorem weight_self_ranks_first :
  (∀ x : uint64, weight x x = 0) ∧
  ∀ sort_Sort nodes hash k,
    sort_Sort_contract sort_Sort →
    hash < 2 ^ 64 → Forall (λ x, x < 2 ^ 64) nodes → NoDup nodes →
    nodes !! k = Some hash →
    ∃ r, SortByWeight sort_Sort nodes hash = Ok r ∧
         r !! 0%nat = Some (N.of_nat k).
Proof.
  split; [exact weight_self|].
  intros sort_Sort nodes hash k Hsort Hhash Hnodes Hnd Hk.
  destruct (SortByWeight_ranking sort_Sort nodes hash Hsort) as (r & Hr & Hrank).
  exists r. split; [done|].
  assert (k < length nodes)%nat as Hklt by (by eapply lookup_lt_Some).
  destruct (ranking_once _ _ _ k Hrank Hklt) as (a & Ha & _).
  destruct a as [|a]; [done|].
  destruct (lookup_lt_is_Some_2 r 0) as [i0 Hi0].
  { apply lookup_lt_Some in Ha. lia. }
  destruct (ranking_lookup _ _ _ _ _ Hrank Hi0) as (_ & Hi0eq & n0 & Hn0).
  destruct Hrank as [_ Hasc].
  specialize (Hasc 0%nat (S a) i0 (N.of_nat k) n0 hash ltac:(lia) Hi0 Ha Hn0).
  rewrite Nat2N.id in Hasc. specialize (Hasc Hk).
  rewrite weight_self in Hasc.
  assert (weight n0 hash = 0) as Hz0 by lia.
  assert (n0 < 2 ^ 64) as Hn0lt.
  { rewrite Forall_lookup in Hnodes. exact (Hnodes _ _ Hn0). }
  apply (proj1 (weight_zero_iff n0 hash Hn0lt Hhash)) in Hz0.
  subst n0.
  assert (N.to_nat i0 = k) as <- by (by eapply NoDup_lookup).
  by rewrite <- Hi0eq.
Qed.

Lemma weight_self_ranks_first_witness :
  sort_Sort_contract short_Sort ∧
  7 < 2 ^ 64 ∧ Forall (λ x, x < 2 ^ 64) [5; 7; 9] ∧ NoDup [5; 7; 9] ∧
  [5; 7; 9] !! 1%nat = Some 7 ∧
  weight 7 7 = 0 ∧
  ∃ r, SortByWeight short_Sort [5; 7; 9] 7 = Ok r ∧ r !! 0%nat = Some (N.of_nat 1).
Proof.
  assert (7 < 2 ^ 64) as H1 by (vm_compute; reflexivity).
  assert (Forall (λ x, x < 2 ^ 64) [5; 7; 9]) as H2.
  { repeat constructor. }
  assert (NoDup [5; 7; 9]) as H3.
  { apply NoDup_ListNoDup. repeat constructor; simpl; intuition discriminate. }
  split; [exact short_Sort_contract|]. split; [exact H1|]. split; [exact H2|].
  split; [exact H3|]. split; [reflexivity|].
  split; [exact (proj1 weight_self_ranks_first 7)|].
  exact (proj2 weight_self_ranks_first short_Sort [5; 7; 9] 7 1%nat
           short_Sort_contract H1 H2 H3 eq_refl).
Defined.

(** ** sortByRule returns on every permutation *)

Lemma pending_insert_le done j :
  (pending (<[j:=true]> done) ≤ pending done)%nat.
Proof.
  revert j. induction done as [|b done IH]; intros j; simpl; [lia|].
  destruct j as [|j]; simpl.
  - destruct b; lia.
  - specialize (IH j). destruct b; lia.
Qed.

Section total.
Context {A : Type}.
Variables (n : nat) (rule : list N).
Hypothesis Hrule : is_permutation n rule.

Lemma sortByRule_inner_total fuel : ∀ i j done (m : list A),
  length done = n → length m = n → (i < n)%nat → (j < n)%nat →
  (pending done + (if is_done done j then 1 else 0) < fuel)%nat →
  ∃ done' m',
    sortByRule_inner fuel slice_swapper rule (N.of_nat i) (N.of_nat j) done m
      = Ok (done', m') ∧
    length done' = n ∧ length m' = n.
Proof.
  induction fuel as [|fuel IH]; intros i j done m Hld Hlm Hi Hj Hfuel; [lia|].
  cbn [sortByRule_inner]. rewrite !Nat2N.id.
  destruct (is_permutation_lookup n rule Hrule j Hj) as [Hlj Hrj].
  rewrite (index_lookup _ _ _ Hlj), bind_Ok_l, Nat2N.id.
  rewrite index_is_done by lia. rewrite bind_Ok_l.
  destruct (is_done done (rule_at rule j)) eqn:Hcheck.
  { by exists done, m. }
  unfold slice_swapper.
  destruct (exchange_lookup m i j) as (m' & -> & Hlm' & _); [lia..|].
  rewrite bind_Ok_l, store_Ok by lia. rewrite bind_Ok_l.
  destruct (decide (rule_at rule j = j)) as [Hself|Hself].
  - rewrite Hself in Hcheck |- *.
    pose proof (pending_insert done j ltac:(lia) Hcheck).
    destruct fuel as [|fuel]; [rewrite Hcheck in Hfuel; lia|].
    cbn [sortByRule_inner]. rewrite !Nat2N.id.
    rewrite (index_lookup _ _ _ Hlj), bind_Ok_l, Nat2N.id, Hself.
    rewrite index_is_done by (rewrite length_insert; lia).
    rewrite bind_Ok_l, is_done_insert, decide_True by (done || lia).
    eexists _, _. split; [done|]. split; [by rewrite length_insert|lia].
  - apply IH; [by rewrite length_insert|lia|done..|].
    rewrite is_done_insert, decide_False, Hcheck by (done || lia).
    destruct (is_done done j) eqn:Hdj.
    + pose proof (pending_insert_le done j). lia.
    + pose proof (pending_insert done j ltac:(lia) Hdj). lia.
Qed.

Lemma sortByRule_outer_total count : ∀ i done (m : list A),
  length done = n → length m = n → (i + count = n)%nat →
  ∃ done' m',
    sortByRule_outer count slice_swapper rule (N.of_nat i) done m
      = Ok (done', m') ∧
    length done' = n ∧ length m' = n.
Proof.
  induction count as [|count IH]; intros i done m Hld Hlm Hcount;
    cbn [sortByRule_outer].
  - by exists done, m.
  - assert (i < n)%nat as Hi by lia.
    rewrite Nat2N.id, index_is_done by lia. rewrite bind_Ok_l.
    replace (N.of_nat i + 1) with (N.of_nat (S i)) by lia.
    destruct (is_done done i) eqn:Hdi; [apply IH; (done || lia)|].
    rewrite store_Ok by lia. rewrite bind_Ok_l.
    destruct (is_permutation_lookup n rule Hrule i Hi) as [Hli Hri].
    rewrite (index_lookup _ _ _ Hli), bind_Ok_l.
    destruct (sortByRule_inner_total (length (<[i:=true]> done) + 2) i
                (rule_at rule i) (<[i:=true]> done) m)
      as (done' & m' & -> & Hld' & Hlm'); [by rewrite length_insert|done..| |].
    { pose proof (pending_le (<[i:=true]> done)).
      destruct (is_done (<[i:=true]> done) (rule_at rule i)); lia. }
    rewrite bind_Ok_l. apply IH; (done || lia).
Qed.

Lemma sortByRule_total (m : list A) :
  length m = n →
  ∃ m', sortByRule slice_swapper (N.of_nat n) rule m = Ok m' ∧ length m' = n.
Proof.
  intros Hlm. unfold sortByRule. rewrite Nat2N.id.
  destruct (sortByRule_outer_total n 0 (replicate n false) m)
    as (done' & m' & Heq & _ & Hlm'); [by rewrite length_replicate|done|lia|].
  change (N.of_nat 0) with 0 in Heq. rewrite Heq, bind_Ok_l. by exists m'.
Qed.
End total.

(** ** Two runs of sortByRule on related stores *)

Section simulation.
Context {M1 M2 : Type}.
Variables (swap1 : swapper M1) (swap2 : swapper M2) (R : M1 → M2 → Prop).
Hypothesis Hswap : ∀ i j m1 m2,
  R m1 m2 → outcome_rel R (swap1 i j m1) (swap2 i j m2).

Lemma sortByRule_inner_sim fuel : ∀ rule i j done m1 m2,
  R m1 m2 →
  outcome_rel (λ x y, x.1 = y.1 ∧ R x.2 y.2)
    (sortByRule_inner fuel swap1 rule i j done m1)
    (sortByRule_inner fuel swap2 rule i j done m2).
Proof.
  induction fuel as [|fuel IH]; intros rule i j done m1 m2 HR;
    cbn [sortByRule_inner]; [exact I|].
  destruct (index rule (N.to_nat j)) as [rj| |]; [|done..].
  rewrite !bind_Ok_l.
  destruct (index done (N.to_nat rj)) as [d| |]; [|done..].
  rewrite !bind_Ok_l. destruct d; [done|].
  pose proof (Hswap (N.to_nat i) (N.to_nat j) m1 m2 HR) as Hsw.
  destruct (swap1 _ _ m1) as [m1'| |], (swap2 _ _ m2) as [m2'| |]; try done.
  rewrite !bind_Ok_l.
  destruct (store done (N.to_nat j) true) as [done'| |]; [|done..].
  rewrite !bind_Ok_l. by apply IH.
Qed.

Lemma sortByRule_outer_sim count : ∀ rule i done m1 m2,
  R m1 m2 →
  outcome_rel (λ x y, x.1 = y.1 ∧ R x.2 y.2)
    (sortByRule_outer count swap1 rule i done m1)
    (sortByRule_outer count swap2 rule i done m2).
Proof.
  induction count as [|count IH]; intros rule i done m1 m2 HR;
    cbn [sortByRule_outer]; [by split|].
  destruct (index done (N.to_nat i)) as [d| |]; [|done..].
  rewrite !bind_Ok_l. destruct d; [by apply IH|].
  destruct (store done (N.to_nat i) true) as [done'| |]; [|done..].
  rewrite !bind_Ok_l.
  destruct (index rule (N.to_nat i)) as [j| |]; [|done..].
  rewrite !bind_Ok_l.
  pose proof (sortByRule_inner_sim (length done' + 2) rule i j done' m1 m2 HR)
    as Hin.
  destruct (sortByRule_inner _ swap1 _ _ _ _ _) as [[d1 m1']| |],
           (sortByRule_inner _ swap2 _ _ _ _ _) as [[d2 m2']| |]; try done.
  destruct Hin as [Hd HR']. simpl in Hd, HR'. subst d2.
  rewrite !bind_Ok_l. by apply IH.
Qed.

Lemma sortByRule_sim length rule m1 m2 :
  R m1 m2 →
  outcome_rel R (sortByRule swap1 length rule m1) (sortByRule swap2 length rule m2).
Proof.
  intros HR. unfold sortByRule.
  pose proof (sortByRule_outer_sim (N.to_nat length) rule 0
                (replicate (N.to_nat length) false) m1 m2 HR) as Hout.
  destruct (sortByRule_outer _ swap1 _ _ _ _) as [[d1 m1']| |],
           (sortByRule_outer _ swap2 _ _ _ _) as [[d2 m2']| |]; try done.
  by destruct Hout as [_ HR'].
Qed.
End simulation.

(** ** What sortByRule does to a slice depends on its length only *)

Lemma exchange_Permutation {A} (s s' : list A) i j :
  exchange s i j = Ok s' → s' ≡ₚ s.
Proof.
  unfold exchange. intros (a & Ha%index_Ok & (b & Hb%index_Ok & [= <-])%bind_Ok)%bind_Ok.
  pose proof (lookup_lt_Some _ _ _ Ha) as Hi.
  pose proof (lookup_lt_Some _ _ _ Hb) as Hj.
  apply Permutation_inj. split; [by rewrite !length_insert|].
  exists (λ p, if decide (p = i) then j else if decide (p = j) then i else p).
  split.
  - intros p q. repeat case_decide; lia.
  - intros p. destruct (decide (p = i)) as [->|Hpi].
    { rewrite list_lookup_insert_eq by (rewrite length_insert; lia). done. }
    rewrite list_lookup_insert_ne by done.
    destruct (decide (p = j)) as [->|Hpj].
    { rewrite list_lookup_insert_eq by lia. done. }
    by rewrite list_lookup_insert_ne.
Qed.

Lemma exchange_rebuild {A} (orig s : list A) (q : list N) i j :
  Forall2 (λ ri y, index orig (N.to_nat ri) = Ok y) q s →
  outcome_rel (λ s' q', Forall2 (λ ri y, index orig (N.to_nat ri) = Ok y) q' s')
    (exchange s i j) (exchange q i j).
Proof.
  intros HR. pose proof (Forall2_length _ _ _ HR) as Hlen.
  unfold exchange.
  destruct (q !! i) as [a|] eqn:Ha.
  - destruct (Forall2_lookup_l _ _ _ _ _ HR Ha) as (a' & Ha' & Haa).
    rewrite (index_lookup _ _ _ Ha), (index_lookup _ _ _ Ha'), !bind_Ok_l.
    destruct (q !! j) as [b|] eqn:Hb.
    + destruct (Forall2_lookup_l _ _ _ _ _ HR Hb) as (b' & Hb' & Hbb).
      rewrite (index_lookup _ _ _ Hb), (index_lookup _ _ _ Hb'), !bind_Ok_l.
      simpl. by repeat apply Forall2_insert.
    + assert (s !! j = None) as Hb'.
      { apply lookup_ge_None. apply lookup_ge_None in Hb. lia. }
      unfold index. by rewrite Hb, Hb'.
  - assert (s !! i = None) as Ha'.
    { apply lookup_ge_None. apply lookup_ge_None in Ha. lia. }
    unfold index. by rewrite Ha, Ha'.
Qed.

Lemma sortByRule_positions_total n rule :
  is_permutation n rule →
  ∃ pos, sortByRule_positions n rule = Ok pos ∧ is_permutation n pos.
Proof.
  intros Hrule. unfold sortByRule_positions.
  destruct (sortByRule_total n rule Hrule (N.of_nat <$> seq 0 n))
    as (pos & Hpos & _); [by rewrite length_fmap, length_seq|].
  exists pos. split; [done|].
  pose proof (sortByRule_sim slice_swapper slice_swapper
    (λ q q' : list N, q = q' ∧ q ≡ₚ N.of_nat <$> seq 0 n)) as Hsim.
  specialize (Hsim ltac:(
    intros i j q ? [<- Hq]; unfold slice_swapper;
    destruct (exchange q i j) as [q'| |] eqn:Hex; simpl; try done;
    split; [done|]; by rewrite (exchange_Permutation _ _ _ _ Hex))).
  specialize (Hsim (N.of_nat n) rule _ _ (conj eq_refl (reflexivity _))).
  rewrite Hpos in Hsim. by destruct Hsim as [_ Hperm].
Qed.

Lemma sortByRule_as_rebuild {A} n rule pos (orig : list A) :
  sortByRule_positions n rule = Ok pos → length orig = n →
  ∃ new, sortByRule slice_swapper (N.of_nat n) rule orig = Ok new ∧
         rebuild_direct orig pos = Ok new.
Proof.
  intros Hpos Hlen. unfold sortByRule_positions in Hpos.
  pose proof (sortByRule_sim slice_swapper slice_swapper
    (λ (s : list A) (q : list N),
       Forall2 (λ ri y, index orig (N.to_nat ri) = Ok y) q s)) as Hsim.
  specialize (Hsim ltac:(intros i j s q HR; by apply exchange_rebuild)).
  specialize (Hsim (N.of_nat n) rule orig (N.of_nat <$> seq 0 n)).
  rewrite Hpos in Hsim.
  assert (Forall2 (λ ri y, index orig (N.to_nat ri) = Ok y)
            (N.of_nat <$> seq 0 n) orig) as Hinit.
  { apply Forall2_same_length_lookup_2.
    { by rewrite length_fmap, length_seq. }
    intros x ri y Hri Hy. rewrite list_lookup_fmap in Hri.
    destruct (seq 0 n !! x) as [k|] eqn:Hk; [|done].
    apply lookup_seq in Hk as [-> _]. injection Hri as <-.
    rewrite Nat2N.id. by apply index_lookup. }
  specialize (Hsim Hinit).
  destruct (sortByRule slice_swapper (N.of_nat n) rule orig) as [new| |];
    [|done..].
  exists new. split; [done|]. by apply for_each_Ok.
Qed.

Lemma sortByRule_value {X} (c : list X → value) length rule s :
  (∀ i j s, value_swap i j (c s) = exchange s i j ≫= λ s', Ok (c s')) →
  sortByRule value_swap length rule (c s)
  = sortByRule slice_swapper length rule s ≫= λ s', Ok (c s').
Proof.
  intros Hc.
  pose proof (sortByRule_sim value_swap slice_swapper (λ v s, v = c s)) as Hsim.
  specialize (Hsim ltac:(
    intros i j ? s0 ->; rewrite Hc; unfold slice_swapper;
    by destruct (exchange s0 i j))).
  specialize (Hsim length rule (c s) s eq_refl).
  destruct (sortByRule value_swap length rule (c s)) as [v| |],
           (sortByRule slice_swapper length rule s) as [s'| |]; try done.
  simpl in Hsim. by subst v.
Qed.

Lemma SortSliceByIndex_slice {X} (c : list X → value) sort_Sort hash n r pos :
  (∀ s, reflect_ValueOf_Len (c s) = Ok (length s)) →
  (∀ s, reflect_Swapper (c s) = Ok value_swap) →
  (∀ i j s, value_swap i j (c s) = exchange s i j ≫= λ s', Ok (c s')) →
  (∀ s pos, value_rebuild (c s) pos = rebuild_direct s pos ≫= λ s', Ok (c s')) →
  SortByWeight sort_Sort (N.of_nat <$> seq 0 n) hash = Ok r →
  sortByRule_positions n r = Ok pos →
  ∀ s, length s = n →
    ∃ s', SortSliceByIndex sort_Sort (c s) hash = Ok (c s') ∧
          value_rebuild (c s) pos = Ok (c s') ∧ length s' = n.
Proof.
  intros HLen HSwapper Hswap Hrebuild Hr Hpos s Hs.
  unfold SortSliceByIndex.
  rewrite HLen, bind_Ok_l, HSwapper, bind_Ok_l, Nat2N.id, Hs, Hr, bind_Ok_l.
  rewrite sortByRule_value by done.
  destruct (sortByRule_as_rebuild n r pos s Hpos Hs) as (new & -> & Hnew).
  exists new. rewrite Hrebuild, Hnew. split; [done|]. split; [done|].
  apply for_each_Ok, Forall2_length in Hnew.
  unfold sortByRule_positions in Hpos.
  rewrite <- Hnew.
  pose proof (sortByRule_sim slice_swapper slice_swapper
    (λ q q' : list N, q = q' ∧ length q = n)) as Hsim.
  specialize (Hsim ltac:(
    intros i j q ? [<- Hq]; unfold slice_swapper;
    destruct (exchange q i j) as [q'| |] eqn:Hex; simpl; try done;
    split; [done|];
    by rewrite (Permutation_length (exchange_Permutation _ _ _ _ Hex)))).
  assert (length (N.of_nat <$> seq 0 n) = n) as Hinit
    by (by rewrite length_fmap, length_seq).
  specialize (Hsim (N.of_nat n) r (N.of_nat <$> seq 0 n) _ (conj eq_refl Hinit)).
  rewrite Hpos in Hsim. by destruct Hsim.
Qed.

Lemma SortSliceByIndex_positions sort_Sort n hash :
  sort_Sort_contract sort_Sort →
  ∃ pos, is_permutation n pos ∧
    ∀ v, slice_length v = Some n →
      ∃ v', SortSliceByIndex sort_Sort v hash = Ok v' ∧
            value_rebuild v pos = Ok v' ∧ slice_length v' = Some n.
Proof.
  intros Hsort.
  destruct (SortByWeight_ranking sort_Sort (N.of_nat <$> seq 0 n) hash Hsort)
    as (r & Hr & Hrank).
  apply ranking_is_permutation in Hrank.
  rewrite length_fmap, length_seq in Hrank.
  destruct (sortByRule_positions_total n r Hrank) as (pos & Hpos & Hperm).
  exists pos. split; [done|].
  intros v Hv.
  destruct v as [|k len|s|s|s]; simpl in Hv; try done; injection Hv as Hv.
  - destruct (SortSliceByIndex_slice slice_int sort_Sort hash n r pos)
      with (s := s) as (s' & ? & ? & ?); try done.
    exists (slice_int s'). simpl. by repeat split; try f_equal.
  - destruct (SortSliceByIndex_slice slice_string sort_Sort hash n r pos)
      with (s := s) as (s' & ? & ? & ?); try done.
    exists (slice_string s'). simpl. by repeat split; try f_equal.
  - destruct (SortSliceByIndex_slice slice_other sort_Sort hash n r pos)
      with (s := s) as (s' & ? & ? & ?); try done.
    exists (slice_other s'). simpl. by repeat split; try f_equal.
Qed.

(** C5. The reordering applied by SortSliceByIndex depends only on the
    length of the sequence and on the key seed: for a length [n] and a key
    seed there is one permutation [pos] of the positions such that every
    slice of length [n], whatever its elements, comes back with
    [new[i] = old[pos[i]]]; so in two runs on sequences of equal length the
    element of any original position ends at the same final position. *)
Theorem SortSliceByIndex_value_independent sort_Sort (n : nat) (hash : uint64) :
  sort_Sort_contract sort_Sort →
  ∃ pos, is_permutation n pos ∧
    ∀ v1 v2, slice_length v1 = Some n → slice_length v2 = Some n →
      ∃ v1' v2',
        SortSliceByIndex sort_Sort v1 hash = Ok v1' ∧
        SortSliceByIndex sort_Sort v2 hash = Ok v2' ∧
        value_rebuild v1 pos = Ok v1' ∧
        value_rebuild v2 pos = Ok v2'.
Proof.
  intros Hsort.
  destruct (SortSliceByIndex_positions sort_Sort n hash Hsort)
    as (pos & Hperm & Hpos).
  exists pos. split; [done|]. intros v1 v2 Hv1 Hv2.
  destruct (Hpos v1 Hv1) as (v1' & ? & ? & _).
  destruct (Hpos v2 Hv2) as (v2' & ? & ? & _).
  by exists v1', v2'.
Qed.

Lemma SortSliceByIndex_value_independent_witness :
  sort_Sort_contract short_Sort ∧
  ∃ pos, is_permutation 3 pos ∧
    ∀ v1 v2, slice_length v1 = Some 3%nat → slice_length v2 = Some 3%nat →
      ∃ v1' v2',
        SortSliceByIndex short_Sort v1 1 = Ok v1' ∧
        SortSliceByIndex short_Sort v2 1 = Ok v2' ∧
        value_rebuild v1 pos = Ok v1' ∧
        value_rebuild v2 pos = Ok v2'.
Proof.
  split; [exact short_Sort_contract|].
  exact (SortSliceByIndex_value_independent short_Sort 3 1 short_Sort_contract).
Defined.

Example SortSliceByIndex_strings_ints :
  SortSliceByIndex short_Sort (slice_string ["a"; "b"; "c"; "d"; "e"; "f"]) 12345
  = Ok (slice_string ["d"; "b"; "c"; "e"; "a"; "f"]) ∧
  SortSliceByIndex short_Sort (slice_int [10; 20; 30; 40; 50; 60]%Z) 12345
  = Ok (slice_int [40; 20; 30; 50; 10; 60]%Z).
Proof. split; vm_compute; reflexivity. Qed.

(** ** Already ranked input *)

Lemma StronglySorted_lookup_2 {A} (R : relation A) (l : list A) :
  (∀ a b x y, (a < b)%nat → l !! a = Some x → l !! b = Some y → R x y) →
  StronglySorted R l.
Proof.
  induction l as [|x l IH]; intros Hl; constructor.
  - apply IH. intros a b y z Hab Ha Hb. apply (Hl (S a) (S b)); (done || lia).
  - apply list.Forall_forall. intros y [b Hb]%list_elem_of_lookup.
    apply (Hl 0%nat (S b)); (done || lia).
Qed.

Lemma ranking_ascending_identity nodes hash r :
  ranking nodes hash r →
  (∀ a b na nb, (a < b)%nat → nodes !! a = Some na → nodes !! b = Some nb →
     weight na hash < weight nb hash) →
  r = N.of_nat <$> seq 0 (length nodes).
Proof.
  intros Hrank Hstrict.
  apply (StronglySorted_unique N.le); [| |apply Hrank].
  - apply StronglySorted_lookup_2. intros a b i j Hab Ha Hb.
    destruct (ranking_lookup _ _ _ _ _ Hrank Ha) as (_ & _ & ni & Hni).
    destruct (ranking_lookup _ _ _ _ _ Hrank Hb) as (_ & _ & nj & Hnj).
    destruct Hrank as [_ Hasc].
    specialize (Hasc a b i j ni nj Hab Ha Hb Hni Hnj).
    destruct (decide (i ≤ j)) as [|Hji]; [done|].
    specialize (Hstrict (N.to_nat j) (N.to_nat i) nj ni ltac:(lia) Hnj Hni).
    lia.
  - apply StronglySorted_lookup_2. intros a b x y Hab Ha Hb.
    rewrite list_lookup_fmap in Ha, Hb.
    destruct (seq 0 (length nodes) !! a) as [ka|] eqn:Hka; [|done].
    destruct (seq 0 (length nodes) !! b) as [kb|] eqn:Hkb; [|done].
    apply lookup_seq in Hka as [-> _]. apply lookup_seq in Hkb as [-> _].
    injection Ha as <-. injection Hb as <-. lia.
Qed.

Lemma sortByRule_outer_identity {M} (swap : swapper M) n (m : M) count :
  ∀ i done, length done = n → (i + count = n)%nat →
  ∃ done', sortByRule_outer count swap (N.of_nat <$> seq 0 n) (N.of_nat i) done m
           = Ok (done', m) ∧ length done' = n.
Proof.
  induction count as [|count IH]; intros i done Hld Hcount;
    cbn [sortByRule_outer].
  - by exists done.
  - assert (i < n)%nat as Hi by lia.
    rewrite Nat2N.id, index_is_done by lia. rewrite bind_Ok_l.
    replace (N.of_nat i + 1) with (N.of_nat (S i)) by lia.
    destruct (is_done done i); [apply IH; (done || lia)|].
    rewrite store_Ok by lia. rewrite bind_Ok_l.
    assert ((N.of_nat <$> seq 0 n) !! i = Some (N.of_nat i)) as Hli.
    { by rewrite list_lookup_fmap, lookup_seq_lt. }
    rewrite (index_lookup _ _ _ Hli), bind_Ok_l.
    replace (length (<[i:=true]> done) + 2)%nat
      with (S (S (length done))) by (rewrite length_insert; lia).
    cbn [sortByRule_inner]. rewrite Nat2N.id.
    rewrite (index_lookup _ _ _ Hli), bind_Ok_l, Nat2N.id.
    rewrite index_is_done by (rewrite length_insert; lia).
    rewrite is_done_insert, decide_True, !bind_Ok_l by (done || lia).
    apply IH; [by rewrite length_insert|lia].
Qed.

Lemma sortByRule_identity {M} (swap : swapper M) n (m : M) :
  sortByRule swap (N.of_nat n) (N.of_nat <$> seq 0 n) m = Ok m.
Proof.
  unfold sortByRule. rewrite Nat2N.id.
  destruct (sortByRule_outer_identity swap n m n 0 (replicate n false))
    as (done' & Heq & _); [by rewrite length_replicate|lia|].
  change (N.of_nat 0) with 0 in Heq. by rewrite Heq.
Qed.

Lemma SortSliceByValue_rule_length mmh3_Sum128 v hash rule :
  SortSliceByValue_rule mmh3_Sum128 v hash = Ok (Some rule) →
  slice_length v = Some (length rule) ∧
  reflect_TypeOf_Kind v = Ok reflect.Slice ∧
  reflect_Swapper v = Ok value_swap ∧
  reflect_ValueOf_Len v = Ok (length rule).
Proof.
  destruct v as [|k len|s|s|s]; simpl; try done.
  - intros [= <-]. by rewrite length_fmap.
  - intros [= <-]. by rewrite length_fmap.
  - intros (first & _ & Hrest)%bind_Ok.
    destruct (object_Hash first); [|done].
    apply bind_Ok in Hrest as (rule' & Hrule & [= <-]).
    apply for_each_Ok, Forall2_length in Hrule. by rewrite Hrule.
Qed.

Lemma SortSliceByValue_ascending_fixed sort_Sort mmh3_Sum128 v hash rule :
  sort_Sort_contract sort_Sort →
  SortSliceByValue_rule mmh3_Sum128 v hash = Ok (Some rule) →
  (∀ a b wa wb, (a < b)%nat → rule !! a = Some wa → rule !! b = Some wb →
     weight wa hash < weight wb hash) →
  SortSliceByValue sort_Sort mmh3_Sum128 v hash = Ok (None, v).
Proof.
  intros Hsort Hrule Hstrict.
  destruct (SortSliceByValue_rule_length _ _ _ _ Hrule) as (_ & HK & HS & HL).
  unfold SortSliceByValue.
  rewrite HK, bind_Ok_l, decide_False by (by intros []).
  rewrite HS, bind_Ok_l, HL, bind_Ok_l.
  case_decide; [done|].
  rewrite Hrule, bind_Ok_l.
  destruct (SortByWeight_ranking sort_Sort rule hash Hsort) as (r & -> & Hrank).
  rewrite bind_Ok_l.
  rewrite (ranking_ascending_identity _ _ _ Hrank Hstrict).
  by rewrite sortByRule_identity.
Qed.

Lemma ranking_unique nodes hash r r' :
  ranking nodes hash r → ranking nodes hash r' →
  (∀ a b na nb, nodes !! a = Some na → nodes !! b = Some nb →
     weight na hash = weight nb hash → a = b) →
  r = r'.
Proof.
  intros Hr Hr' Hinj.
  set (R := λ i j : N, ∀ ni nj,
    nodes !! N.to_nat i = Some ni → nodes !! N.to_nat j = Some nj →
    weight ni hash ≤ weight nj hash).
  apply (StronglySorted_unique_strong R).
  - intros i j [a Ha]%list_elem_of_lookup [b Hb]%list_elem_of_lookup Hij Hji.
    destruct (ranking_lookup _ _ _ _ _ Hr Ha) as (_ & Hi & ni & Hni).
    destruct (ranking_lookup _ _ _ _ _ Hr' Hb) as (_ & Hj & nj & Hnj).
    specialize (Hij ni nj Hni Hnj). specialize (Hji nj ni Hnj Hni).
    assert (N.to_nat i = N.to_nat j) by (eapply Hinj; [done..|lia]). lia.
  - apply StronglySorted_lookup_2. intros a b i j Hab Ha Hb ni nj Hni Hnj.
    destruct Hr as [_ Hasc]. by eapply Hasc.
  - apply StronglySorted_lookup_2. intros a b i j Hab Ha Hb ni nj Hni Hnj.
    destruct Hr' as [_ Hasc]. by eapply Hasc.
  - destruct Hr as [-> _]. by destruct Hr' as [-> _].
Qed.

(** C2 as stated fails for both reorderings.  With key seed 1 a slice of
    three elements comes back from SortSliceByIndex with its first two
    elements exchanged, and a second call exchanges them again; with key
    seed 2 four [Hasher] elements are moved by a second SortSliceByValue as
    well. *)
Lemma reordering_twice_counterexample :
  ¬ (∀ sort_Sort v hash v1,
       sort_Sort_contract sort_Sort →
       SortSliceByIndex sort_Sort v hash = Ok v1 →
       SortSliceByIndex sort_Sort v1 hash = Ok v1) ∧
  ¬ (∀ sort_Sort mmh3_Sum128 v hash v1,
       sort_Sort_contract sort_Sort →
       SortSliceByValue sort_Sort mmh3_Sum128 v hash = Ok (None, v1) →
       SortSliceByValue sort_Sort mmh3_Sum128 v1 hash = Ok (None, v1)).
Proof.
  split; intros Hclaim.
  - specialize (Hclaim short_Sort (slice_string ["a"; "b"; "c"]) 1
                  (slice_string ["b"; "a"; "c"]) short_Sort_contract).
    assert (Ok (slice_string ["a"; "b"; "c"]) = Ok (slice_string ["b"; "a"; "c"]))
      as Habs; [|discriminate].
    rewrite <- Hclaim; vm_compute; reflexivity.
  - specialize (Hclaim short_Sort zero_Sum128 (hashers [1; 2; 3; 4]) 2
                  (hashers [3; 1; 2; 4]) short_Sort_contract).
    assert (Ok (None, hashers [4; 1; 3; 2]) =
            Ok (@None error, hashers [3; 1; 2; 4])) as Habs; [|discriminate].
    rewrite <- Hclaim; vm_compute; reflexivity.
Qed.

Example SortSliceByIndex_twice :
  SortSliceByIndex short_Sort (slice_string ["a"; "b"; "c"]) 1
  = Ok (slice_string ["b"; "a"; "c"]) ∧
  SortSliceByIndex short_Sort (slice_string ["b"; "a"; "c"]) 1
  = Ok (slice_string ["a"; "b"; "c"]).
Proof. split; vm_compute; reflexivity. Qed.

Example SortSliceByValue_twice :
  SortSliceByValue short_Sort zero_Sum128 (hashers [1; 2; 3; 4]) 2
  = Ok (None, hashers [3; 1; 2; 4]) ∧
  SortSliceByValue short_Sort zero_Sum128 (hashers [3; 1; 2; 4]) 2
  = Ok (None, hashers [4; 1; 3; 2]).
Proof. split; vm_compute; reflexivity. Qed.

(** The first of these does not depend on which sorter stands for
    sort.Sort: the three weights differ, so the contract fixes the ranking. *)
Lemma SortSliceByIndex_twice_any_sorter sort_Sort :
  sort_Sort_contract sort_Sort →
  SortSliceByIndex sort_Sort (slice_string ["a"; "b"; "c"]) 1
  = Ok (slice_string ["b"; "a"; "c"]) ∧
  SortSliceByIndex sort_Sort (slice_string ["b"; "a"; "c"]) 1
  = Ok (slice_string ["a"; "b"; "c"]).
Proof.
  intros Hsort.
  assert (SortByWeight sort_Sort [0; 1; 2] 1 = SortByWeight short_Sort [0; 1; 2] 1)
    as Heq.
  { destruct (SortByWeight_ranking sort_Sort [0; 1; 2] 1 Hsort) as (r & -> & Hr).
    destruct (SortByWeight_ranking short_Sort [0; 1; 2] 1 short_Sort_contract)
      as (r' & -> & Hr').
    f_equal. apply (ranking_unique _ _ _ _ Hr Hr').
    intros [|[|[|a]]] [|[|[|b]]] na nb Ha Hb; simplify_eq/=;
      (done || (vm_compute; discriminate)). }
  assert (∀ s : list string, length s = 3%nat →
    SortSliceByIndex sort_Sort (slice_string s) 1
    = SortSliceByIndex short_Sort (slice_string s) 1) as Hany.
  { intros s Hs. unfold SortSliceByIndex. cbn [reflect_ValueOf_Len].
    rewrite Hs, !bind_Ok_l.
    change (N.of_nat <$> seq 0 (N.to_nat (N.of_nat 3))) with [0; 1; 2].
    by rewrite Heq. }
  rewrite !Hany by done. split; vm_compute; reflexivity.
Qed.

(** C2 (as amended). Ranking is idempotent: for every list of node
    identifiers and key seed, SortByWeight returns, and two calls with the
    same arguments yield the same permutation.  A second SortSliceByIndex with
    the same key seed is not a no-op: it applies the same permutation of
    positions once more.  SortSliceByValue leaves unchanged a sequence whose
    elements already stand in strictly ascending order of the weights it
    ranks them by. *)
Theorem ranking_idempotent_reordering_repeats sort_Sort mmh3_Sum128 (hash : uint64) :
  sort_Sort_contract sort_Sort →
  (∀ nodes, ∃ r, SortByWeight sort_Sort nodes hash = Ok r ∧
     ∀ r', SortByWeight sort_Sort nodes hash = Ok r' → r' = r) ∧
  (∀ n, ∃ pos, is_permutation n pos ∧
     ∀ v, slice_length v = Some n →
       ∃ v1 v2,
         SortSliceByIndex sort_Sort v hash = Ok v1 ∧
         value_rebuild v pos = Ok v1 ∧
         SortSliceByIndex sort_Sort v1 hash = Ok v2 ∧
         value_rebuild v1 pos = Ok v2) ∧
  (∀ v rule,
     SortSliceByValue_rule mmh3_Sum128 v hash = Ok (Some rule) →
     (∀ a b wa wb, (a < b)%nat → rule !! a = Some wa → rule !! b = Some wb →
        weight wa hash < weight wb hash) →
     SortSliceByValue sort_Sort mmh3_Sum128 v hash = Ok (None, v)).
Proof.
  intros Hsort. split; [|split].
  - intros nodes.
    destruct (SortByWeight_ranking sort_Sort nodes hash Hsort) as (r & Hr & _).
    exists r. split; [done|]. intros r' Hr'. congruence.
  - intros n.
    destruct (SortSliceByIndex_positions sort_Sort n hash Hsort)
      as (pos & Hperm & Hpos).
    exists pos. split; [done|]. intros v Hv.
    destruct (Hpos v Hv) as (v1 & ? & ? & Hv1).
    destruct (Hpos v1 Hv1) as (v2 & ? & ? & _).
    by exists v1, v2.
  - intros v rule. by apply SortSliceByValue_ascending_fixed.
Qed.

Lemma ranking_idempotent_reordering_repeats_witness :
  sort_Sort_contract short_Sort ∧
  (∀ nodes, ∃ r, SortByWeight short_Sort nodes 1 = Ok r ∧
     ∀ r', SortByWeight short_Sort nodes 1 = Ok r' → r' = r) ∧
  (∀ n, ∃ pos, is_permutation n pos ∧
     ∀ v, slice_length v = Some n →
       ∃ v1 v2,
         SortSliceByIndex short_Sort v 1 = Ok v1 ∧
         value_rebuild v pos = Ok v1 ∧
         SortSliceByIndex short_Sort v1 1 = Ok v2 ∧
         value_rebuild v1 pos = Ok v2) ∧
  (∀ v rule,
     SortSliceByValue_rule zero_Sum128 v 1 = Ok (Some rule) →
     (∀ a b wa wb, (a < b)%nat → rule !! a = Some wa → rule !! b = Some wb →
        weight wa 1 < weight wb 1) →
     SortSliceByValue short_Sort zero_Sum128 v 1 = Ok (None, v)).
Proof.
  split; [exact short_Sort_contract|].
  exact (ranking_idempotent_reordering_repeats short_Sort zero_Sum128 1
           short_Sort_contract).
Defined.

(** ** Arguments that SortSliceByValue and SortSliceByIndex cannot reorder *)

Lemma SortSliceByValue_must_be_slice sort_Sort mmh3_Sum128 k len hash :
  k ≠ reflect.Slice →
  SortSliceByValue sort_Sort mmh3_Sum128 (non_slice k len) hash
  = Ok (Some (errors_New "must be slice"), non_slice k len).
Proof.
  intros Hk. unfold SortSliceByValue. cbn [reflect_TypeOf_Kind].
  by rewrite bind_Ok_l, decide_True.
Qed.

(** C7 at the nil interface: SortSliceByValue panics there.  reflect.TypeOf
    gives the nil Type for it, and the call of Kind on that Type is a nil
    dereference, before the comparison with reflect.Slice is reached. *)
Theorem SortSliceByValue_nil_panics sort_Sort mmh3_Sum128 (hash : uint64) :
  SortSliceByValue sort_Sort mmh3_Sum128 untyped_nil hash = Panic.
Proof. reflexivity. Qed.

Lemma SortSliceByValue_first_not_Hasher sort_Sort mmh3_Sum128 s first hash :
  s !! 0%nat = Some first → object_Hash first = None →
  SortSliceByValue sort_Sort mmh3_Sum128 (slice_other s) hash
  = Ok (Some (errors_New "unknown type"), slice_other s).
Proof.
  intros Hfirst Hnone. unfold SortSliceByValue.
  cbn [reflect_TypeOf_Kind reflect_Swapper reflect_ValueOf_Len].
  rewrite bind_Ok_l, decide_False by (by intros []).
  rewrite !bind_Ok_l.
  rewrite decide_False by (by destruct s).
  cbn [SortSliceByValue_rule].
  by rewrite (index_lookup _ _ _ Hfirst), bind_Ok_l, Hnone, bind_Ok_l.
Qed.



(** C9. SortSliceByIndex validates nothing: on every argument that is not
    a slice the call panics, in reflect's Len for a kind without a length
    and in reflect.Swapper for the others, where SortSliceByValue, which
    checks the kind first, returns its error for the same argument unless it
    is the nil interface. *)
Theorem SortSliceByIndex_non_slice_panics sort_Sort mmh3_Sum128
    (v : value) (hash : uint64) :
  slice_length v = None →
  SortSliceByIndex sort_Sort v hash = Panic ∧
  ∀ k len, v = non_slice k len → k ≠ reflect.Slice →
    SortSliceByValue sort_Sort mmh3_Sum128 v hash
    = Ok (Some (errors_New "must be slice"), v).
Proof.
  intros Hv. split.
  - destruct v as [|k [len|]|s|s|s]; simpl in Hv; done.
  - intros k len -> Hk. by apply SortSliceByValue_must_be_slice.
Qed.

Lemma SortSliceByIndex_non_slice_panics_witness :
  slice_length (non_slice reflect.Int None) = None ∧
  SortSliceByIndex short_Sort (non_slice reflect.Int None) 12345 = Panic ∧
  ∀ k len, non_slice reflect.Int None = non_slice k len → k ≠ reflect.Slice →
    SortSliceByValue short_Sort zero_Sum128 (non_slice reflect.Int None) 12345
    = Ok (Some (errors_New "must be slice"), non_slice reflect.Int None).
Proof.
  split; [reflexivity|].
  exact (SortSliceByIndex_non_slice_panics short_Sort zero_Sum128
           (non_slice reflect.Int None) 12345 eq_refl).
Defined.

Example SortSliceByIndex_array_panics :
  SortSliceByIndex short_Sort (non_slice reflect.Array (Some 3%nat)) 12345 = Panic ∧
  SortSliceByIndex short_Sort untyped_nil 12345 = Panic.
Proof. split; reflexivity. Qed.

(** * Further properties of the code *)

(** ** weight separates 64-bit inputs *)

Lemma xorshift_inj a b :
  N.lxor a (N.shiftr a 33) = N.lxor b (N.shiftr b 33) → a = b.
Proof.
  intros Heq. apply N.lxor_eq, xorshift_zero.
  rewrite N.shiftr_lxor.
  assert (N.lxor (N.lxor a b) (N.lxor (N.shiftr a 33) (N.shiftr b 33))
          = N.lxor (N.lxor a (N.shiftr a 33)) (N.lxor b (N.shiftr b 33))) as ->.
  { apply N.bits_inj. intros k. rewrite !N.lxor_spec.
    by destruct (N.testbit a k), (N.testbit b k),
      (N.testbit (N.shiftr a 33) k), (N.testbit (N.shiftr b 33) k). }
  rewrite Heq. apply N.lxor_nilpotent.
Qed.

Lemma wrap64_mul_odd_inj a b c :
  a < 2 ^ 64 → b < 2 ^ 64 → N.gcd (2 ^ 64) c = 1 →
  wrap64 (a * c) = wrap64 (b * c) → a = b.
Proof.
  assert (∀ a b, a ≤ b → a < 2 ^ 64 → b < 2 ^ 64 → N.gcd (2 ^ 64) c = 1 →
            wrap64 (a * c) = wrap64 (b * c) → a = b) as Hle.
  { clear a b. intros a b Hab Ha Hb Hc Heq.
    assert (b - a = 0); [|lia].
    apply (wrap64_mul_odd_zero _ c); [lia|done|].
    unfold wrap64 in *.
    assert (b * c = a * c + (b - a) * c) as Hsplit by nia.
    rewrite Hsplit in Heq.
    set (x := a * c) in *. set (d := (b - a) * c) in *.
    assert (2 ^ 64 ≠ 0) as HM by discriminate.
    pose proof (N.div_mod x (2 ^ 64) HM) as Hx.
    pose proof (N.div_mod (x + d) (2 ^ 64) HM) as Hxd.
    pose proof (N.Div0.div_le_mono x (x + d) (2 ^ 64) ltac:(lia)) as Hq.
    apply N.Lcm0.mod_divide.
    exists ((x + d) `div` 2 ^ 64 - x `div` 2 ^ 64). nia. }
  intros Ha Hb Hc Heq. destruct (N.le_ge_cases a b).
  - by apply Hle.
  - symmetry. by apply Hle.
Qed.

Lemma fmix64_inj x y : x < 2 ^ 64 → y < 2 ^ 64 → fmix64 x = fmix64 y → x = y.
Proof.
  intros Hx Hy Heq. unfold fmix64 in Heq.
  apply xorshift_inj in Heq.
  apply wrap64_mul_odd_inj in Heq;
    [|apply xorshift_lt, wrap64_lt..|by vm_compute].
  apply xorshift_inj in Heq.
  apply wrap64_mul_odd_inj in Heq; [|by apply xorshift_lt..|by vm_compute].
  by apply xorshift_inj in Heq.
Qed.

Lemma weight_eq_inv (x y hash : uint64) :
  x < 2 ^ 64 → y < 2 ^ 64 → hash < 2 ^ 64 →
  weight x hash = weight y hash → x = y.
Proof.
  intros Hx Hy Hhash. rewrite !weight_fmix64. intros Heq.
  apply fmix64_inj in Heq; [|by apply lxor_lt_pow2..].
  apply (f_equal (N.lxor hash)) in Heq.
  by rewrite !(N.lxor_comm hash), !N.lxor_assoc, !N.lxor_nilpotent,
    !N.lxor_0_r in Heq.
Qed.

(** X1. For one key seed, two 64-bit identifiers have the same weight only if
    they are the same identifier; and every weight fits in 64 bits. *)
Theorem weight_inj (x y hash : uint64) :
  x < 2 ^ 64 → y < 2 ^ 64 → hash < 2 ^ 64 →
  weight x hash < 2 ^ 64 ∧ (weight x hash = weight y hash → x = y).
Proof.
  intros Hx Hy Hhash. split; [apply weight_lt|by apply weight_eq_inv].
Qed.

Lemma weight_inj_witness :
  5 < 2 ^ 64 ∧ 9 < 2 ^ 64 ∧ 7 < 2 ^ 64 ∧
  weight 5 7 < 2 ^ 64 ∧ (weight 5 7 = weight 9 7 → 5 = 9).
Proof.
  assert (5 < 2 ^ 64) as H1 by (vm_compute; reflexivity).
  assert (9 < 2 ^ 64) as H2 by (vm_compute; reflexivity).
  assert (7 < 2 ^ 64) as H3 by (vm_compute; reflexivity).
  split; [exact H1|]. split; [exact H2|]. split; [exact H3|].
  exact (weight_inj 5 9 7 H1 H2 H3).
Defined.

(** ** The methods of hashed *)

(** X2. On a [hashed] whose index expressions are in range, as SortByWeight
    builds it, [Less] never panics and is the strict weak ordering sort.Sort
    asks for: irreflexive, transitive, and with a transitive
    "neither is less". *)
Theorem hashed_Less_strict_weak (h : hashed) (i j k : nat) :
  hashed_wf h → (i < Len h)%nat → (j < Len h)%nat → (k < Len h)%nat →
  (∃ b, Less h i j = Ok b) ∧
  Less h i i = Ok false ∧
  (Less h i j = Ok true → Less h j k = Ok true → Less h i k = Ok true) ∧
  (Less h i j = Ok false → Less h j i = Ok false →
   Less h j k = Ok false → Less h k j = Ok false →
   Less h i k = Ok false ∧ Less h k i = Ok false).
Proof.
  intros Hwf Hi Hj Hk.
  rewrite !Less_key_at by done.
  split; [by eexists|]. split; [by rewrite N.ltb_irrefl|]. split.
  - intros [= H1%N.ltb_lt] [= H2%N.ltb_lt]. f_equal. apply N.ltb_lt. lia.
  - intros [= H1%N.ltb_ge] [= H2%N.ltb_ge] [= H3%N.ltb_ge] [= H4%N.ltb_ge].
    split; f_equal; apply N.ltb_ge; lia.
Qed.

Lemma hashed_Less_strict_weak_witness :
  let h := mk_hashed 3 [2; 0; 1] [10; 30; 20] in
  hashed_wf h ∧ (0 < Len h)%nat ∧ (1 < Len h)%nat ∧ (2 < Len h)%nat ∧
  (∃ b, Less h 0 1 = Ok b) ∧
  Less h 0 0 = Ok false ∧
  (Less h 0 1 = Ok true → Less h 1 2 = Ok true → Less h 0 2 = Ok true) ∧
  (Less h 0 1 = Ok false → Less h 1 0 = Ok false →
   Less h 1 2 = Ok false → Less h 2 1 = Ok false →
   Less h 0 2 = Ok false ∧ Less h 2 0 = Ok false).
Proof.
  assert (hashed_wf (mk_hashed 3 [2; 0; 1] [10; 30; 20])) as Hwf.
  { split; [reflexivity|]. repeat constructor; simpl; lia. }
  split; [exact Hwf|]. split; [simpl; unfold hashed_Len; simpl; lia|].
  split; [simpl; unfold hashed_Len; simpl; lia|].
  split; [simpl; unfold hashed_Len; simpl; lia|].
  apply (hashed_Less_strict_weak (mk_hashed 3 [2; 0; 1] [10; 30; 20]) 0 1 2 Hwf);
    simpl; unfold hashed_Len; simpl; lia.
Defined.

(** X3. [Swap] within range exchanges two entries of [sorted] and nothing else:
    the data stays well formed, [weight] and [length] are untouched, and the
    same [Swap] again restores the struct. *)
Theorem hashed_Swap_involutive (h : hashed) (i j : nat) :
  hashed_wf h → (i < Len h)%nat → (j < Len h)%nat →
  ∃ h', Swap h i j = Ok h' ∧ rearranged h h' ∧
        hashed_sorted h' !! i = hashed_sorted h !! j ∧
        hashed_sorted h' !! j = hashed_sorted h !! i ∧
        Swap h' i j = Ok h.
Proof.
  intros Hwf Hi Hj.
  destruct (Swap_key_at h i j Hwf Hi Hj) as (h' & Hsw & Hre & _).
  exists h'. split; [done|]. split; [done|].
  pose proof Hwf as [Hlen _]. simpl in Hi, Hj, Hsw. unfold hashed_Len in Hi, Hj.
  unfold hashed_Swap in Hsw.
  destruct (exchange_lookup (hashed_sorted h) i j) as (s' & Hex & Hls & Hs');
    [lia..|].
  rewrite Hex, bind_Ok_l in Hsw. injection Hsw as <-. simpl.
  split; [rewrite Hs'; by rewrite decide_True|].
  split; [rewrite Hs'; by case_decide; subst; rewrite ?decide_True|].
  unfold hashed_Swap. simpl.
  destruct (exchange_lookup s' i j) as (s'' & -> & Hls' & Hs''); [lia..|].
  rewrite bind_Ok_l. destruct h as [l s w]. simpl in *. do 2 f_equal.
  apply list_eq. intros x. rewrite Hs'', !Hs'.
  repeat case_decide; subst; try done; rewrite ?decide_True by done; done.
Qed.

Lemma hashed_Swap_involutive_witness :
  let h := mk_hashed 3 [2; 0; 1] [10; 30; 20] in
  hashed_wf h ∧ (0 < Len h)%nat ∧ (2 < Len h)%nat ∧
  ∃ h', Swap h 0 2 = Ok h' ∧ rearranged h h' ∧
        hashed_sorted h' !! 0%nat = hashed_sorted h !! 2%nat ∧
        hashed_sorted h' !! 2%nat = hashed_sorted h !! 0%nat ∧
        Swap h' 0 2 = Ok h.
Proof.
  assert (hashed_wf (mk_hashed 3 [2; 0; 1] [10; 30; 20])) as Hwf.
  { split; [reflexivity|]. repeat constructor; simpl; lia. }
  split; [exact Hwf|]. split; [simpl; unfold hashed_Len; simpl; lia|].
  split; [simpl; unfold hashed_Len; simpl; lia|].
  apply (hashed_Swap_involutive (mk_hashed 3 [2; 0; 1] [10; 30; 20]) 0 2 Hwf);
    simpl; unfold hashed_Len; simpl; lia.
Defined.

(** ** The ranked identifiers *)

Lemma for_each_all_Ok {A B} (f : A → outcome B) (s : list A) :
  (∀ x, x ∈ s → ∃ y, f x = Ok y) → ∃ out, for_each f s = Ok out.
Proof.
  induction s as [|x s IH]; intros Hall; simpl; [by eexists|].
  destruct (Hall x) as [y ->]; [by left|].
  destruct IH as [out ->]; [intros z Hz; apply Hall; by right|].
  by eexists.
Qed.

Lemma rebuild_direct_Permutation {A} n (pos : list N) (old : list A) :
  is_permutation n pos → length old = n →
  ∃ new, rebuild_direct old pos = Ok new ∧ new ≡ₚ old ∧
    ∀ a, (a < n)%nat → new !! a = old !! rule_at pos a.
Proof.
  intros Hpos Hlen.
  destruct (for_each_all_Ok (λ ri, index old (N.to_nat ri)) pos) as [new Hnew].
  { intros ri [a Ha]%list_elem_of_lookup.
    assert (a < n)%nat as Han.
    { rewrite <- (is_permutation_length n pos Hpos). by eapply lookup_lt_Some. }
    destruct (is_permutation_lookup n pos Hpos a Han) as [Hla Hra].
    rewrite Hla in Ha. injection Ha as <-. rewrite Nat2N.id.
    destruct (lookup_lt_is_Some_2 old (rule_at pos a)) as [y Hy]; [lia|].
    exists y. by apply index_lookup. }
  exists new. split; [done|].
  apply for_each_Ok in Hnew.
  pose proof (Forall2_length _ _ _ Hnew) as Hln.
  rewrite (is_permutation_length n pos Hpos) in Hln.
  assert (∀ a, (a < n)%nat → new !! a = old !! rule_at pos a) as Hlook.
  { intros a Ha.
    destruct (is_permutation_lookup n pos Hpos a Ha) as [Hla Hra].
    destruct (Forall2_lookup_l _ _ _ _ _ Hnew Hla) as (y & Hy & Hidx).
    apply index_Ok in Hidx. rewrite Nat2N.id in Hidx. congruence. }
  split; [|done].
  apply Permutation_inj. split; [lia|].
  exists (λ a, if decide (a < n)%nat then rule_at pos a else a). split.
  - intros a b Hab.
    destruct (decide (a < n)%nat) as [Ha|Ha], (decide (b < n)%nat) as [Hb|Hb].
    + by eapply is_permutation_inj.
    + destruct (is_permutation_lookup n pos Hpos a Ha) as [_ ?]. lia.
    + destruct (is_permutation_lookup n pos Hpos b Hb) as [_ ?]. lia.
    + done.
  - intros a. case_decide as Ha; [by apply Hlook|].
    rewrite !lookup_ge_None_2 by lia. done.
Qed.

Lemma StronglySorted_lookup_1 {A} (R : relation A) (l : list A) a b x y :
  StronglySorted R l → (a < b)%nat → l !! a = Some x → l !! b = Some y → R x y.
Proof.
  intros Hl. revert a b. induction Hl as [|z l Hl IH Hz]; intros a b Hab Ha Hb.
  { by rewrite lookup_nil in Ha. }
  destruct b as [|b]; [lia|]. simpl in Hb. destruct a as [|a].
  - injection Ha as <-. rewrite list.Forall_forall in Hz. apply Hz.
    by eapply list_elem_of_lookup_2.
  - simpl in Ha. apply (IH a b); (done || lia).
Qed.

Lemma StronglySorted_delete {A} (R : relation A) (l : list A) a :
  StronglySorted R l → StronglySorted R (delete a l).
Proof.
  intros Hl. apply StronglySorted_lookup_2. intros p q x y Hpq Hp Hq.
  destruct (decide (p < a)%nat), (decide (q < a)%nat).
  - rewrite list_lookup_delete_lt in Hp, Hq by done.
    by eapply (StronglySorted_lookup_1 R l p q).
  - rewrite list_lookup_delete_lt in Hp by done.
    rewrite list_lookup_delete_ge in Hq by lia.
    eapply (StronglySorted_lookup_1 R l p (S q)); (done || lia).
  - lia.
  - rewrite list_lookup_delete_ge in Hp, Hq by lia.
    eapply (StronglySorted_lookup_1 R l (S p) (S q)); (done || lia).
Qed.

Lemma ranked_sorted sort_Sort nodes hash :
  sort_Sort_contract sort_Sort →
  ∃ l, ranked sort_Sort nodes hash = Ok l ∧ l ≡ₚ nodes ∧
       StronglySorted (by_weight hash) l.
Proof.
  intros Hsort. unfold ranked.
  destruct (SortByWeight_ranking sort_Sort nodes hash Hsort) as (r & -> & Hrank).
  rewrite bind_Ok_l.
  pose proof (ranking_is_permutation _ _ _ Hrank) as Hperm.
  destruct (rebuild_direct_Permutation (length nodes) r nodes Hperm eq_refl)
    as (l & Hl & Hpl & Hlook).
  exists l. split; [done|]. split; [done|].
  apply StronglySorted_lookup_2. intros a b x y Hab Ha Hb.
  assert (b < length nodes)%nat as Hbn.
  { apply lookup_lt_Some in Hb. by rewrite (Permutation_length Hpl) in Hb. }
  rewrite Hlook in Ha, Hb by lia.
  destruct (is_permutation_lookup _ r Hperm a ltac:(lia)) as [Hra _].
  destruct (is_permutation_lookup _ r Hperm b Hbn) as [Hrb _].
  destruct Hrank as [_ Hasc].
  eapply (Hasc a b); [done|exact Hra|exact Hrb|by rewrite Nat2N.id..].
Qed.

Lemma by_weight_sorted_unique hash (l1 l2 : list N) :
  hash < 2 ^ 64 → Forall (λ x, x < 2 ^ 64) l1 →
  StronglySorted (by_weight hash) l1 → StronglySorted (by_weight hash) l2 →
  l1 ≡ₚ l2 → l1 = l2.
Proof.
  intros Hhash Hl1 Hs1 Hs2 Hperm.
  apply (StronglySorted_unique_strong (by_weight hash)); [|done..].
  intros x y Hx Hy Hxy Hyx. unfold by_weight in *.
  rewrite list.Forall_forall in Hl1.
  apply (weight_eq_inv x y hash); [by apply Hl1| |done|lia].
  apply Hl1. by rewrite Hperm.
Qed.

(** X4. The ranked identifiers depend on the set of identifiers and on the key
    seed only: neither the order in which the caller lists the (64-bit)
    identifiers nor the sorting algorithm behind sort.Sort changes them. *)
Theorem ranked_order_independent sort1 sort2 (nodes1 nodes2 : list uint64)
    (hash : uint64) :
  sort_Sort_contract sort1 → sort_Sort_contract sort2 →
  hash < 2 ^ 64 → Forall (λ x, x < 2 ^ 64) nodes1 →
  nodes1 ≡ₚ nodes2 →
  ∃ l, ranked sort1 nodes1 hash = Ok l ∧ ranked sort2 nodes2 hash = Ok l.
Proof.
  intros Hs1 Hs2 Hhash Hn1 Hperm.
  destruct (ranked_sorted sort1 nodes1 hash Hs1) as (l1 & Hl1 & Hp1 & Hsorted1).
  destruct (ranked_sorted sort2 nodes2 hash Hs2) as (l2 & Hl2 & Hp2 & Hsorted2).
  exists l1. split; [done|]. rewrite Hl2. f_equal. symmetry.
  apply (by_weight_sorted_unique hash); [done| |done..|].
  - by rewrite Hp1.
  - by rewrite Hp1, Hp2.
Qed.

Lemma ranked_order_independent_witness :
  sort_Sort_contract short_Sort ∧ sort_Sort_contract short_Sort ∧
  77 < 2 ^ 64 ∧ Forall (λ x, x < 2 ^ 64) [1; 2; 3] ∧ [1; 2; 3] ≡ₚ [3; 1; 2] ∧
  ∃ l, ranked short_Sort [1; 2; 3] 77 = Ok l ∧
       ranked short_Sort [3; 1; 2] 77 = Ok l.
Proof.
  assert (77 < 2 ^ 64) as H1 by (vm_compute; reflexivity).
  assert (Forall (λ x, x < 2 ^ 64) [1; 2; 3]) as H2 by (repeat constructor).
  assert ([1; 2; 3] ≡ₚ [3; 1; 2]) as H3 by solve_Permutation.
  split; [exact short_Sort_contract|]. split; [exact short_Sort_contract|].
  split; [exact H1|]. split; [exact H2|]. split; [exact H3|].
  exact (ranked_order_independent short_Sort short_Sort [1; 2; 3] [3; 1; 2] 77
           short_Sort_contract short_Sort_contract H1 H2 H3).
Defined.

(** X5. For distinct 64-bit identifiers the ranking itself, as a list of
    indices, is the same under every sorting algorithm that meets the
    contract of sort.Sort: no two weights are equal, so the missing
    tie-break is never consulted. *)
Theorem SortByWeight_sorter_independent sort1 sort2 (nodes : list uint64)
    (hash : uint64) :
  sort_Sort_contract sort1 → sort_Sort_contract sort2 →
  hash < 2 ^ 64 → Forall (λ x, x < 2 ^ 64) nodes → NoDup nodes →
  SortByWeight sort1 nodes hash = SortByWeight sort2 nodes hash.
Proof.
  intros Hs1 Hs2 Hhash Hnodes Hnd.
  destruct (SortByWeight_ranking sort1 nodes hash Hs1) as (r1 & -> & Hr1).
  destruct (SortByWeight_ranking sort2 nodes hash Hs2) as (r2 & -> & Hr2).
  f_equal. apply (ranking_unique nodes hash); [done..|].
  intros a b na nb Ha Hb Heq. rewrite Forall_lookup in Hnodes.
  apply weight_eq_inv in Heq; [|by eapply Hnodes..|done].
  subst nb. by eapply NoDup_lookup.
Qed.

Lemma insertion_Sort_contract : sort_Sort_contract insertion_Sort.
Proof.
  intros h Hwf. unfold insertion_Sort.
  assert (∀ h2, rearranged h h2 → ascending_to h2 (Len h) →
    ∃ h', Ok h2 = Ok h' ∧ hashed_length h' = hashed_length h ∧
      hashed_weight h' = hashed_weight h ∧
      hashed_sorted h' ≡ₚ hashed_sorted h ∧
      ∀ i j, (i < j < Len h')%nat → Less h' j i = Ok false) as Hfin.
  { intros h2 (Hwf2 & Hl & Hw & Hp) Hasc. exists h2.
    split; [done|]. split; [done|]. split; [done|]. split; [done|].
    apply ascending_to_Less; [done|].
    by replace (Len h2) with (Len h) by (simpl; unfold hashed_Len; lia). }
  destruct (decide (0 < Len h)%nat) as [Hn|Hn].
  - destruct (insertionSort_spec h h) as (h2 & -> & Hre2 & Hasc2);
      [by apply rearranged_refl|done|by apply Hfin].
  - replace (Len h) with 0%nat by lia. simpl.
    apply Hfin; [by apply rearranged_refl|]. intros p q Hpq. lia.
Qed.

Lemma SortByWeight_sorter_independent_witness :
  sort_Sort_contract short_Sort ∧ sort_Sort_contract insertion_Sort ∧
  77 < 2 ^ 64 ∧ Forall (λ x, x < 2 ^ 64) [1; 2; 3] ∧ NoDup [1; 2; 3] ∧
  SortByWeight short_Sort [1; 2; 3] 77 = SortByWeight insertion_Sort [1; 2; 3] 77.
Proof.
  assert (77 < 2 ^ 64) as H1 by (vm_compute; reflexivity).
  assert (Forall (λ x, x < 2 ^ 64) [1; 2; 3]) as H2 by (repeat constructor).
  assert (NoDup [1; 2; 3]) as H3.
  { apply NoDup_ListNoDup. repeat constructor; simpl; intuition discriminate. }
  split; [exact short_Sort_contract|]. split; [exact insertion_Sort_contract|].
  split; [exact H1|]. split; [exact H2|]. split; [exact H3|].
  exact (SortByWeight_sorter_independent short_Sort insertion_Sort [1; 2; 3] 77
           short_Sort_contract insertion_Sort_contract H1 H2 H3).
Defined.

(** The two sorters differ where weights tie: the input on which the older
    one breaks the order of the indices comes out in index order from the
    newer one. *)
Example SortByWeight_ties_insertion :
  SortByWeight insertion_Sort [1; 1; 1; 1; 1; 1; 0] 0 = Ok [6; 0; 1; 2; 3; 4; 5].
Proof. vm_compute. reflexivity. Qed.

(** X6. Minimal disruption.  Removing one identifier from the list removes it
    from the ranked identifiers and changes nothing else: the remaining
    identifiers keep their order, so the first choice changes only when the
    removed identifier was the first choice. *)
Theorem ranked_remove sort_Sort (nodes : list uint64) (hash : uint64) k x :
  sort_Sort_contract sort_Sort →
  hash < 2 ^ 64 → Forall (λ x, x < 2 ^ 64) nodes →
  nodes !! k = Some x →
  ∃ l a, ranked sort_Sort nodes hash = Ok l ∧ l !! a = Some x ∧
         ranked sort_Sort (delete k nodes) hash = Ok (delete a l).
Proof.
  intros Hsort Hhash Hnodes Hk.
  destruct (ranked_sorted sort_Sort nodes hash Hsort) as (l & Hl & Hpl & Hsl).
  destruct (ranked_sorted sort_Sort (delete k nodes) hash Hsort)
    as (l' & Hl' & Hpl' & Hsl').
  assert (x ∈ l) as [a Ha]%list_elem_of_lookup.
  { rewrite Hpl. by eapply list_elem_of_lookup_2. }
  exists l, a. split; [done|]. split; [done|]. rewrite Hl'. f_equal.
  apply (by_weight_sorted_unique hash); [done| |done| |].
  - rewrite Hpl'. rewrite list.Forall_forall in Hnodes.
    apply list.Forall_forall. intros y Hy. apply Hnodes.
    rewrite (delete_Permutation _ _ _ Hk). by right.
  - by apply StronglySorted_delete.
  - rewrite Hpl'. apply (Permutation_cons_inv (a:=x)).
    by rewrite <- (delete_Permutation _ _ _ Hk), <- (delete_Permutation _ _ _ Ha).
Qed.

Lemma ranked_remove_witness :
  sort_Sort_contract short_Sort ∧
  77 < 2 ^ 64 ∧ Forall (λ x, x < 2 ^ 64) [1; 2; 3; 4; 5] ∧
  [1; 2; 3; 4; 5] !! 1%nat = Some 2 ∧
  ∃ l a, ranked short_Sort [1; 2; 3; 4; 5] 77 = Ok l ∧ l !! a = Some 2 ∧
         ranked short_Sort (delete 1%nat [1; 2; 3; 4; 5]) 77 = Ok (delete a l).
Proof.
  assert (77 < 2 ^ 64) as H1 by (vm_compute; reflexivity).
  assert (Forall (λ x, x < 2 ^ 64) [1; 2; 3; 4; 5]) as H2 by (repeat constructor).
  split; [exact short_Sort_contract|]. split; [exact H1|]. split; [exact H2|].
  split; [reflexivity|].
  exact (ranked_remove short_Sort [1; 2; 3; 4; 5] 77 1%nat 2
           short_Sort_contract H1 H2 eq_refl).
Defined.

(** ** sortByRule and cycles of two *)

Lemma sortByRule_outer_involution {M} (swap : swapper M) n rule (m : M) count :
  is_permutation n rule →
  (∀ i, (i < n)%nat → rule_at rule (rule_at rule i) = i) →
  ∀ i done, length done = n → (i + count = n)%nat →
  ∃ done', sortByRule_outer count swap rule (N.of_nat i) done m = Ok (done', m)
           ∧ length done' = n.
Proof.
  intros Hrule Hinv.
  induction count as [|count IH]; intros i done Hld Hcount;
    cbn [sortByRule_outer].
  - by exists done.
  - assert (i < n)%nat as Hi by lia.
    rewrite Nat2N.id, index_is_done by lia. rewrite bind_Ok_l.
    replace (N.of_nat i + 1) with (N.of_nat (S i)) by lia.
    destruct (is_done done i); [apply IH; (done || lia)|].
    rewrite store_Ok by lia. rewrite bind_Ok_l.
    destruct (is_permutation_lookup n rule Hrule i Hi) as [Hli Hri].
    destruct (is_permutation_lookup n rule Hrule _ Hri) as [Hlri _].
    rewrite Hinv in Hlri by done.
    rewrite (index_lookup _ _ _ Hli), bind_Ok_l.
    replace (length (<[i:=true]> done) + 2)%nat
      with (S (S (length done))) by (rewrite length_insert; lia).
    cbn [sortByRule_inner]. rewrite !Nat2N.id.
    rewrite (index_lookup _ _ _ Hlri), bind_Ok_l, Nat2N.id.
    rewrite index_is_done by (rewrite length_insert; lia).
    rewrite is_done_insert, decide_True, !bind_Ok_l by (done || lia).
    apply IH; [by rewrite length_insert|lia].
Qed.

Lemma sortByRule_own_inverse {M} (swap : swapper M) (n : nat)
    (rule : list uint64) (m : M) :
  is_permutation n rule →
  (∀ i, (i < n)%nat → rule_at rule (rule_at rule i) = i) →
  sortByRule swap (N.of_nat n) rule m = Ok m.
Proof.
  intros Hrule Hinv. unfold sortByRule. rewrite Nat2N.id.
  destruct (sortByRule_outer_involution swap n rule m n Hrule Hinv 0
              (replicate n false)) as (done' & Heq & _);
    [by rewrite length_replicate|lia|].
  change (N.of_nat 0) with 0 in Heq. by rewrite Heq.
Qed.

(** X7. sortByRule never exchanges the two positions of a cycle of two: on a
    rule that is its own inverse it calls [swap] not once and hands the store
    back as it was, whatever the store and the swapper are. *)
Theorem sortByRule_involution {M} (swap : swapper M) (n : nat)
    (rule : list uint64) (m : M) :
  is_permutation n rule →
  (∀ i, (i < n)%nat → rule_at rule (rule_at rule i) = i) →
  sortByRule swap (N.of_nat n) rule m = Ok m.
Proof.
  intros Hrule Hinv. unfold sortByRule. rewrite Nat2N.id.
  destruct (sortByRule_outer_involution swap n rule m n Hrule Hinv 0
              (replicate n false)) as (done' & Heq & _);
    [by rewrite length_replicate|lia|].
  change (N.of_nat 0) with 0 in Heq. by rewrite Heq.
Qed.

Lemma sortByRule_involution_witness :
  is_permutation 4 [1; 0; 3; 2] ∧
  (∀ i, (i < 4)%nat → rule_at [1; 0; 3; 2] (rule_at [1; 0; 3; 2] i) = i) ∧
  sortByRule slice_swapper (N.of_nat 4) [1; 0; 3; 2] ["a"; "b"; "c"; "d"]%string
  = Ok ["a"; "b"; "c"; "d"]%string.
Proof.
  assert (is_permutation 4 [1; 0; 3; 2]) as H1.
  { unfold is_permutation. simpl. solve_Permutation. }
  assert (∀ i, (i < 4)%nat → rule_at [1; 0; 3; 2] (rule_at [1; 0; 3; 2] i) = i)
    as H2.
  { intros [|[|[|[|i]]]] Hi; (reflexivity || lia). }
  split; [exact H1|]. split; [exact H2|].
  exact (sortByRule_involution slice_swapper 4 [1; 0; 3; 2] _ H1 H2).
Defined.

Lemma is_permutation_short_involution n rule :
  is_permutation n rule → (n ≤ 2)%nat →
  ∀ i, (i < n)%nat → rule_at rule (rule_at rule i) = i.
Proof.
  intros Hrule Hn i Hi.
  destruct (is_permutation_lookup n rule Hrule i Hi) as [_ Hri].
  destruct (is_permutation_lookup n rule Hrule _ Hri) as [_ Hrri].
  destruct (decide (rule_at rule i = i)) as [Heq|Hne]; [by rewrite !Heq|].
  destruct (decide (rule_at rule (rule_at rule i) = rule_at rule i)) as [Heq|Hne'].
  - apply (is_permutation_inj n rule Hrule) in Heq; done.
  - lia.
Qed.

Lemma SortSliceByValue_rule_slice mmh3_Sum128 v hash rule :
  SortSliceByValue_rule mmh3_Sum128 v hash = Ok (Some rule) →
  slice_length v = Some (length rule).
Proof. intros Hrule. by apply SortSliceByValue_rule_length in Hrule as [? _]. Qed.

Lemma slice_length_reflect v n :
  slice_length v = Some n →
  reflect_TypeOf_Kind v = Ok reflect.Slice ∧
  reflect_Swapper v = Ok value_swap ∧
  reflect_ValueOf_Len v = Ok n.
Proof. destruct v; simpl; intros [= <-] || done; done. Qed.

(** X8. A slice of at most two elements is never reordered: SortSliceByIndex
    hands it back unchanged for every key seed, and so does SortSliceByValue
    whenever it can hash the elements.  (Every permutation of two positions
    is a cycle of two or the identity.) *)
Theorem short_slices_stay sort_Sort mmh3_Sum128 (v : value) (hash : uint64) n :
  sort_Sort_contract sort_Sort →
  slice_length v = Some n → (n ≤ 2)%nat →
  SortSliceByIndex sort_Sort v hash = Ok v ∧
  ∀ rule, SortSliceByValue_rule mmh3_Sum128 v hash = Ok (Some rule) →
          SortSliceByValue sort_Sort mmh3_Sum128 v hash = Ok (None, v).
Proof.
  intros Hsort Hv Hn.
  destruct (slice_length_reflect v n Hv) as (HK & HS & HL). split.
  - unfold SortSliceByIndex. rewrite HL, bind_Ok_l, HS, bind_Ok_l, Nat2N.id.
    destruct (SortByWeight_ranking sort_Sort (N.of_nat <$> seq 0 n) hash Hsort)
      as (r & -> & Hrank).
    rewrite bind_Ok_l. apply ranking_is_permutation in Hrank.
    rewrite length_fmap, length_seq in Hrank.
    apply sortByRule_own_inverse; [done|].
    by apply is_permutation_short_involution.
  - intros rule Hrule.
    pose proof (SortSliceByValue_rule_slice _ _ _ _ Hrule) as Hlen.
    rewrite Hv in Hlen. injection Hlen as ->.
    unfold SortSliceByValue.
    rewrite HK, bind_Ok_l, decide_False by (by intros []).
    rewrite HS, bind_Ok_l, HL, bind_Ok_l.
    case_decide; [done|].
    rewrite Hrule, bind_Ok_l.
    destruct (SortByWeight_ranking sort_Sort rule hash Hsort) as (r & -> & Hrank).
    rewrite bind_Ok_l. apply ranking_is_permutation in Hrank.
    rewrite sortByRule_own_inverse; [done|done|].
    by apply is_permutation_short_involution.
Qed.

Lemma short_slices_stay_witness :
  sort_Sort_contract short_Sort ∧
  slice_length (slice_string ["one"; "two"]) = Some 2%nat ∧ (2 ≤ 2)%nat ∧
  SortSliceByIndex short_Sort (slice_string ["one"; "two"]) 12345
  = Ok (slice_string ["one"; "two"]) ∧
  ∀ rule,
    SortSliceByValue_rule zero_Sum128 (slice_string ["one"; "two"]) 12345
    = Ok (Some rule) →
    SortSliceByValue short_Sort zero_Sum128 (slice_string ["one"; "two"]) 12345
    = Ok (None, slice_string ["one"; "two"]).
Proof.
  split; [exact short_Sort_contract|]. split; [reflexivity|]. split; [lia|].
  exact (short_slices_stay short_Sort zero_Sum128 (slice_string ["one"; "two"])
           12345 2 short_Sort_contract eq_refl ltac:(lia)).
Defined.

(** ** What SortSliceByValue does with a slice *)

Lemma SortSliceByValue_length_zero sort_Sort mmh3_Sum128 (v : value) (hash : uint64) :
  slice_length v = Some 0%nat →
  SortSliceByValue sort_Sort mmh3_Sum128 v hash = Ok (None, v).
Proof.
  intros Hv. destruct (slice_length_reflect v 0 Hv) as (HK & HS & HL).
  unfold SortSliceByValue.
  rewrite HK, bind_Ok_l, decide_False by (by intros []).
  by rewrite HS, bind_Ok_l, HL, bind_Ok_l, decide_True.
Qed.

(** X9. An empty slice comes back as it is, with a nil error, whatever its
    element type: the "unknown type" error is not raised for it, and
    sort.Sort is not reached. *)
Theorem SortSliceByValue_empty sort_Sort mmh3_Sum128 (v : value) (hash : uint64) :
  slice_length v = Some 0%nat →
  SortSliceByValue sort_Sort mmh3_Sum128 v hash = Ok (None, v).
Proof.
  intros Hv. destruct (slice_length_reflect v 0 Hv) as (HK & HS & HL).
  unfold SortSliceByValue.
  rewrite HK, bind_Ok_l, decide_False by (by intros []).
  by rewrite HS, bind_Ok_l, HL, bind_Ok_l, decide_True.
Qed.

Lemma SortSliceByValue_empty_witness :
  slice_length (slice_other []) = Some 0%nat ∧
  SortSliceByValue short_Sort zero_Sum128 (slice_other []) 12345
  = Ok (None, slice_other []).
Proof.
  split; [reflexivity|].
  exact (SortSliceByValue_empty short_Sort zero_Sum128 (slice_other []) 12345
           eq_refl).
Defined.

Lemma for_each_Panic {A B} (f : A → outcome B) (s : list A) :
  (∀ x, x ∈ s → f x ≠ OutOfFuel) →
  (∃ x, x ∈ s ∧ f x = Panic) →
  for_each f s = Panic.
Proof.
  induction s as [|x s IH]; intros Hfuel (z & Hz & Hpanic); simpl.
  { by apply elem_of_nil in Hz. }
  destruct (f x) as [y| |] eqn:Hfx; [|done|].
  - rewrite bind_Ok_l. rewrite IH; [done| |].
    + intros w Hw. apply Hfuel. by right.
    + apply elem_of_cons in Hz as [->|Hz]; [congruence|by exists z].
  - destruct (Hfuel x); [by left|done].
Qed.

(** X10. When element 0 of a slice implements [Hasher] and some other element
    does not, SortSliceByValue panics: only element 0 is checked with the
    two-value form of the type assertion, the loop asserts every element
    with the one-value form. *)
Theorem SortSliceByValue_mixed_panics sort_Sort mmh3_Sum128
    (s : list object) (first : object) (hash : uint64) :
  s !! 0%nat = Some first → is_Some (object_Hash first) →
  (∃ x, x ∈ s ∧ object_Hash x = None) →
  SortSliceByValue sort_Sort mmh3_Sum128 (slice_other s) hash = Panic.
Proof.
  intros Hfirst [h0 Hh0] Hmixed. unfold SortSliceByValue.
  cbn [reflect_TypeOf_Kind reflect_Swapper reflect_ValueOf_Len].
  rewrite bind_Ok_l, decide_False by (by intros []).
  rewrite !bind_Ok_l.
  rewrite decide_False by (by destruct s).
  cbn [SortSliceByValue_rule].
  rewrite (index_lookup _ _ _ Hfirst), bind_Ok_l, Hh0.
  rewrite for_each_Panic; [done| |].
  - intros x _. unfold assert_Hasher. by destruct (object_Hash x).
  - destruct Hmixed as (x & Hx & Hnone). exists x. split; [done|].
    unfold assert_Hasher. by rewrite Hnone.
Qed.

Lemma SortSliceByValue_mixed_panics_witness :
  let s := [mk_object 1 (Some 11); mk_object 2 None] in
  s !! 0%nat = Some (mk_object 1 (Some 11)) ∧
  is_Some (object_Hash (mk_object 1 (Some 11))) ∧
  (∃ x, x ∈ s ∧ object_Hash x = None) ∧
  SortSliceByValue short_Sort zero_Sum128 (slice_other s) 12345 = Panic.
Proof.
  assert (is_Some (object_Hash (mk_object 1 (Some 11)))) as H1 by (by eexists).
  assert (∃ x, x ∈ [mk_object 1 (Some 11); mk_object 2 None] ∧
               object_Hash x = None) as H2.
  { exists (mk_object 2 None). split; [|reflexivity]. right. left. }
  split; [reflexivity|]. split; [exact H1|]. split; [exact H2|].
  exact (SortSliceByValue_mixed_panics short_Sort zero_Sum128
           [mk_object 1 (Some 11); mk_object 2 None] (mk_object 1 (Some 11))
           12345 eq_refl H1 H2).
Defined.

Lemma sortByRule_on_value v n r pos :
  slice_length v = Some n → sortByRule_positions n r = Ok pos →
  ∃ v', sortByRule value_swap (N.of_nat n) r v = Ok v' ∧
        value_rebuild v pos = Ok v'.
Proof.
  intros Hv Hpos.
  destruct v as [|k len|s|s|s]; simpl in Hv; try done; injection Hv as Hv.
  - rewrite (sortByRule_value slice_int) by done.
    destruct (sortByRule_as_rebuild n r pos s Hpos Hv) as (new & -> & Hnew).
    exists (slice_int new). simpl. by rewrite Hnew.
  - rewrite (sortByRule_value slice_string) by done.
    destruct (sortByRule_as_rebuild n r pos s Hpos Hv) as (new & -> & Hnew).
    exists (slice_string new). simpl. by rewrite Hnew.
  - rewrite (sortByRule_value slice_other) by done.
    destruct (sortByRule_as_rebuild n r pos s Hpos Hv) as (new & -> & Hnew).
    exists (slice_other new). simpl. by rewrite Hnew.
Qed.

Lemma value_rebuild_same_elements n pos v v' :
  is_permutation n pos → slice_length v = Some n →
  value_rebuild v pos = Ok v' → same_elements v v'.
Proof.
  intros Hpos Hv.
  destruct v as [|k len|s|s|s]; simpl in Hv; try done; injection Hv as Hv;
    simpl; intros (new & Hnew & [= <-])%bind_Ok;
    destruct (rebuild_direct_Permutation n pos s Hpos Hv) as (new' & Hnew' & Hp & _);
    rewrite Hnew in Hnew'; by injection Hnew' as <-.
Qed.

Lemma SortSliceByValue_rule_positions sort_Sort mmh3_Sum128 (rule : list uint64)
    (hash : uint64) :
  sort_Sort_contract sort_Sort →
  ∃ pos, is_permutation (length rule) pos ∧
    ∀ v, SortSliceByValue_rule mmh3_Sum128 v hash = Ok (Some rule) →
      ∃ v', SortSliceByValue sort_Sort mmh3_Sum128 v hash = Ok (None, v') ∧
            value_rebuild v pos = Ok v' ∧ same_elements v v'.
Proof.
  intros Hsort.
  destruct (SortByWeight_ranking sort_Sort rule hash Hsort) as (r & Hr & Hrank).
  apply ranking_is_permutation in Hrank.
  destruct (sortByRule_positions_total _ r Hrank) as (pos & Hpos & Hperm).
  exists pos. split; [done|]. intros v Hrule.
  destruct (SortSliceByValue_rule_length _ _ _ _ Hrule) as (Hv & HK & HS & HL).
  destruct (sortByRule_on_value v _ r pos Hv Hpos) as (v' & Hrun & Hre).
  exists v'. split; [|split; [done|by eapply value_rebuild_same_elements]].
  unfold SortSliceByValue.
  rewrite HK, bind_Ok_l, decide_False by (by intros []).
  rewrite HS, bind_Ok_l, HL, bind_Ok_l.
  case_decide as Hzero.
  - rewrite Hzero in Hrun. unfold sortByRule in Hrun. simpl in Hrun.
    by injection Hrun as <-.
  - by rewrite Hrule, bind_Ok_l, Hr, bind_Ok_l, Hrun.
Qed.

(** X11. The reordering SortSliceByValue applies is fixed by the weights of the
    elements and the key seed: for a list [rule] of weights there is one
    permutation [pos] of the positions such that every slice whose elements
    have these weights comes back, with a nil error, as
    [new[i] = old[pos[i]]]; it holds the same elements as before. *)
Theorem SortSliceByValue_by_rule sort_Sort mmh3_Sum128 (rule : list uint64)
    (hash : uint64) :
  sort_Sort_contract sort_Sort →
  ∃ pos, is_permutation (length rule) pos ∧
    ∀ v, SortSliceByValue_rule mmh3_Sum128 v hash = Ok (Some rule) →
      ∃ v', SortSliceByValue sort_Sort mmh3_Sum128 v hash = Ok (None, v') ∧
            value_rebuild v pos = Ok v' ∧ same_elements v v'.
Proof.
  intros Hsort.
  destruct (SortByWeight_ranking sort_Sort rule hash Hsort) as (r & Hr & Hrank).
  apply ranking_is_permutation in Hrank.
  destruct (sortByRule_positions_total _ r Hrank) as (pos & Hpos & Hperm).
  exists pos. split; [done|]. intros v Hrule.
  destruct (SortSliceByValue_rule_length _ _ _ _ Hrule) as (Hv & HK & HS & HL).
  destruct (sortByRule_on_value v _ r pos Hv Hpos) as (v' & Hrun & Hre).
  exists v'. split; [|split; [done|by eapply value_rebuild_same_elements]].
  unfold SortSliceByValue.
  rewrite HK, bind_Ok_l, decide_False by (by intros []).
  rewrite HS, bind_Ok_l, HL, bind_Ok_l.
  case_decide as Hzero.
  - rewrite Hzero in Hrun. unfold sortByRule in Hrun. simpl in Hrun.
    by injection Hrun as <-.
  - by rewrite Hrule, bind_Ok_l, Hr, bind_Ok_l, Hrun.
Qed.

Lemma SortSliceByValue_by_rule_witness :
  sort_Sort_contract short_Sort ∧
  ∃ pos, is_permutation (length [3; 1; 2]) pos ∧
    ∀ v, SortSliceByValue_rule zero_Sum128 v 5 = Ok (Some [3; 1; 2]) →
      ∃ v', SortSliceByValue short_Sort zero_Sum128 v 5 = Ok (None, v') ∧
            value_rebuild v pos = Ok v' ∧ same_elements v v'.
Proof.
  split; [exact short_Sort_contract|].
  exact (SortSliceByValue_by_rule short_Sort zero_Sum128 [3; 1; 2] 5
           short_Sort_contract).
Defined.

Lemma hashable_rule mmh3_Sum128 v hash n :
  hashable v → slice_length v = Some (S n) →
  ∃ rule, SortSliceByValue_rule mmh3_Sum128 v hash = Ok (Some rule).
Proof.
  intros Hh Hv. destruct v as [|k len|s|s|s]; simpl in Hv, Hh; try done.
  - by eexists.
  - by eexists.
  - destruct s as [|first s]; [done|]. simpl.
    pose proof Hh as [[h0 Hh0] _]%Forall_cons_1. rewrite Hh0.
    destruct (for_each_all_Ok
      (λ x, h ← assert_Hasher x; Ok (weight hash h)) (first :: s)) as [rule Hrule].
    { intros x Hx. rewrite list.Forall_forall in Hh.
      destruct (Hh x Hx) as [h Hx']. unfold assert_Hasher. rewrite Hx'.
      by eexists. }
    simpl in Hrule. rewrite Hrule. by eexists.
Qed.

(** X12. On every slice it can hash ([[]int], [[]string], or elements that all
    implement [Hasher]) SortSliceByValue returns a nil error and a slice of
    the same elements: it neither panics nor loses or duplicates an
    element. *)
Theorem SortSliceByValue_hashable sort_Sort mmh3_Sum128 (v : value)
    (hash : uint64) (n : nat) :
  sort_Sort_contract sort_Sort →
  hashable v → slice_length v = Some n →
  ∃ v', SortSliceByValue sort_Sort mmh3_Sum128 v hash = Ok (None, v') ∧
        same_elements v v' ∧ slice_length v' = Some n.
Proof.
  intros Hsort Hh Hv.
  assert (∀ v', same_elements v v' → slice_length v' = Some n) as Hlen.
  { intros v' Hsame.
    destruct v as [|k len|s|s|s], v' as [|k' len'|s'|s'|s']; simpl in *;
      try done; injection Hv as <-; by rewrite (Permutation_length Hsame). }
  destruct n as [|n].
  - exists v. rewrite SortSliceByValue_length_zero by done. split; [done|].
    split; [|done]. destruct v; simpl in *; done.
  - destruct (hashable_rule mmh3_Sum128 v hash n Hh Hv) as [rule Hrule].
    destruct (SortSliceByValue_rule_positions sort_Sort mmh3_Sum128 rule hash Hsort)
      as (pos & _ & Hpos).
    destruct (Hpos v Hrule) as (v' & ? & _ & ?).
    exists v'. split; [done|]. split; [done|]. by apply Hlen.
Qed.

Lemma SortSliceByValue_hashable_witness :
  sort_Sort_contract short_Sort ∧
  hashable (slice_int [3; 1; 2]%Z) ∧
  slice_length (slice_int [3; 1; 2]%Z) = Some 3%nat ∧
  ∃ v', SortSliceByValue short_Sort zero_Sum128 (slice_int [3; 1; 2]%Z) 5
        = Ok (None, v') ∧
        same_elements (slice_int [3; 1; 2]%Z) v' ∧ slice_length v' = Some 3%nat.
Proof.
  split; [exact short_Sort_contract|]. split; [exact I|]. split; [reflexivity|].
  exact (SortSliceByValue_hashable short_Sort zero_Sum128 (slice_int [3; 1; 2]%Z)
           5 3 short_Sort_contract I eq_refl).
Defined.

(** ** The two walks of the sibling revision undo each other *)

(** X13. For a permutation [rule], sortByRuleDirect after sortByRuleInverse with
    the same rule gives the sequence back, and so does sortByRuleInverse
    after sortByRuleDirect. *)
Theorem sortByRule_Direct_Inverse_round_trip {A} (n : nat) (rule : list uint64)
    (old : list A) :
  is_permutation n rule → length old = n →
  (∃ mid, sortByRuleInverse slice_swapper (N.of_nat n) rule old = Ok mid ∧
          sortByRuleDirect slice_swapper (N.of_nat n) rule mid = Ok old) ∧
  (∃ mid, sortByRuleDirect slice_swapper (N.of_nat n) rule old = Ok mid ∧
          sortByRuleInverse slice_swapper (N.of_nat n) rule mid = Ok old).
Proof.
  intros Hrule Hold. split.
  - destruct (sortByRuleInverse_spec n rule old Hrule Hold) as (mid & Hm & Hlm & Hmid).
    destruct (sortByRuleDirect_spec n rule mid Hrule Hlm) as (new & Hn & Hln & Hnew).
    exists mid. split; [done|]. rewrite Hn. f_equal.
    apply list_eq_same_length with n; [done..|].
    intros y a b Hy Ha Hb.
    destruct (is_permutation_surj n rule Hrule y Hy) as (x & Hx & <-).
    rewrite Hnew, Hmid in Ha by done. congruence.
  - destruct (sortByRuleDirect_spec n rule old Hrule Hold) as (mid & Hm & Hlm & Hmid).
    destruct (sortByRuleInverse_spec n rule mid Hrule Hlm) as (new & Hn & Hln & Hnew).
    exists mid. split; [done|]. rewrite Hn. f_equal.
    apply list_eq_same_length with n; [done..|].
    intros x a b Hx Ha Hb.
    rewrite Hnew, Hmid in Ha by done. congruence.
Qed.

Lemma sortByRule_Direct_Inverse_round_trip_witness :
  let rule := [4; 2; 0; 5; 3; 1] in
  let old := ["a"; "b"; "c"; "d"; "e"; "f"]%string in
  is_permutation 6 rule ∧ length old = 6%nat ∧
  (∃ mid, sortByRuleInverse slice_swapper (N.of_nat 6) rule old = Ok mid ∧
          sortByRuleDirect slice_swapper (N.of_nat 6) rule mid = Ok old) ∧
  (∃ mid, sortByRuleDirect slice_swapper (N.of_nat 6) rule old = Ok mid ∧
          sortByRuleInverse slice_swapper (N.of_nat 6) rule mid = Ok old).
Proof.
  assert (is_permutation 6 [4; 2; 0; 5; 3; 1]) as Hrule.
  { unfold is_permutation. simpl. solve_Permutation. }
  split; [exact Hrule|]. split; [reflexivity|].
  exact (sortByRule_Direct_Inverse_round_trip 6 [4; 2; 0; 5; 3; 1]
           ["a"; "b"; "c"; "d"; "e"; "f"]%string Hrule eq_refl).
Defined.

(** * The revision that reorders with sortByRuleInverse *)

Section simulation_inverse.
Context {M1 M2 : Type}.
Variables (swap1 : swapper M1) (swap2 : swapper M2) (R : M1 → M2 → Prop).
Hypothesis Hswap : ∀ i j m1 m2,
  R m1 m2 → outcome_rel R (swap1 i j m1) (swap2 i j m2).

Lemma sortByRuleInverse_inner_sim fuel : ∀ rule j done m1 m2,
  R m1 m2 →
  outcome_rel (λ x y, x.1 = y.1 ∧ R x.2 y.2)
    (sortByRuleInverse_inner fuel swap1 rule j done m1)
    (sortByRuleInverse_inner fuel swap2 rule j done m2).
Proof.
  induction fuel as [|fuel IH]; intros rule j done m1 m2 HR;
    cbn [sortByRuleInverse_inner]; [exact I|].
  destruct (index rule (N.to_nat j)) as [rj| |]; [|done..].
  rewrite !bind_Ok_l.
  destruct (index done (N.to_nat rj)) as [d| |]; [|done..].
  rewrite !bind_Ok_l. destruct d; [done|].
  pose proof (Hswap (N.to_nat j) (N.to_nat rj) m1 m2 HR) as Hsw.
  destruct (swap1 _ _ m1) as [m1'| |], (swap2 _ _ m2) as [m2'| |]; try done.
  rewrite !bind_Ok_l.
  destruct (store done (N.to_nat j) true) as [done'| |]; [|done..].
  rewrite !bind_Ok_l. by apply IH.
Qed.

Lemma sortByRuleInverse_outer_sim count : ∀ rule i done m1 m2,
  R m1 m2 →
  outcome_rel (λ x y, x.1 = y.1 ∧ R x.2 y.2)
    (sortByRuleInverse_outer count swap1 rule i done m1)
    (sortByRuleInverse_outer count swap2 rule i done m2).
Proof.
  induction count as [|count IH]; intros rule i done m1 m2 HR;
    cbn [sortByRuleInverse_outer]; [by split|].
  destruct (index done (N.to_nat i)) as [d| |]; [|done..].
  rewrite !bind_Ok_l. destruct d; [by apply IH|].
  pose proof (sortByRuleInverse_inner_sim (length done + 2) rule i done m1 m2 HR)
    as Hin.
  destruct (sortByRuleInverse_inner _ swap1 _ _ _ _) as [[d1 m1']| |],
           (sortByRuleInverse_inner _ swap2 _ _ _ _) as [[d2 m2']| |]; try done.
  destruct Hin as [Hd HR']. simpl in Hd, HR'. subst d2.
  rewrite !bind_Ok_l. by apply IH.
Qed.

Lemma sortByRuleInverse_sim length rule m1 m2 :
  R m1 m2 →
  outcome_rel R (sortByRuleInverse swap1 length rule m1)
                (sortByRuleInverse swap2 length rule m2).
Proof.
  intros HR. unfold sortByRuleInverse.
  pose proof (sortByRuleInverse_outer_sim (N.to_nat length) rule 0
                (replicate (N.to_nat length) false) m1 m2 HR) as Hout.
  destruct (sortByRuleInverse_outer _ swap1 _ _ _ _) as [[d1 m1']| |],
           (sortByRuleInverse_outer _ swap2 _ _ _ _) as [[d2 m2']| |]; try done.
  by destruct Hout as [_ HR'].
Qed.
End simulation_inverse.

Lemma sortByRuleInverse_value {X} (c : list X → value) length rule s :
  (∀ i j s, value_swap i j (c s) = exchange s i j ≫= λ s', Ok (c s')) →
  sortByRuleInverse value_swap length rule (c s)
  = sortByRuleInverse slice_swapper length rule s ≫= λ s', Ok (c s').
Proof.
  intros Hc.
  pose proof (sortByRuleInverse_sim value_swap slice_swapper (λ v s, v = c s))
    as Hsim.
  specialize (Hsim ltac:(
    intros i j ? s0 ->; rewrite Hc; unfold slice_swapper;
    by destruct (exchange s0 i j))).
  specialize (Hsim length rule (c s) s eq_refl).
  destruct (sortByRuleInverse value_swap length rule (c s)) as [v| |],
           (sortByRuleInverse slice_swapper length rule s) as [s'| |]; try done.
  simpl in Hsim. by subst v.
Qed.

Lemma sortByRuleInverse_as_rebuild {A} n rule (old : list A) :
  is_permutation n rule → length old = n →
  ∃ new, sortByRuleInverse slice_swapper (N.of_nat n) rule old = Ok new ∧
         rebuild_direct old rule = Ok new.
Proof.
  intros Hrule Hold.
  destruct (sortByRuleInverse_spec n rule old Hrule Hold) as (new & Hn & Hln & Hnew).
  exists new. split; [done|]. by eapply rebuild_direct_unique.
Qed.

Lemma sortByRuleInverse_on_value v n r :
  slice_length v = Some n → is_permutation n r →
  ∃ v', sortByRuleInverse value_swap (N.of_nat n) r v = Ok v' ∧
        value_rebuild v r = Ok v'.
Proof.
  intros Hv Hr.
  destruct v as [|k len|s|s|s]; simpl in Hv; try done; injection Hv as Hv.
  - rewrite (sortByRuleInverse_value slice_int) by done.
    destruct (sortByRuleInverse_as_rebuild n r s Hr Hv) as (new & -> & Hnew).
    exists (slice_int new). simpl. by rewrite Hnew.
  - rewrite (sortByRuleInverse_value slice_string) by done.
    destruct (sortByRuleInverse_as_rebuild n r s Hr Hv) as (new & -> & Hnew).
    exists (slice_string new). simpl. by rewrite Hnew.
  - rewrite (sortByRuleInverse_value slice_other) by done.
    destruct (sortByRuleInverse_as_rebuild n r s Hr Hv) as (new & -> & Hnew).
    exists (slice_other new). simpl. by rewrite Hnew.
Qed.

(** ** What its SortSliceByIndex and SortSliceByValue return *)

(** X14. Position [a] of the slice SortSliceByIndex of this revision leaves
    holds the element that was at the index SortByWeight ranks [a]-th: the
    result is the slice in ranked order, with the same elements. *)
Theorem inverse_SortSliceByIndex_ranked sort_Sort (v : value) (hash : uint64)
    (n : nat) :
  sort_Sort_contract sort_Sort → slice_length v = Some n →
  ∃ r v', SortByWeight sort_Sort (N.of_nat <$> seq 0 n) hash = Ok r ∧
    inverse_revision.SortSliceByIndex sort_Sort v hash = Ok v' ∧
    value_rebuild v r = Ok v' ∧ same_elements v v'.
Proof.
  intros Hsort Hv.
  destruct (slice_length_reflect v n Hv) as (HK & HS & HL).
  destruct (SortByWeight_ranking sort_Sort (N.of_nat <$> seq 0 n) hash Hsort)
    as (r & Hr & Hrank).
  apply ranking_is_permutation in Hrank.
  rewrite length_fmap, length_seq in Hrank.
  destruct (sortByRuleInverse_on_value v n r Hv Hrank) as (v' & Hrun & Hre).
  exists r, v'. split; [done|]. split; [|split; [done|]].
  - unfold inverse_revision.SortSliceByIndex.
    by rewrite HL, bind_Ok_l, HS, bind_Ok_l, Nat2N.id, Hr, bind_Ok_l.
  - by eapply value_rebuild_same_elements.
Qed.

Lemma inverse_SortSliceByIndex_ranked_witness :
  sort_Sort_contract short_Sort ∧
  slice_length (slice_string ["a"; "b"; "c"; "d"]) = Some 4%nat ∧
  ∃ r v', SortByWeight short_Sort (N.of_nat <$> seq 0 4) 7 = Ok r ∧
    inverse_revision.SortSliceByIndex short_Sort
      (slice_string ["a"; "b"; "c"; "d"]) 7 = Ok v' ∧
    value_rebuild (slice_string ["a"; "b"; "c"; "d"]) r = Ok v' ∧
    same_elements (slice_string ["a"; "b"; "c"; "d"]) v'.
Proof.
  split; [exact short_Sort_contract|]. split; [reflexivity|].
  exact (inverse_SortSliceByIndex_ranked short_Sort
           (slice_string ["a"; "b"; "c"; "d"]) 7 4 short_Sort_contract eq_refl).
Defined.

Lemma BigEndian_bytes_length v : length (BigEndian_bytes v) = 8%nat.
Proof. unfold BigEndian_bytes. by rewrite length_fmap, length_seq. Qed.

Lemma SortSliceByValue_ints_eq hash (s : list Z) : ∀ key rule,
  length key = 16%nat → drop 8 key = replicate 8 "000"%byte →
  inverse_revision.SortSliceByValue_ints hash key s rule
  = Ok (rule ++ (int_weight hash <$> s)).
Proof.
  induction s as [|x s IH]; intros key rule Hlen Hkey;
    cbn [inverse_revision.SortSliceByValue_ints].
  - by rewrite app_nil_r.
  - unfold BigEndian_PutUint64. rewrite decide_True by lia.
    rewrite bind_Ok_l, Hkey, IH.
    + rewrite <- app_assoc, fmap_cons. unfold int_weight. reflexivity.
    + by rewrite length_app, length_replicate,
        (BigEndian_bytes_length (uint64_of_int x)).
    + rewrite drop_app_length'; [done|].
      by rewrite (BigEndian_bytes_length (uint64_of_int x)).
Qed.

Lemma for_each_fmap {A B} (g : A → B) (s : list A) :
  for_each (λ x, Ok (g x)) s = Ok (g <$> s).
Proof.
  induction s as [|x s IH]; simpl; [done|]. by rewrite IH.
Qed.

Lemma for_each_rebuild {X B} (f : X → outcome B) (s s' : list X)
    (rule : list B) (r : list N) :
  for_each f s = Ok rule → rebuild_direct s r = Ok s' →
  ∃ rule', for_each f s' = Ok rule' ∧ rebuild_direct rule r = Ok rule'.
Proof.
  intros Hrule%for_each_Ok Hs'%for_each_Ok.
  induction Hs' as [|ri y r s' Hy _ IH].
  - by exists [].
  - destruct IH as (rule' & Hf & Hre).
    apply index_Ok in Hy.
    destruct (Forall2_lookup_l _ _ _ _ _ Hrule Hy) as (w & Hw & Hfy).
    exists (w :: rule'). simpl.
    rewrite Hfy, bind_Ok_l, Hf. split; [done|].
    unfold rebuild_direct in *. simpl.
    by rewrite (index_lookup _ _ _ Hw), bind_Ok_l, Hre.
Qed.

Lemma rebuild_direct_length {A} (old new : list A) r :
  rebuild_direct old r = Ok new → length new = length r.
Proof. intros H%for_each_Ok. by apply Forall2_length in H. Qed.

(** The weights of a reordered slice are the reordered weights. *)
Lemma inverse_rule_rebuild murmur3_Sum64 v v' hash rule r :
  inverse_revision.SortSliceByValue_rule murmur3_Sum64 v hash = Ok (Some rule) →
  value_rebuild v r = Ok v' → r ≠ [] →
  ∃ rule',
    inverse_revision.SortSliceByValue_rule murmur3_Sum64 v' hash = Ok (Some rule') ∧
    rebuild_direct rule r = Ok rule'.
Proof.
  intros Hrule Hre Hne.
  destruct v as [|k len|s|s|s]; simpl in Hrule, Hre; try done.
  - apply bind_Ok in Hre as (s' & Hs' & [= <-]). simpl.
    rewrite SortSliceByValue_ints_eq in Hrule |- * by done.
    rewrite bind_Ok_l in Hrule |- *. injection Hrule as <-. simpl.
    destruct (for_each_rebuild (λ x, Ok (int_weight hash x)) s s'
                (int_weight hash <$> s) r) as (rule' & Hf & Hr');
      [apply for_each_fmap|done|].
    rewrite for_each_fmap in Hf. injection Hf as <-. by eexists.
  - apply bind_Ok in Hre as (s' & Hs' & [= <-]). simpl.
    injection Hrule as <-.
    destruct (for_each_rebuild
                (λ x, Ok (weight hash (inverse_revision.Hash murmur3_Sum64 (bytes_of x))))
                s s' _ r (for_each_fmap _ s) Hs') as (rule' & Hf & Hr').
    rewrite for_each_fmap in Hf. injection Hf as <-. by eexists.
  - apply bind_Ok in Hre as (s' & Hs' & [= <-]). simpl.
    apply bind_Ok in Hrule as (first & _ & Hrule).
    destruct (object_Hash first); [|done].
    apply bind_Ok in Hrule as (rule0 & Hrule0 & [= <-]).
    destruct (for_each_rebuild _ s s' rule0 r Hrule0 Hs') as (rule' & Hf & Hr').
    exists rule'. split; [|done].
    destruct s' as [|y s'].
    { apply rebuild_direct_length in Hs'. by destruct r. }
    simpl in Hf |- *. unfold assert_Hasher in Hf |- *.
    destruct (object_Hash y) as [hy|]; [|done].
    simpl in Hf |- *. by rewrite Hf.
Qed.

Lemma inverse_rule_length murmur3_Sum64 v hash rule :
  inverse_revision.SortSliceByValue_rule murmur3_Sum64 v hash = Ok (Some rule) →
  slice_length v = Some (length rule).
Proof.
  destruct v as [|k len|s|s|s]; simpl; try done.
  - rewrite SortSliceByValue_ints_eq by done. rewrite bind_Ok_l.
    intros [= <-]. simpl. by rewrite length_fmap.
  - intros [= <-]. by rewrite length_fmap.
  - intros (first & _ & Hrest)%bind_Ok.
    destruct (object_Hash first); [|done].
    apply bind_Ok in Hrest as (rule' & Hrule & [= <-]).
    apply for_each_Ok, Forall2_length in Hrule. by rewrite Hrule.
Qed.

(** What the call does on a slice whose type switch gives [rule]. *)
Lemma inverse_SortSliceByValue_run sort_Sort murmur3_Sum64 v hash rule :
  sort_Sort_contract sort_Sort →
  inverse_revision.SortSliceByValue_rule murmur3_Sum64 v hash = Ok (Some rule) →
  ∃ r v' rule', ranking rule hash r ∧
    inverse_revision.SortSliceByValue sort_Sort murmur3_Sum64 v hash = Ok v' ∧
    value_rebuild v r = Ok v' ∧
    inverse_revision.SortSliceByValue_rule murmur3_Sum64 v' hash = Ok (Some rule') ∧
    rebuild_direct rule r = Ok rule'.
Proof.
  intros Hsort Hrule.
  pose proof (inverse_rule_length _ _ _ _ Hrule) as Hv.
  destruct (slice_length_reflect v _ Hv) as (HK & HS & HL).
  destruct (SortByWeight_ranking sort_Sort rule hash Hsort) as (r & Hr & Hrank).
  pose proof (ranking_is_permutation _ _ _ Hrank) as Hperm.
  destruct (sortByRuleInverse_on_value v _ r Hv Hperm) as (v' & Hrun & Hre).
  unfold inverse_revision.SortSliceByValue.
  rewrite HK, bind_Ok_l, decide_False by (by intros []).
  rewrite HS, bind_Ok_l, HL, bind_Ok_l.
  pose proof (ranking_length _ _ _ Hrank) as Hlr.
  case_decide as Hzero.
  - destruct r; [|by rewrite Hzero in Hlr].
    rewrite Hzero in Hrun. unfold sortByRuleInverse in Hrun. simpl in Hrun.
    injection Hrun as <-.
    exists [], v, rule. split; [done|]. split; [done|]. split; [done|].
    split; [done|]. by destruct rule.
  - destruct (inverse_rule_rebuild murmur3_Sum64 v v' hash rule r Hrule Hre)
      as (rule' & Hrule' & Hre').
    { intros ->. simpl in Hlr. lia. }
    exists r, v', rule'. rewrite Hrule, bind_Ok_l, Hr, bind_Ok_l. done.
Qed.

Lemma rebuild_direct_lookup {A} (old new : list A) r a y :
  rebuild_direct old r = Ok new → new !! a = Some y →
  ∃ i, r !! a = Some i ∧ old !! N.to_nat i = Some y.
Proof.
  intros Hre%for_each_Ok Hy.
  destruct (Forall2_lookup_r _ _ _ _ _ Hre Hy) as (i & Hi & Hidx).
  exists i. split; [done|]. by apply index_Ok.
Qed.

(** X15. SortSliceByValue of this revision sorts: the slice it leaves holds the
    same elements, and the weights the type switch gives them (each
    combined with the key seed once more, as SortByWeight does) ascend
    along it. *)
Theorem inverse_SortSliceByValue_sorts sort_Sort murmur3_Sum64 (v : value)
    (hash : uint64) (rule : list uint64) :
  sort_Sort_contract sort_Sort →
  inverse_revision.SortSliceByValue_rule murmur3_Sum64 v hash = Ok (Some rule) →
  ∃ v' rule',
    inverse_revision.SortSliceByValue sort_Sort murmur3_Sum64 v hash = Ok v' ∧
    same_elements v v' ∧
    inverse_revision.SortSliceByValue_rule murmur3_Sum64 v' hash = Ok (Some rule') ∧
    ∀ a b wa wb, (a < b)%nat → rule' !! a = Some wa → rule' !! b = Some wb →
      weight wa hash ≤ weight wb hash.
Proof.
  intros Hsort Hrule.
  destruct (inverse_SortSliceByValue_run sort_Sort murmur3_Sum64 v hash rule
              Hsort Hrule) as (r & v' & rule' & Hrank & Hrun & Hre & Hrule' & Hre').
  exists v', rule'. split; [done|]. split; [|split; [done|]].
  - eapply value_rebuild_same_elements; [|by eapply inverse_rule_length|done].
    by eapply ranking_is_permutation.
  - intros a b wa wb Hab Ha Hb.
    destruct (rebuild_direct_lookup _ _ _ _ _ Hre' Ha) as (i & Hi & Hwa).
    destruct (rebuild_direct_lookup _ _ _ _ _ Hre' Hb) as (j & Hj & Hwb).
    destruct Hrank as [_ Hasc]. by eapply (Hasc a b i j).
Qed.

Lemma inverse_SortSliceByValue_sorts_witness :
  let rule := [14749000641454969730; 8851629843756938194; 2752157054384268277] in
  sort_Sort_contract short_Sort ∧
  inverse_revision.SortSliceByValue_rule (λ _, 0) (slice_int [3; 1; 2]%Z) 5
  = Ok (Some rule) ∧
  ∃ v' rule',
    inverse_revision.SortSliceByValue short_Sort (λ _, 0) (slice_int [3; 1; 2]%Z) 5
    = Ok v' ∧
    same_elements (slice_int [3; 1; 2]%Z) v' ∧
    inverse_revision.SortSliceByValue_rule (λ _, 0) v' 5 = Ok (Some rule') ∧
    ∀ a b wa wb, (a < b)%nat → rule' !! a = Some wa → rule' !! b = Some wb →
      weight wa 5 ≤ weight wb 5.
Proof.
  intros rule.
  assert (inverse_revision.SortSliceByValue_rule (λ _, 0) (slice_int [3; 1; 2]%Z) 5
          = Ok (Some rule)) as Hrule by (vm_compute; reflexivity).
  split; [exact short_Sort_contract|]. split; [exact Hrule|].
  exact (inverse_SortSliceByValue_sorts short_Sort (λ _, 0)
           (slice_int [3; 1; 2]%Z) 5 rule short_Sort_contract Hrule).
Defined.

Lemma rebuild_direct_identity {A} (s : list A) :
  rebuild_direct s (N.of_nat <$> seq 0 (length s)) = Ok s.
Proof.
  assert (is_permutation (length s) (N.of_nat <$> seq 0 (length s))) as Hid
    by (unfold is_permutation; reflexivity).
  apply (rebuild_direct_unique (length s) _ s Hid s eq_refl).
  intros x Hx. unfold rule_at.
  rewrite list_lookup_fmap, lookup_seq_lt by done. simpl.
  by rewrite Nat2N.id.
Qed.

Lemma value_rebuild_identity v n :
  slice_length v = Some n → value_rebuild v (N.of_nat <$> seq 0 n) = Ok v.
Proof.
  destruct v as [|k len|s|s|s]; simpl; try done; intros [= <-];
    by rewrite rebuild_direct_identity.
Qed.

(** X16. A second call of SortSliceByValue of this revision changes nothing,
    when no two elements of the slice have the same weight: the slice the
    first call leaves is a fixed point. *)
Theorem inverse_SortSliceByValue_twice sort_Sort murmur3_Sum64 (v : value)
    (hash : uint64) (rule : list uint64) :
  sort_Sort_contract sort_Sort →
  inverse_revision.SortSliceByValue_rule murmur3_Sum64 v hash = Ok (Some rule) →
  (∀ a b wa wb, a ≠ b → rule !! a = Some wa → rule !! b = Some wb →
     weight wa hash ≠ weight wb hash) →
  ∃ v',
    inverse_revision.SortSliceByValue sort_Sort murmur3_Sum64 v hash = Ok v' ∧
    inverse_revision.SortSliceByValue sort_Sort murmur3_Sum64 v' hash = Ok v'.
Proof.
  intros Hsort Hrule Hdistinct.
  destruct (inverse_SortSliceByValue_run sort_Sort murmur3_Sum64 v hash rule
              Hsort Hrule) as (r & v' & rule' & Hrank & Hrun & Hre & Hrule' & Hre').
  exists v'. split; [done|].
  destruct (inverse_SortSliceByValue_run sort_Sort murmur3_Sum64 v' hash rule'
              Hsort Hrule') as (r2 & v2 & _ & Hrank2 & Hrun2 & Hre2 & _).
  rewrite Hrun2. f_equal.
  assert (r2 = N.of_nat <$> seq 0 (length rule')) as ->.
  { apply (ranking_ascending_identity rule' hash); [done|].
    intros a b wa wb Hab Ha Hb.
    destruct (rebuild_direct_lookup _ _ _ _ _ Hre' Ha) as (i & Hi & Hwa).
    destruct (rebuild_direct_lookup _ _ _ _ _ Hre' Hb) as (j & Hj & Hwb).
    assert (weight wa hash ≤ weight wb hash) as Hle.
    { destruct Hrank as [_ Hasc]. by eapply (Hasc a b i j). }
    assert (weight wa hash ≠ weight wb hash) as Hne; [|lia].
    apply (Hdistinct (N.to_nat i) (N.to_nat j)); [|done..].
    intros Hij. apply N2Nat.inj in Hij. subst j.
    assert (NoDup r) as Hnd.
    { destruct Hrank as [-> _]. apply NoDup_fmap_2; [|apply NoDup_seq].
      intros x y. lia. }
    pose proof (NoDup_lookup _ _ _ _ Hnd Hi Hj). lia. }
  rewrite value_rebuild_identity in Hre2; [by injection Hre2|].
  by eapply inverse_rule_length.
Qed.

Lemma inverse_SortSliceByValue_twice_witness :
  let rule := [14749000641454969730; 8851629843756938194; 2752157054384268277] in
  sort_Sort_contract short_Sort ∧
  inverse_revision.SortSliceByValue_rule (λ _, 0) (slice_int [3; 1; 2]%Z) 5
  = Ok (Some rule) ∧
  (∀ a b wa wb, a ≠ b → rule !! a = Some wa → rule !! b = Some wb →
     weight wa 5 ≠ weight wb 5) ∧
  ∃ v',
    inverse_revision.SortSliceByValue short_Sort (λ _, 0) (slice_int [3; 1; 2]%Z) 5
    = Ok v' ∧
    inverse_revision.SortSliceByValue short_Sort (λ _, 0) v' 5 = Ok v'.
Proof.
  intros rule.
  assert (inverse_revision.SortSliceByValue_rule (λ _, 0) (slice_int [3; 1; 2]%Z) 5
          = Ok (Some rule)) as Hrule by (vm_compute; reflexivity).
  assert (∀ a b wa wb, a ≠ b → rule !! a = Some wa → rule !! b = Some wb →
            weight wa 5 ≠ weight wb 5) as Hdistinct.
  { intros a b wa wb Hab Ha Hb.
    destruct a as [|[|[|a]]]; simpl in Ha; try discriminate Ha;
      injection Ha as <-;
      (destruct b as [|[|[|b]]]; simpl in Hb; try discriminate Hb;
       injection Hb as <-);
      first [exfalso; apply Hab; reflexivity | vm_compute; discriminate]. }
  split; [exact short_Sort_contract|]. split; [exact Hrule|].
  split; [exact Hdistinct|].
  exact (inverse_SortSliceByValue_twice short_Sort (λ _, 0)
           (slice_int [3; 1; 2]%Z) 5 rule short_Sort_contract Hrule Hdistinct).
Defined.

(** * The revision with the modulus [m64] and FNV hashing *)

(** ** The tests of the repository

    The expected slices are those of the test file of this revision
    (src/unnamed/part_000, lines 389-550); sort.Sort is run as [short_Sort],
    the path the library takes for the six elements of each test. *)

Example fnv_TestSortSliceByIndex :
  fnv_revision.SortSliceByIndex short_Sort
    (slice_string ["a"; "b"; "c"; "d"; "e"; "f"])
    (fnv_revision.hash fnv_revision.testKey)
  = Ok (slice_string ["e"; "a"; "c"; "d"; "b"; "f"]).
Proof. vm_compute. reflexivity. Qed.

Example fnv_TestSortSliceByValue :
  fnv_revision.SortSliceByValue short_Sort
    (slice_string ["a"; "b"; "c"; "d"; "e"; "f"])
    (fnv_revision.hash fnv_revision.testKey)
  = Ok (None, slice_string ["e"; "b"; "c"; "d"; "f"; "a"]).
Proof. vm_compute. reflexivity. Qed.

Example fnv_TestSortSliceByValueHasher :
  fnv_revision.SortSliceByValue short_Sort
    (fnv_revision.hashStrings ["a"; "b"; "c"; "d"; "e"; "f"])
    (fnv_revision.hash fnv_revision.testKey)
  = Ok (None, fnv_revision.hashStrings ["e"; "d"; "c"; "a"; "b"; "f"]).
Proof. vm_compute. reflexivity. Qed.

Example fnv_TestSortSliceByValueIntSlice :
  fnv_revision.SortSliceByValue short_Sort (slice_int [0; 1; 2; 3; 4; 5]%Z)
    (fnv_revision.hash fnv_revision.testKey)
  = Ok (None, slice_int [2; 0; 5; 3; 4; 1]%Z).
Proof. vm_compute. reflexivity. Qed.

Example fnv_Example :
  fnv_revision.SortSliceByValue short_Sort
    (slice_string ["one.example.com"; "two.example.com"; "three.example.com";
                   "four.example.com"; "five.example.com"; "six.example.com"])
    (fnv_revision.hash (bytes_of "/examples/object-key"))
  = Ok (None,
        slice_string ["six.example.com"; "one.example.com"; "three.example.com";
                      "four.example.com"; "five.example.com"; "two.example.com"]).
Proof. vm_compute. reflexivity. Qed.

Example fnv_TestSortSliceByValueFail :
  fnv_revision.SortSliceByValue short_Sort (slice_int [])
    (fnv_revision.hash fnv_revision.testKey) = Ok (None, slice_int []) ∧
  fnv_revision.SortSliceByValue short_Sort (non_slice reflect.Int None)
    (fnv_revision.hash fnv_revision.testKey)
  = Ok (Some (errors_New "must be slice"), non_slice reflect.Int None) ∧
  fnv_revision.SortSliceByValue short_Sort
    (slice_other ((λ b, mk_object b None) <$> [1; 2; 3; 4; 5]))
    (fnv_revision.hash fnv_revision.testKey)
  = Ok (Some (errors_New "unknown type"),
        slice_other ((λ b, mk_object b None) <$> [1; 2; 3; 4; 5])).
Proof. repeat split; vm_compute; reflexivity. Qed.

(** ** The modulus costs weight its injectivity *)

(** X17. In this revision the weight of a node is zero not only when its
    identifier equals the key seed: the identifier that differs from the
    seed by the constant below has weight zero as well, so the two tie for
    the first rank.  (The first multiplication sends that difference to
    [2^64-1], which [% m64] turns into 0.) *)
Theorem fnv_weight_zero_twice (x : uint64) :
  x < 2 ^ 64 →
  let y := N.lxor x 12721469326534599042 in
  y < 2 ^ 64 ∧ y ≠ x ∧
  fnv_revision.weight y x = 0 ∧ fnv_revision.weight x x = 0.
Proof.
  intros Hx y. split; [|split; [|split]].
  - apply lxor_lt_pow2; [done|]. by vm_compute.
  - unfold y. intros Heq.
    assert (N.lxor x (N.lxor x 12721469326534599042) = N.lxor x x) as Hz
      by (by rewrite Heq).
    rewrite <- N.lxor_assoc, N.lxor_nilpotent, N.lxor_0_l in Hz. discriminate Hz.
  - assert (N.lxor y x = 12721469326534599042) as Hz.
    { unfold y.
      by rewrite (N.lxor_comm x), N.lxor_assoc, N.lxor_nilpotent, N.lxor_0_r. }
    unfold fnv_revision.weight. rewrite Hz. vm_compute. reflexivity.
  - unfold fnv_revision.weight. rewrite N.lxor_nilpotent.
    vm_compute. reflexivity.
Qed.

Lemma fnv_weight_zero_twice_witness :
  7 < 2 ^ 64 ∧
  let y := N.lxor 7 12721469326534599042 in
  y < 2 ^ 64 ∧ y ≠ 7 ∧
  fnv_revision.weight y 7 = 0 ∧ fnv_revision.weight 7 7 = 0.
Proof.
  assert (7 < 2 ^ 64) as H7 by (by vm_compute).
  split; [exact H7|]. exact (fnv_weight_zero_twice 7 H7).
Defined.

(** * More on the entry points *)

(** X18. SortSliceByIndex (hrw.go) returns on every slice, and the slice it
    leaves has the same elements, each as often as before. *)
Theorem SortSliceByIndex_same_elements sort_Sort (v : value) (hash : uint64)
    (n : nat) :
  sort_Sort_contract sort_Sort → slice_length v = Some n →
  ∃ v', SortSliceByIndex sort_Sort v hash = Ok v' ∧
        same_elements v v' ∧ slice_length v' = Some n.
Proof.
  intros Hsort Hv.
  destruct (SortSliceByIndex_positions sort_Sort n hash Hsort)
    as (pos & Hperm & Hall).
  destruct (Hall v Hv) as (v' & Hrun & Hre & Hlen).
  exists v'. split; [done|]. split; [|done].
  by eapply value_rebuild_same_elements.
Qed.

Lemma SortSliceByIndex_same_elements_witness :
  sort_Sort_contract short_Sort ∧
  slice_length (slice_int [7; 7; 9; 4]%Z) = Some 4%nat ∧
  ∃ v', SortSliceByIndex short_Sort (slice_int [7; 7; 9; 4]%Z) 11 = Ok v' ∧
        same_elements (slice_int [7; 7; 9; 4]%Z) v' ∧
        slice_length v' = Some 4%nat.
Proof.
  split; [exact short_Sort_contract|]. split; [reflexivity|].
  exact (SortSliceByIndex_same_elements short_Sort (slice_int [7; 7; 9; 4]%Z)
           11 4 short_Sort_contract eq_refl).
Defined.

(** X19. Hash (hrw.go) keeps of the 128-bit digest exactly the xor of its two
    words: two keys get the same hash if and only if the xor of the two
    digest words is the same for both. *)
Theorem Hash_equal_iff (mmh3_Sum128 : list byte → uint64 * uint64)
    (key1 key2 : list byte) :
  (∀ key, (mmh3_Sum128 key).1 < 2 ^ 64 ∧ (mmh3_Sum128 key).2 < 2 ^ 64) →
  Hash mmh3_Sum128 key1 = Hash mmh3_Sum128 key2 ↔
  N.lxor (mmh3_Sum128 key1).1 (mmh3_Sum128 key1).2
  = N.lxor (mmh3_Sum128 key2).1 (mmh3_Sum128 key2).2.
Proof.
  intros Hdigest. unfold Hash. rewrite !weight_fmix64.
  destruct (Hdigest key1) as [H11 H12], (Hdigest key2) as [H21 H22].
  split; [|by intros ->].
  apply fmix64_inj; by apply lxor_lt_pow2.
Qed.

Lemma Hash_equal_iff_witness :
  let digest (key : list byte) : uint64 * uint64 :=
    (match key with [] => 1 | _ => 2 end, 3) in
  (∀ key, (digest key).1 < 2 ^ 64 ∧ (digest key).2 < 2 ^ 64) ∧
  (Hash digest [] = Hash digest ["000"%byte] ↔
   N.lxor (digest []).1 (digest []).2
   = N.lxor (digest ["000"%byte]).1 (digest ["000"%byte]).2).
Proof.
  intros digest.
  assert (∀ key, (digest key).1 < 2 ^ 64 ∧ (digest key).2 < 2 ^ 64) as Hdigest.
  { intros key. destruct key; split; by vm_compute. }
  split; [exact Hdigest|].
  exact (Hash_equal_iff digest [] ["000"%byte] Hdigest).
Defined.

(** ** The revision that reorders with sortByRuleInverse, continued *)

(** X20. In the [[]int] case of this revision all elements are written into one
    16-byte key, one after the other; the write never panics, and the
    weight an element gets depends on that element alone. *)
Theorem inverse_int_rule_elementwise murmur3_Sum64 (s : list Z) (hash : uint64) :
  inverse_revision.SortSliceByValue_rule murmur3_Sum64 (slice_int s) hash
  = Ok (Some (int_weight hash <$> s)).
Proof.
  cbn [inverse_revision.SortSliceByValue_rule].
  by rewrite SortSliceByValue_ints_eq.
Qed.

(** X21. Where SortSliceByValue of hrw.go returns an error, the one of this
    revision returns without a word: a value that is not a slice, or a
    slice whose first element is no int, no string and no [Hasher], comes
    back as it was. *)
Theorem inverse_SortSliceByValue_unsupported sort_Sort murmur3_Sum64
    (mmh3_Sum128 : list byte → uint64 * uint64) (v : value) (hash : uint64) :
  unsupported v →
  inverse_revision.SortSliceByValue sort_Sort murmur3_Sum64 v hash = Ok v ∧
  ∃ err, SortSliceByValue sort_Sort mmh3_Sum128 v hash = Ok (Some err, v).
Proof.
  intros Hv. destruct v as [|k len|s|s|[|first s]]; simpl in Hv; try done.
  - split.
    + unfold inverse_revision.SortSliceByValue. cbn [reflect_TypeOf_Kind].
      by rewrite bind_Ok_l, decide_True.
    + eexists. by apply SortSliceByValue_must_be_slice.
  - split.
    + unfold inverse_revision.SortSliceByValue.
      cbn [reflect_TypeOf_Kind reflect_Swapper reflect_ValueOf_Len].
      rewrite bind_Ok_l, decide_False by (by intros []).
      rewrite !bind_Ok_l. rewrite decide_False by done.
      cbn [inverse_revision.SortSliceByValue_rule index].
      simpl. by rewrite Hv.
    + eexists. by apply SortSliceByValue_first_not_Hasher with first.
Qed.

Lemma inverse_SortSliceByValue_unsupported_witness :
  let v := slice_other [mk_object 1 None; mk_object 2 (Some 5)] in
  unsupported v ∧
  inverse_revision.SortSliceByValue short_Sort (λ _, 0) v 9 = Ok v ∧
  ∃ err, SortSliceByValue short_Sort zero_Sum128 v 9 = Ok (Some err, v).
Proof.
  intros v. split; [reflexivity|].
  exact (inverse_SortSliceByValue_unsupported short_Sort (λ _, 0) zero_Sum128
           v 9 eq_refl).
Defined.

(** * The element sortByRule puts first *)

Section first.
Context {A : Type}.
Variables (n : nat) (rule : list N) (old : list A).
Hypothesis Hrule : is_permutation n rule.

Local Abbreviation r := (rule_at rule).

(** The walk from index 0: position 0 holds the element of the position
    before [j], and the walk ends when [rule[j]] is 0 again. *)
Lemma sortByRule_inner_first fuel : ∀ j done m done' m',
  length done = n → length m = n → (j < n)%nat →
  is_done done 0 = true →
  (∃ prev, (prev < n)%nat ∧ r prev = j ∧ m !! 0%nat = old !! prev ∧
           is_done done prev = true) →
  (∀ x, (x < n)%nat → is_done done x = true → x ≠ 0%nat →
     ∃ y, (y < n)%nat ∧ is_done done y = true ∧ r y = x) →
  (is_done done j = false ∨ j = 0%nat ∧ r 0 = 0%nat) →
  (∀ x, (x < n)%nat → is_done done x = false → m !! x = old !! x) →
  (j = r 0 ∨ is_done done (r 0) = true) →
  sortByRule_inner fuel slice_swapper rule 0 (N.of_nat j) done m = Ok (done', m') →
  length done' = n ∧ length m' = n ∧ is_done done' 0 = true ∧
  (∃ q, (q < n)%nat ∧ r (r q) = 0%nat ∧ m' !! 0%nat = old !! q) ∧
  (is_done done' (r 0) = true ∨ r (r 0) = 0%nat).
Proof.
  induction fuel as [|fuel IH];
    intros j done m done' m' Hld Hlm Hj H0 (prev & Hprev & Hrp & Hm0 & Hdp)
      Hclosed Hj' Hrest Hfirst Hrun; cbn [sortByRule_inner] in Hrun;
    [discriminate Hrun|].
  destruct (is_permutation_lookup n rule Hrule j Hj) as [Hlj Hrj].
  rewrite Nat2N.id, (index_lookup _ _ _ Hlj), bind_Ok_l, Nat2N.id in Hrun.
  rewrite index_is_done, bind_Ok_l in Hrun by lia.
  destruct (is_done done (r j)) eqn:Hd.
  - injection Hrun as <- <-.
    assert (r j = 0%nat) as Hrj0.
    { destruct (decide (r j = 0%nat)) as [|Hne]; [done|].
      destruct (Hclosed (r j) Hrj Hd Hne) as (y & Hy & Hdy & Hry).
      apply (is_permutation_inj n rule Hrule) in Hry; [|done..]. subst y.
      destruct Hj' as [Hj'|[-> ?]]; congruence. }
    split; [done|]. split; [done|]. split; [done|]. split.
    + exists prev. split; [done|]. by rewrite Hrp.
    + destruct Hfirst as [->|?]; [by right|by left].
  - assert (is_done done j = false) as Hdj.
    { destruct Hj' as [?|[-> H00]]; [done|]. rewrite H00 in Hd. congruence. }
    assert (j ≠ 0%nat) as Hj0 by (intros ->; congruence).
    assert (r j ≠ j) as Hfix.
    { intros Heq. assert (r prev = r j) as Hinj by congruence.
      apply (is_permutation_inj n rule Hrule) in Hinj; [|done..]. congruence. }
    change (slice_swapper (N.to_nat 0) j m) with (exchange m 0 j) in Hrun.
    destruct (exchange_lookup m 0 j) as (m1 & Hex & Hlm1 & Hm1); [lia..|].
    rewrite Hex, bind_Ok_l, store_Ok, bind_Ok_l in Hrun by lia.
    apply (IH (r j) (<[j:=true]> done) m1 done' m'); try done.
    + by rewrite length_insert.
    + lia.
    + rewrite is_done_insert by lia. by case_decide.
    + exists j. split; [done|]. split; [done|]. split.
      * rewrite Hm1, decide_True by done. by apply Hrest.
      * rewrite is_done_insert by lia. by rewrite decide_True.
    + intros x Hx Hdx Hx0. rewrite is_done_insert in Hdx by lia.
      case_decide as Hxj.
      * subst x. exists prev. split; [done|]. split; [|done].
        rewrite is_done_insert by lia. by case_decide.
      * destruct (Hclosed x Hx Hdx Hx0) as (y & Hy & Hdy & Hry).
        exists y. split; [done|]. split; [|done].
        rewrite is_done_insert by lia. by case_decide.
    + left. rewrite is_done_insert by lia. by rewrite decide_False.
    + intros x Hx Hdx. rewrite is_done_insert in Hdx by lia.
      case_decide as Hxj; [done|].
      assert (x ≠ 0%nat) as Hx0 by (intros ->; congruence).
      rewrite Hm1, decide_False, decide_False by done. by apply Hrest.
    + right. rewrite is_done_insert by lia. case_decide; [done|].
      destruct Hfirst as [?|?]; [congruence|done].
Qed.

(** A later walk, from an index [i] above 0, leaves position 0 alone. *)
Lemma sortByRule_inner_later fuel (x0 : option A) : ∀ i j done m done' m',
  (0 < i)%nat → (i < n)%nat → (j < n)%nat →
  length done = n → length m = n →
  is_done done 0 = true → m !! 0%nat = x0 →
  (is_done done (r 0) = true ∨ r (r 0) = 0%nat) →
  (∃ q, (q < n)%nat ∧ is_done done q = true ∧ r q = j) →
  sortByRule_inner fuel slice_swapper rule (N.of_nat i) (N.of_nat j) done m
  = Ok (done', m') →
  length done' = n ∧ length m' = n ∧ is_done done' 0 = true ∧
  m' !! 0%nat = x0 ∧ (is_done done' (r 0) = true ∨ r (r 0) = 0%nat).
Proof.
  induction fuel as [|fuel IH];
    intros i j done m done' m' Hi Hin Hj Hld Hlm H0 Hm0 Hfirst
      (q & Hq & Hdq & Hrq) Hrun; cbn [sortByRule_inner] in Hrun;
    [discriminate Hrun|].
  destruct (is_permutation_lookup n rule Hrule j Hj) as [Hlj Hrj].
  rewrite !Nat2N.id, (index_lookup _ _ _ Hlj), bind_Ok_l, !Nat2N.id in Hrun.
  rewrite index_is_done, bind_Ok_l in Hrun by lia.
  destruct (is_done done (r j)) eqn:Hd.
  - by injection Hrun as <- <-.
  - assert (j ≠ 0%nat) as Hj0.
    { intros ->. destruct Hfirst as [?|Hrr]; [congruence|].
      assert (r q = r (r 0)) as Hinj by congruence.
      destruct (is_permutation_lookup n rule Hrule 0) as [_ Hr0]; [lia|].
      apply (is_permutation_inj n rule Hrule) in Hinj; [|done..].
      congruence. }
    change (slice_swapper i j m) with (exchange m i j) in Hrun.
    destruct (exchange_lookup m i j) as (m1 & Hex & Hlm1 & Hm1); [lia..|].
    rewrite Hex, bind_Ok_l, store_Ok, bind_Ok_l in Hrun by lia.
    apply (IH i (r j) (<[j:=true]> done) m1 done' m'); try done.
    + by rewrite length_insert.
    + lia.
    + rewrite is_done_insert by lia. by case_decide.
    + rewrite Hm1, decide_False, decide_False by lia. done.
    + destruct Hfirst as [?|?]; [left|by right].
      rewrite is_done_insert by lia. by case_decide.
    + exists j. split; [done|]. split; [|done].
      rewrite is_done_insert by lia. by rewrite decide_True.
Qed.

Lemma sortByRule_outer_later (x0 : option A) count : ∀ i done m done' m',
  (0 < i)%nat → (i + count = n)%nat →
  length done = n → length m = n →
  is_done done 0 = true → m !! 0%nat = x0 →
  (is_done done (r 0) = true ∨ r (r 0) = 0%nat) →
  sortByRule_outer count slice_swapper rule (N.of_nat i) done m = Ok (done', m') →
  m' !! 0%nat = x0.
Proof.
  induction count as [|count IH];
    intros i done m done' m' Hi Hcount Hld Hlm H0 Hm0 Hfirst Hrun;
    cbn [sortByRule_outer] in Hrun.
  - by injection Hrun as <- <-.
  - assert (i < n)%nat as Hin by lia.
    rewrite Nat2N.id, index_is_done, bind_Ok_l in Hrun by lia.
    replace (N.of_nat i + 1) with (N.of_nat (S i)) in Hrun by lia.
    destruct (is_done done i) eqn:Hdi.
    + apply (IH (S i) done m done' m'); (done || lia).
    + rewrite store_Ok, bind_Ok_l in Hrun by lia.
      destruct (is_permutation_lookup n rule Hrule i Hin) as [Hli Hri].
      rewrite (index_lookup _ _ _ Hli), bind_Ok_l in Hrun.
      apply bind_Ok in Hrun as ([done1 m1] & Hinner & Hrun).
      apply (sortByRule_inner_later _ x0) in Hinner
        as (Hld1 & Hlm1 & H01 & Hm01 & Hfirst1); try (done || lia).
      * apply (IH (S i) done1 m1 done' m'); (done || lia).
      * by rewrite length_insert.
      * rewrite is_done_insert by lia. by case_decide.
      * destruct Hfirst as [?|?]; [left|by right].
        rewrite is_done_insert by lia. by case_decide.
      * exists i. split; [done|]. split; [|done].
        rewrite is_done_insert by lia. by rewrite decide_True.
Qed.

Lemma sortByRule_first_of p new :
  length old = n → (p < n)%nat → r (r p) = 0%nat →
  sortByRule slice_swapper (N.of_nat n) rule old = Ok new →
  new !! 0%nat = old !! p.
Proof.
  intros Hold Hp Hpp Hrun.
  unfold sortByRule in Hrun. rewrite Nat2N.id in Hrun.
  apply bind_Ok in Hrun as ([done' m'] & Hrun & [= ->]).
  assert (∃ count, n = S count) as [count Hcount]
    by (exists (n - 1)%nat; lia).
  rewrite Hcount in Hrun at 1. cbn [sortByRule_outer] in Hrun.
  assert (0 < n)%nat as Hn by lia.
  destruct (is_permutation_lookup n rule Hrule 0 Hn) as [Hl0 Hr0].
  change (N.to_nat 0) with 0%nat in Hrun.
  rewrite index_is_done, is_done_replicate, bind_Ok_l in Hrun
    by (rewrite length_replicate; lia).
  rewrite store_Ok, bind_Ok_l in Hrun by (rewrite length_replicate; lia).
  rewrite (index_lookup _ _ _ Hl0), bind_Ok_l in Hrun.
  apply bind_Ok in Hrun as ([done1 m1] & Hinner & Hrun).
  assert (length (<[0%nat:=true]> (replicate n false)) = n) as Hld
    by (by rewrite length_insert, length_replicate).
  assert (∀ x, is_done (<[0%nat:=true]> (replicate n false)) x
               = if decide (x = 0%nat) then true else false) as Hdone.
  { intros x. rewrite is_done_insert by (rewrite length_replicate; lia).
    case_decide; [done|]. apply is_done_replicate. }
  apply sortByRule_inner_first in Hinner
    as (Hld1 & Hlm1 & H01 & (q & Hq & Hqq & Hm1) & Hfirst1); try done.
  - assert (q = p) as ->.
    { destruct (is_permutation_lookup n rule Hrule q Hq) as [_ Hrq].
      destruct (is_permutation_lookup n rule Hrule p Hp) as [_ Hrp].
      assert (r (r q) = r (r p)) as Hinj by congruence.
      apply (is_permutation_inj n rule Hrule) in Hinj; [|done..].
      by apply (is_permutation_inj n rule Hrule) in Hinj. }
    change (0 + 1) with (N.of_nat 1) in Hrun.
    by apply (sortByRule_outer_later (old !! p)) in Hrun; try (done || lia).
  - exists 0%nat. split; [done|]. split; [done|]. split; [done|].
    by rewrite Hdone.
  - intros x Hx Hdx Hx0. rewrite Hdone, decide_False in Hdx by done. done.
  - destruct (decide (r 0 = 0%nat)) as [H00|H00]; [by right|].
    left. by rewrite Hdone, decide_False.
  - by left.
Qed.
End first.

(** X22. For a permutation [rule], sortByRule leaves at position 0 the element
    of the position [p] with [rule[rule[p]] = 0]: neither [old[rule[0]]] nor
    the element [rule] sends to 0, but the one two steps before 0 on the
    cycle of 0. *)
Theorem sortByRule_first {A} (n : nat) (rule : list uint64) (old : list A)
    (p : nat) :
  is_permutation n rule → length old = n →
  (p < n)%nat → rule_at rule (rule_at rule p) = 0%nat →
  ∃ new, sortByRule slice_swapper (N.of_nat n) rule old = Ok new ∧
         length new = n ∧ new !! 0%nat = old !! p.
Proof.
  intros Hrule Hold Hp Hpp.
  destruct (sortByRule_total n rule Hrule old Hold) as (new & Hrun & Hlen).
  exists new. split; [done|]. split; [done|].
  by apply (sortByRule_first_of n rule old Hrule p).
Qed.

Lemma sortByRule_first_witness :
  let rule := [4; 2; 0; 5; 3; 1] in
  let old := ["a"; "b"; "c"; "d"; "e"; "f"]%string in
  is_permutation 6 rule ∧ length old = 6%nat ∧
  (1 < 6)%nat ∧ rule_at rule (rule_at rule 1) = 0%nat ∧
  ∃ new, sortByRule slice_swapper (N.of_nat 6) rule old = Ok new ∧
         length new = 6%nat ∧ new !! 0%nat = old !! 1%nat.
Proof.
  intros rule old.
  assert (is_permutation 6 rule) as H1.
  { unfold is_permutation. simpl. solve_Permutation. }
  assert (1 < 6)%nat as H2 by lia.
  split; [exact H1|]. split; [reflexivity|]. split; [exact H2|].
  split; [reflexivity|].
  exact (sortByRule_first 6 rule old 1 H1 eq_refl H2 eq_refl).
Defined.

(** X23. The element SortSliceByValue (hrw.go) puts first is the one of index
    [p] with [r[r[p]] = 0], for the ranking [r] that SortByWeight returns for
    the weights of the elements.  The element of least weight is the one of
    index [r[0]]; it comes first exactly when [r[r[r[0]]] = 0]. *)
Theorem SortSliceByValue_first sort_Sort mmh3_Sum128 (v : value)
    (hash : uint64) (rule : list uint64) :
  sort_Sort_contract sort_Sort →
  SortSliceByValue_rule mmh3_Sum128 v hash = Ok (Some rule) → rule ≠ [] →
  ∃ r p pos v',
    SortByWeight sort_Sort rule hash = Ok r ∧
    (p < length rule)%nat ∧ rule_at r (rule_at r p) = 0%nat ∧
    SortSliceByValue sort_Sort mmh3_Sum128 v hash = Ok (None, v') ∧
    value_rebuild v pos = Ok v' ∧ pos !! 0%nat = Some (N.of_nat p) ∧
    (p = rule_at r 0 ↔ rule_at r (rule_at r (rule_at r 0)) = 0%nat).
Proof.
  intros Hsort Hrule Hne.
  destruct (SortByWeight_ranking sort_Sort rule hash Hsort) as (r & Hr & Hrank).
  apply ranking_is_permutation in Hrank.
  assert (0 < length rule)%nat as Hn by (destruct rule; [done|simpl; lia]).
  destruct (is_permutation_surj _ r Hrank 0 Hn) as (q & Hq & Hrq).
  destruct (is_permutation_surj _ r Hrank q Hq) as (p & Hp & Hrp).
  destruct (sortByRule_positions_total _ r Hrank) as (pos & Hpos & Hperm).
  pose proof (sortByRule_first_of _ r (N.of_nat <$> seq 0 (length rule))
                Hrank p pos) as Hfirst.
  rewrite length_fmap, length_seq, Hrp in Hfirst.
  specialize (Hfirst eq_refl Hp Hrq Hpos).
  rewrite list_lookup_fmap, lookup_seq_lt in Hfirst by done.
  destruct (SortSliceByValue_rule_length _ _ _ _ Hrule) as (Hv & HK & HS & HL).
  destruct (sortByRule_on_value v _ r pos Hv Hpos) as (v' & Hrun & Hre).
  exists r, p, pos, v'. split; [done|]. split; [done|].
  split; [by rewrite Hrp|]. split; [|split; [done|split; [done|]]].
  - unfold SortSliceByValue.
    rewrite HK, bind_Ok_l, decide_False by (by intros []).
    rewrite HS, bind_Ok_l, HL, bind_Ok_l, decide_False by lia.
    by rewrite Hrule, bind_Ok_l, Hr, bind_Ok_l, Hrun.
  - destruct (is_permutation_lookup _ r Hrank 0 Hn) as [_ Hr0].
    destruct (is_permutation_lookup _ r Hrank _ Hr0) as [_ Hrr0].
    split.
    + intros ->. by rewrite Hrp.
    + intros Hrrr.
      assert (rule_at r (rule_at r (rule_at r 0)) = rule_at r (rule_at r p))
        as Hinj by (rewrite Hrp; congruence).
      apply (is_permutation_inj _ r Hrank) in Hinj; [|done|by rewrite Hrp].
      apply (is_permutation_inj _ r Hrank) in Hinj; done.
Qed.

Lemma SortSliceByValue_first_witness :
  let v := hashers [10; 20; 30; 40] in
  let rule := (λ h, weight 5 h) <$> [10; 20; 30; 40] in
  sort_Sort_contract short_Sort ∧
  SortSliceByValue_rule zero_Sum128 v 5 = Ok (Some rule) ∧ rule ≠ [] ∧
  ∃ r p pos v',
    SortByWeight short_Sort rule 5 = Ok r ∧
    (p < length rule)%nat ∧ rule_at r (rule_at r p) = 0%nat ∧
    SortSliceByValue short_Sort zero_Sum128 v 5 = Ok (None, v') ∧
    value_rebuild v pos = Ok v' ∧ pos !! 0%nat = Some (N.of_nat p) ∧
    (p = rule_at r 0 ↔ rule_at r (rule_at r (rule_at r 0)) = 0%nat).
Proof.
  intros v rule.
  assert (SortSliceByValue_rule zero_Sum128 v 5 = Ok (Some rule)) as Hrule
    by reflexivity.
  assert (rule ≠ []) as Hne by discriminate.
  split; [exact short_Sort_contract|]. split; [exact Hrule|].
  split; [exact Hne|].
  exact (SortSliceByValue_first short_Sort zero_Sum128 v 5 rule
           short_Sort_contract Hrule Hne).
Defined.
